(** * Cutting optimizer: [find_all_cuts] and [suggest_optimal_quantities]

    A shallow embedding of the two search routines of [app.py] and the
    properties of their results.

    Modelling conventions.
    - Python integers are [Z].
    - A Python [dict] with integer keys and values is an association list
      in insertion order ([dict]); a subscript read of a missing key raises
      [KeyError], a subscript write replaces in place or appends.
    - Tuples and lists of lengths are [list Z].
    - A Python [float] is a binary64 number ([pyfloat]): a rational that
      binary64 represents, or an infinity.  Every arithmetic result is the
      exact result rounded to nearest, ties to even ([round64]), with
      gradual underflow.  [total_length / raw_length] is the true division
      of integers: the exact quotient rounded once; it raises
      [ZeroDivisionError] on a zero divisor and [OverflowError] when the
      rounded quotient leaves the binary64 range.  No operation of the
      program produces a NaN, and none observes the sign of a zero, so
      neither is represented.
    - Exceptions are a result type [exc]. *)

From Stdlib Require Import ZArith QArith Qround Qpower Lqa List Bool Lia.
From Stdlib Require Import Sorted Permutation.
Import ListNotations.
Open Scope Z_scope.

(** ** Exceptions *)

Inductive pyerror : Type :=
| KeyError
| ZeroDivisionError
| OverflowError.

Inductive exc (A : Type) : Type :=
| Ok (a : A)
| Raise (e : pyerror).

Arguments Ok {A} a.
Arguments Raise {A} e.

Definition bind {A B : Type} (m : exc A) (k : A -> exc B) : exc B :=
  match m with
  | Ok a => k a
  | Raise e => Raise e
  end.

Notation "x <- m ;; k" := (bind m (fun x => k))
  (at level 61, m at next level, right associativity).

(** A [for] loop over a finite sequence whose body updates the loop state
    and may raise. *)
Fixpoint for_each {A S : Type} (xs : list A) (body : A -> S -> exc S) (s : S)
  : exc S :=
  match xs with
  | [] => Ok s
  | x :: xs' => s' <- body x s ;; for_each xs' body s'
  end.

(** ** Dictionaries *)

Definition dict : Type := list (Z * Z).

Definition keys (d : dict) : list Z := map fst d.
Definition values (d : dict) : list Z := map snd d.
Definition items (d : dict) : list (Z * Z) := d.

Fixpoint dict_get (d : dict) (k : Z) : option Z :=
  match d with
  | [] => None
  | (k', v) :: d' => if k' =? k then Some v else dict_get d' k
  end.

(** [d[k]]: raises [KeyError] when [k] is missing. *)
Definition dict_index (d : dict) (k : Z) : exc Z :=
  match dict_get d k with
  | Some v => Ok v
  | None => Raise KeyError
  end.

(** [d[k] = v] *)
Fixpoint dict_set (d : dict) (k v : Z) : dict :=
  match d with
  | [] => [(k, v)]
  | (k', v') :: d' =>
      if k' =? k then (k', v) :: d' else (k', v') :: dict_set d' k v
  end.

(** [sum(xs)] *)
Definition sum (xs : list Z) : Z := fold_left Z.add xs 0.

(** [len(xs)] *)
Definition len {A : Type} (xs : list A) : Z := Z.of_nat (length xs).

(** [range(lo, hi)] for [0 <= lo], as loop indices. *)
Definition range (lo hi : Z) : list nat :=
  seq (Z.to_nat lo) (Z.to_nat (hi - lo)).

(** [collections.Counter(xs)]: every element bumps its own count, a new
    element enters at the end. *)
Definition counter_add (c : dict) (x : Z) : dict :=
  dict_set c x (match dict_get c x with Some n => n | None => 0 end + 1).

Definition Counter (xs : list Z) : dict := fold_left counter_add xs [].

(** [itertools.combinations_with_replacement(pool, r)]: the [r]-element
    selections of [pool] positions in non-decreasing position order, listed
    lexicographically. *)
Fixpoint combinations_with_replacement (pool : list Z) (r : nat)
  : list (list Z) :=
  match r with
  | O => [[]]
  | S r' =>
      (fix from (p : list Z) : list (list Z) :=
         match p with
         | [] => []
         | x :: p' =>
             map (cons x) (combinations_with_replacement p r') ++ from p'
         end) pool
  end.

(** ** The catalog *)

Definition CUT_LENGTHS : list Z :=
  [515; 1025; 1145; 1835; 2045; 2075; 2165; 2515; 2835; 3575;
   3695; 3755; 3815; 4085; 4155; 4225; 5015; 5375; 5515; 6000].

(** ** Floats *)

Inductive pyfloat : Type :=
| NegInf
| Finite (q : Q)
| PosInf.

(** [2 ** k] for any integer [k]. *)
Definition pow2 (k : Z) : Q := ((2 # 1) ^ k)%Q.

(** For [q > 0], the [k] with [2 ** k <= q < 2 ** (k + 1)]. *)
Definition ilog2 (q : Q) : Z :=
  if Qle_bool 1 q then Z.log2 (Qfloor q)
  else - Z.log2_up (Qceiling (/ q)).

(** The integer nearest to [x], the even one of two equally near. *)
Definition rne (x : Q) : Z :=
  let f := Qfloor x in
  match (x - inject_Z f ?= 1 # 2)%Q with
  | Lt => f
  | Gt => f + 1
  | Eq => if Z.even f then f else f + 1
  end.

(** The exponent of the last place of [q > 0]: 53 significant bits, and
    no place below [2 ** -1074]. *)
Definition fexp (q : Q) : Z := Z.max (ilog2 q - 52) (-1074).

(** [q > 0] rounded to 53 bits, before the range check. *)
Definition round_pos (q : Q) : Q :=
  (inject_Z (rne (q / pow2 (fexp q))) * pow2 (fexp q))%Q.

(** The binary64 number nearest to [q]; an infinity from [2 ** 1024]
    on. *)
Definition round64 (q : Q) : pyfloat :=
  match (q ?= 0)%Q with
  | Eq => Finite 0
  | Gt => let v := round_pos q in
          if Qle_bool (pow2 1024) v then PosInf else Finite v
  | Lt => let v := round_pos (- q) in
          if Qle_bool (pow2 1024) v then NegInf else Finite (- v)
  end.

(** Comparison of floats. *)
Definition fcompare (a b : pyfloat) : comparison :=
  match a, b with
  | NegInf, NegInf => Eq
  | NegInf, _ => Lt
  | Finite _, NegInf => Gt
  | Finite x, Finite y => (x ?= y)%Q
  | Finite _, PosInf => Lt
  | PosInf, PosInf => Eq
  | PosInf, _ => Gt
  end.

(** [-x] *)
Definition fneg (a : pyfloat) : pyfloat :=
  match a with
  | NegInf => PosInf
  | Finite q => Finite (- q)
  | PosInf => NegInf
  end.

(** [a > b] *)
Definition fgtb (a b : pyfloat) : bool :=
  match fcompare a b with Gt => true | _ => false end.

(** ** Scoring *)

(** [a / b] on integers (true division). *)
Definition true_div (a b : Z) : exc pyfloat :=
  if b =? 0 then Raise ZeroDivisionError
  else match round64 (inject_Z a / inject_Z b) with
       | Finite q => Ok (Finite q)
       | _ => Raise OverflowError
       end.

(** [x * 100]: the integer 100 is the float 100.0 exactly. *)
Definition times_100 (x : pyfloat) : pyfloat :=
  match x with
  | Finite q => round64 (q * inject_Z 100)
  | NegInf => NegInf
  | PosInf => PosInf
  end.

(** [(total_length / raw_length) * 100] *)
Definition efficiency_of (total_length raw_length : Z) : exc pyfloat :=
  q <- true_div total_length raw_length ;; Ok (times_100 q).

(** One entry of the result list of [find_all_cuts]. *)
Record cut : Type := mk_cut {
  combination : list Z;
  total_length : Z;
  waste : Z;
  efficiency : pyfloat;
  pieces : Z
}.

(** ** Sorting: [results.sort(key=...)]

    [list.sort] is stable and compares keys with [<]; the key is the pair
    [(-efficiency, waste)], compared lexicographically. *)

Definition sort_key (x : cut) : pyfloat * Z :=
  (fneg (efficiency x), waste x).

Definition key_leb (a b : pyfloat * Z) : bool :=
  match fcompare (fst a) (fst b) with
  | Lt => true
  | Eq => snd a <=? snd b
  | Gt => false
  end.

Fixpoint insert_by_key (x : cut) (l : list cut) : list cut :=
  match l with
  | [] => [x]
  | y :: l' =>
      if key_leb (sort_key x) (sort_key y) then x :: y :: l'
      else y :: insert_by_key x l'
  end.

Definition list_sort (l : list cut) : list cut :=
  fold_right insert_by_key [] l.

(** ** [find_all_cuts] *)

Definition available_lengths_of (desired_cuts : dict) : list Z :=
  map fst (filter (fun item => snd item >? 0) (items desired_cuts)).

(** The quantity check: the loop over [combo_count.items()] with its
    [break]. *)
Fixpoint check_quantities (combo_count : list (Z * Z)) (desired_cuts : dict)
  : exc bool :=
  match combo_count with
  | [] => Ok true
  | (length, needed) :: rest =>
      have <- dict_index desired_cuts length ;;
      if needed >? have then Ok false
      else check_quantities rest desired_cuts
  end.

(** Body of the inner loop. *)
Definition try_combo (raw_length : Z) (desired_cuts : dict)
  (combo : list Z) (results : list cut) : exc (list cut) :=
  let total_length := sum combo in
  if total_length <=? raw_length then
    let combo_count := Counter combo in
    valid <- check_quantities (items combo_count) desired_cuts ;;
    if (valid : bool) then
      let waste := raw_length - total_length in
      efficiency <- efficiency_of total_length raw_length ;;
      Ok (results ++ [mk_cut combo total_length waste efficiency (len combo)])
    else Ok results
  else Ok results.

Definition find_all_cuts (raw_length : Z) (desired_cuts : dict)
  : exc (list cut) :=
  let results := [] in
  let available_lengths := available_lengths_of desired_cuts in
  match available_lengths with
  | [] => Ok results
  | _ :: _ =>
      let max_pieces := sum (values desired_cuts) in
      results <-
        for_each (range 1 (max_pieces + 1))
          (fun combo_size results =>
             for_each
               (combinations_with_replacement available_lengths combo_size)
               (try_combo raw_length desired_cuts) results)
          results ;;
      let results := list_sort results in
      Ok (firstn 5 results)
  end.

(** ** [suggest_optimal_quantities] *)

Record best : Type := mk_best {
  best_combo : option (list Z);
  best_efficiency : pyfloat
}.

(** Body of the inner search loop. *)
Definition consider (raw_length : Z) (combo : list Z) (b : best) : exc best :=
  let total_length := sum combo in
  if total_length <=? raw_length then
    efficiency <- efficiency_of total_length raw_length ;;
    if fgtb efficiency (best_efficiency b)
    then Ok (mk_best (Some combo) efficiency)
    else Ok b
  else Ok b.

Definition search (raw_length : Z) : exc best :=
  for_each (range 2 5)
    (fun combo_size b =>
       for_each (combinations_with_replacement CUT_LENGTHS combo_size)
         (consider raw_length) b)
    (mk_best None (Finite (inject_Z 0))).

(** Conversion to a quantity dictionary.  [if best_combo:] holds exactly
    for a non-empty tuple. *)
Definition to_quantities (best_combo : option (list Z)) : dict :=
  let suggested_cuts :=
    fold_left (fun d length => dict_set d length 0) CUT_LENGTHS [] in
  match best_combo with
  | Some (x :: c) =>
      let combo_count := Counter (x :: c) in
      fold_left (fun d item => dict_set d (fst item) (snd item))
        (items combo_count) suggested_cuts
  | _ => suggested_cuts
  end.

Definition suggest_optimal_quantities (raw_length : Z) : exc dict :=
  b <- search raw_length ;;
  Ok (to_quantities (best_combo b)).

(** ** Vocabulary of the statements *)

(** Number of occurrences of [k] in [xs]. *)
Definition occurrences (k : Z) (xs : list Z) : Z :=
  Z.of_nat (count_occ Z.eq_dec xs k).

(** Every multiset [suggest_optimal_quantities] looks at, in the order it
    looks at them. *)
Definition candidates : list (list Z) :=
  concat (map (combinations_with_replacement CUT_LENGTHS) (range 2 5)).

(** The candidates that fit into the raw length. *)
Definition fits (raw_length : Z) (combo : list Z) : bool :=
  sum combo <=? raw_length.

(** Order and equality of floats, as propositions. *)
Definition fle (a b : pyfloat) : Prop :=
  match a, b with
  | NegInf, _ => True
  | _, PosInf => True
  | Finite x, Finite y => (x <= y)%Q
  | _, _ => False
  end.

Definition flt (a b : pyfloat) : Prop :=
  match a, b with
  | PosInf, _ => False
  | _, NegInf => False
  | Finite x, Finite y => (x < y)%Q
  | _, _ => True
  end.

Definition feq (a b : pyfloat) : Prop :=
  match a, b with
  | NegInf, NegInf => True
  | PosInf, PosInf => True
  | Finite x, Finite y => (x == y)%Q
  | _, _ => False
  end.

(** The float [(total / raw) * 100] evaluates to when the division does
    not raise. *)
Definition effv (total raw : Z) : pyfloat :=
  times_100 (round64 (inject_Z total / inject_Z raw)).

(** The computed efficiency of a multiset. *)
Definition eff (raw_length : Z) (combo : list Z) : pyfloat :=
  effv (sum combo) raw_length.

(** The exact efficiency of a multiset, as a rational. *)
Definition exact_efficiency (total raw : Z) : Q :=
  (inject_Z 100 * inject_Z total / inject_Z raw)%Q.

(** The raw length from which on every quotient of a candidate rounds to
    0.0: the greatest candidate total is 24000, and a quotient of at most
    [2 ** -1075] rounds to zero. *)
Definition underflow_from : Z := 24000 * 2 ^ 1075.

(** The dictionary with every catalog length at quantity 0. *)
Definition all_zero : dict := map (fun length => (length, 0)) CUT_LENGTHS.

(** Sum of [length * quantity] over a dictionary. *)
Definition weighted_total (d : dict) : Z :=
  sum (map (fun item => fst item * snd item) d).

(** The order [list.sort] establishes on the entries. *)
Definition key_le (x y : cut) : Prop :=
  key_leb (sort_key x) (sort_key y) = true.

(** Best-first order of two entries: the earlier one is at least as
    efficient, and at equal efficiency wastes no more. *)
Definition ranked_before (a b : cut) : Prop :=
  fle (efficiency b) (efficiency a) /\
  (feq (efficiency a) (efficiency b) -> waste a <= waste b).

(** No exception of kind [KeyError]. *)
Definition no_key_error {A : Type} (m : exc A) : Prop :=
  match m with
  | Raise KeyError => False
  | _ => True
  end.

(** The dictionary that maps every catalog length to the number of times it
    occurs in [combo]. *)
Definition quantities_of (combo : list Z) : dict :=
  map (fun k => (k, occurrences k combo)) CUT_LENGTHS.

(** [b] is the first entry of [feasible] with the highest computed
    efficiency, provided that efficiency is above 0; nothing is kept while
    no efficiency is above 0. *)
Definition first_best (raw_length : Z) (feasible : list (list Z)) (b : best)
  : Prop :=
  match best_combo b with
  | None =>
      best_efficiency b = Finite (inject_Z 0) /\
      forall c, In c feasible -> fle (eff raw_length c) (Finite (inject_Z 0))
  | Some winner =>
      best_efficiency b = eff raw_length winner /\
      flt (Finite (inject_Z 0)) (eff raw_length winner) /\
      exists before after,
        feasible = before ++ winner :: after /\
        (forall c, In c before ->
                   flt (eff raw_length c) (eff raw_length winner)) /\
        (forall c, In c after ->
                   fle (eff raw_length c) (eff raw_length winner))
  end.

(** ** The page: [main]

    [main] reads the raw length and one quantity per catalog length from
    number inputs, and shows a table, a warning or a hint.  The widgets are
    inputs of the model: [number_input length] is the value the input keyed
    [qty_<length>] returns in this run. *)

Definition cols_per_row : Z := 4.

(** [range(start, stop, step)] for a positive [step]. *)
Definition range_step (start stop step : Z) : list Z :=
  map (fun i => start + Z.of_nat i * step)
      (seq 0 (Z.to_nat ((stop - start + step - 1) / step))).

(** [l[i:j]] for [0 <= i]. *)
Definition slice {A : Type} (l : list A) (i j : Z) : list A :=
  firstn (Z.to_nat (j - i)) (skipn (Z.to_nat i) l).

(** The grid loops that fill [desired_cuts], row by row. *)
Definition read_quantities (number_input : Z -> Z) : dict :=
  fold_left
    (fun desired_cuts i =>
       fold_left
         (fun desired_cuts length =>
            dict_set desired_cuts length (number_input length))
         (slice CUT_LENGTHS i (i + cols_per_row)) desired_cuts)
    (range_step 0 (len CUT_LENGTHS) cols_per_row) [].

(** What the page shows below the grid. *)
Inductive page : Type :=
| Table (rows : list cut) (recommended : cut)
| NoValidCombinations
| PleaseSelect.

(** [any(qty > 0 for qty in desired_cuts.values())] *)
Definition any_positive (desired_cuts : dict) : bool :=
  existsb (fun qty => qty >? 0) (values desired_cuts).

Definition main_page (number_input : Z -> Z) (raw_length : Z) : exc page :=
  let desired_cuts := read_quantities number_input in
  if any_positive desired_cuts then
    results <- find_all_cuts raw_length desired_cuts ;;
    match results with
    | best :: _ => Ok (Table results best)
    | [] => Ok NoValidCombinations
    end
  else Ok PleaseSelect.

(** The suggest button stores the suggested quantities under the widget
    keys; the rerun reads them back through the grid. *)
Definition after_suggest (suggested : dict) (length : Z) : Z :=
  match dict_get suggested length with
  | Some qty => qty
  | None => 0
  end.

(** ** More vocabulary *)

(** The quantity check as a boolean. *)
Definition within_quantities (desired_cuts : dict) (combo : list Z) : bool :=
  forallb
    (fun item =>
       match dict_get desired_cuts (fst item) with
       | Some q => negb (snd item >? q)
       | None => false
       end)
    (items (Counter combo)).

(** The multisets the loops generate, in generation order. *)
Definition generated (desired_cuts : dict) : list (list Z) :=
  concat
    (map (combinations_with_replacement (available_lengths_of desired_cuts))
         (range 1 (sum (values desired_cuts) + 1))).

(** A generated multiset that is kept. *)
Definition accepted (raw_length : Z) (desired_cuts : dict) (combo : list Z)
  : bool :=
  fits raw_length combo && within_quantities desired_cuts combo.

(** The entry appended for a kept multiset. *)
Definition entry (raw_length : Z) (combo : list Z) : cut :=
  mk_cut combo (sum combo) (raw_length - sum combo)
         (eff raw_length combo) (len combo).

(** A multiset of pieces that can be cut: not empty, within the raw length,
    made of desired lengths, none used more often than desired. *)
Definition feasible (raw_length : Z) (desired_cuts : dict) (combo : list Z)
  : Prop :=
  combo <> [] /\
  sum combo <= raw_length /\
  forall k, In k combo ->
            exists q, dict_get desired_cuts k = Some q /\
                      occurrences k combo <= q.

(** Well-formed input: a dictionary (keys are unique) of positive lengths with
    non-negative quantities. *)
Definition length_quantity (desired_cuts : dict) : Prop :=
  NoDup (keys desired_cuts) /\
  (forall k, In k (keys desired_cuts) -> 0 < k) /\
  (forall k q, In (k, q) desired_cuts -> 0 <= q).

(** Two entries with the same sort key. *)
Definition tie (a b : cut) : Prop := key_le a b /\ key_le b a.

(** Case analysis on every float in the context. *)
Ltac float_cases :=
  repeat match goal with
         | x : pyfloat |- _ => destruct x
         end;
  simpl in *; try tauto; try lra.

(** * Loops *)

Section ForEach.
Context {A S : Type}.
Variable body : A -> S -> exc S.

Lemma for_each_app (xs ys : list A) (s : S) :
  for_each (xs ++ ys) body s =
  (s' <- for_each xs body s ;; for_each ys body s').
Proof.
  revert s. induction xs as [|x xs IH]; intros s; simpl; [reflexivity|].
  destruct (body x s) as [s'|e]; simpl; [apply IH | reflexivity].
Qed.

Lemma for_each_inv (P : S -> Prop) (xs : list A) :
  (forall x s, In x xs -> P s -> exists s', body x s = Ok s' /\ P s') ->
  forall s, P s -> exists s', for_each xs body s = Ok s' /\ P s'.
Proof.
  induction xs as [|x xs IH]; intros Hstep s Hs; simpl.
  - exists s. split; [reflexivity | assumption].
  - destruct (Hstep x s (or_introl eq_refl) Hs) as [s1 [E1 P1]].
    rewrite E1. simpl. apply IH; [|assumption].
    intros y t Hy. apply Hstep. right. assumption.
Qed.
End ForEach.

Lemma for_each_nested {A B S : Type} (g : A -> list B)
  (body : B -> S -> exc S) (xs : list A) (s : S) :
  for_each xs (fun x t => for_each (g x) body t) s =
  for_each (concat (map g xs)) body s.
Proof.
  revert s. induction xs as [|x xs IH]; intros s; simpl; [reflexivity|].
  rewrite for_each_app.
  destruct (for_each (g x) body s) as [s'|e]; simpl; [apply IH | reflexivity].
Qed.

(** * Sums and counts *)

Lemma fold_add_shift (xs : list Z) (a : Z) :
  fold_left Z.add xs a = a + fold_left Z.add xs 0.
Proof.
  revert a. induction xs as [|x xs IH]; intros a; simpl; [lia|].
  rewrite (IH (a + x)), (IH x). lia.
Qed.

Lemma sum_cons (x : Z) (xs : list Z) : sum (x :: xs) = x + sum xs.
Proof. unfold sum. simpl. apply fold_add_shift. Qed.

Lemma sum_nil : sum [] = 0.
Proof. reflexivity. Qed.

Lemma occurrences_cons (k x : Z) (xs : list Z) :
  occurrences k (x :: xs) =
  (if x =? k then 1 else 0) + occurrences k xs.
Proof.
  unfold occurrences. simpl.
  destruct (Z.eq_dec x k) as [E|E].
  - subst. rewrite Z.eqb_refl. lia.
  - apply Z.eqb_neq in E. rewrite E. lia.
Qed.

Lemma occurrences_nonneg (k : Z) (xs : list Z) : 0 <= occurrences k xs.
Proof. unfold occurrences. lia. Qed.

Lemma occurrences_pos (k : Z) (xs : list Z) :
  In k xs <-> 0 < occurrences k xs.
Proof.
  unfold occurrences. rewrite (count_occ_In Z.eq_dec). lia.
Qed.

(** * Dictionaries *)

Lemma dict_get_set (d : dict) (k v k' : Z) :
  dict_get (dict_set d k v) k' = if k =? k' then Some v else dict_get d k'.
Proof.
  induction d as [|[a b] d IH]; simpl.
  - reflexivity.
  - destruct (a =? k) eqn:Eak; simpl.
    + apply Z.eqb_eq in Eak. subst a.
      destruct (k =? k'); reflexivity.
    + rewrite IH. destruct (a =? k') eqn:Eak'; [|reflexivity].
      apply Z.eqb_eq in Eak'. subst a. rewrite Z.eqb_sym, Eak. reflexivity.
Qed.

Lemma dict_get_some_in (d : dict) (k v : Z) :
  dict_get d k = Some v -> In (k, v) d.
Proof.
  induction d as [|[a b] d IH]; simpl; [discriminate|].
  destruct (a =? k) eqn:E.
  - apply Z.eqb_eq in E. intros [= ->]. left. congruence.
  - intros H. right. apply IH, H.
Qed.

Lemma dict_get_none (d : dict) (k : Z) :
  dict_get d k = None <-> ~ In k (keys d).
Proof.
  induction d as [|[a b] d IH]; simpl.
  - split; [intros _ [] | reflexivity].
  - destruct (a =? k) eqn:E.
    + apply Z.eqb_eq in E. split; [discriminate | intros H; exfalso; auto].
    + apply Z.eqb_neq in E. rewrite IH. tauto.
Qed.

Lemma dict_get_key (d : dict) (k : Z) :
  In k (keys d) -> exists v, dict_get d k = Some v.
Proof.
  intros H. destruct (dict_get d k) as [v|] eqn:E; [eauto|].
  apply dict_get_none in E. contradiction.
Qed.

Lemma dict_get_unique (d : dict) (k v : Z) :
  NoDup (keys d) -> In (k, v) d -> dict_get d k = Some v.
Proof.
  induction d as [|[a b] d IH]; simpl; [intros _ []|].
  intros Hnd [H|H].
  - injection H as -> ->. rewrite Z.eqb_refl. reflexivity.
  - inversion Hnd as [|? ? Hnotin Hnd']; subst.
    destruct (a =? k) eqn:E.
    + apply Z.eqb_eq in E. subst a. exfalso. apply Hnotin.
      change k with (fst (k, v)). apply in_map, H.
    + apply IH; assumption.
Qed.

Lemma keys_dict_set_in (d : dict) (k v : Z) :
  In k (keys d) -> keys (dict_set d k v) = keys d.
Proof.
  induction d as [|[a b] d IH]; simpl; [intros []|].
  destruct (a =? k) eqn:E; simpl; [reflexivity|].
  apply Z.eqb_neq in E. intros [H|H]; [contradiction|].
  f_equal. apply IH, H.
Qed.

Lemma keys_dict_set_new (d : dict) (k v : Z) :
  ~ In k (keys d) -> keys (dict_set d k v) = keys d ++ [k].
Proof.
  induction d as [|[a b] d IH]; simpl; [reflexivity|].
  intros H. destruct (a =? k) eqn:E.
  - apply Z.eqb_eq in E. exfalso. auto.
  - simpl. f_equal. apply IH. auto.
Qed.

Lemma keys_dict_set_nodup (d : dict) (k v : Z) :
  NoDup (keys d) -> NoDup (keys (dict_set d k v)).
Proof.
  intros Hnd. destruct (in_dec Z.eq_dec k (keys d)) as [H|H].
  - rewrite keys_dict_set_in; assumption.
  - rewrite keys_dict_set_new by assumption.
    apply NoDup_app; [assumption | repeat constructor; intros [] | ].
    intros x Hx [<-|[]]. contradiction.
Qed.

(** A dictionary is determined by its key order and its lookups. *)
Lemma dict_ext (d : dict) (f : Z -> Z) :
  NoDup (keys d) ->
  (forall k, In k (keys d) -> dict_get d k = Some (f k)) ->
  d = map (fun k => (k, f k)) (keys d).
Proof.
  induction d as [|[a b] d IH]; simpl; [reflexivity|].
  intros Hnd Hget. inversion Hnd as [|? ? Hnotin Hnd']; subst.
  f_equal.
  - specialize (Hget a (or_introl eq_refl)). rewrite Z.eqb_refl in Hget.
    congruence.
  - apply IH; [assumption|]. intros k Hk.
    specialize (Hget k (or_intror Hk)).
    destruct (a =? k) eqn:E; [|assumption].
    apply Z.eqb_eq in E. subst. contradiction.
Qed.

(** * [Counter] *)

Lemma counter_fold_get (xs : list Z) (c : dict) (k : Z) :
  dict_get (fold_left counter_add xs c) k =
  if occurrences k xs =? 0 then dict_get c k
  else Some (match dict_get c k with Some n => n | None => 0 end
             + occurrences k xs).
Proof.
  revert c. induction xs as [|x xs IH]; intros c.
  - reflexivity.
  - simpl fold_left. rewrite IH, occurrences_cons.
    unfold counter_add. rewrite dict_get_set.
    pose proof (occurrences_nonneg k xs) as Hn.
    destruct (x =? k) eqn:E.
    + apply Z.eqb_eq in E. subst x.
      destruct (occurrences k xs =? 0) eqn:E0.
      * apply Z.eqb_eq in E0. rewrite E0. simpl. f_equal; lia.
      * apply Z.eqb_neq in E0.
        destruct (1 + occurrences k xs =? 0) eqn:E1.
        { apply Z.eqb_eq in E1. lia. }
        f_equal; lia.
    + reflexivity.
Qed.

Lemma Counter_get (xs : list Z) (k : Z) :
  dict_get (Counter xs) k =
  if occurrences k xs =? 0 then None else Some (occurrences k xs).
Proof. unfold Counter. rewrite counter_fold_get. reflexivity. Qed.

Lemma Counter_nodup (xs : list Z) : NoDup (keys (Counter xs)).
Proof.
  unfold Counter.
  assert (G : forall c, NoDup (keys c) ->
                        NoDup (keys (fold_left counter_add xs c))).
  { induction xs as [|x xs IH]; intros c Hc; simpl; [assumption|].
    apply IH. apply keys_dict_set_nodup, Hc. }
  apply G. constructor.
Qed.

Lemma Counter_keys (xs : list Z) (k : Z) :
  In k (keys (Counter xs)) <-> In k xs.
Proof.
  rewrite (occurrences_pos k xs). pose proof (Counter_get xs k) as G.
  pose proof (occurrences_nonneg k xs) as Hn.
  destruct (occurrences k xs =? 0) eqn:E.
  - apply Z.eqb_eq in E. apply dict_get_none in G. split; [tauto | lia].
  - apply Z.eqb_neq in E. split; [lia|]. intros _.
    destruct (in_dec Z.eq_dec k (keys (Counter xs))) as [H|H]; [assumption|].
    apply dict_get_none in H. congruence.
Qed.

Lemma Counter_items (xs : list Z) (k n : Z) :
  In (k, n) (items (Counter xs)) <-> In k xs /\ n = occurrences k xs.
Proof.
  unfold items. split.
  - intros H. pose proof (dict_get_unique _ _ _ (Counter_nodup xs) H) as G.
    rewrite Counter_get in G.
    destruct (occurrences k xs =? 0) eqn:E; [discriminate|].
    apply Z.eqb_neq in E. pose proof (occurrences_nonneg k xs).
    split; [apply occurrences_pos; lia | congruence].
  - intros [Hin ->]. apply dict_get_some_in. rewrite Counter_get.
    apply occurrences_pos in Hin.
    destruct (occurrences k xs =? 0) eqn:E; [|reflexivity].
    apply Z.eqb_eq in E. lia.
Qed.

(** * [combinations_with_replacement] *)

Lemma cwr_nil (r : nat) : combinations_with_replacement [] (S r) = [].
Proof. reflexivity. Qed.

Lemma cwr_cons (x : Z) (p : list Z) (r : nat) :
  combinations_with_replacement (x :: p) (S r) =
  map (cons x) (combinations_with_replacement (x :: p) r)
  ++ combinations_with_replacement p (S r).
Proof. reflexivity. Qed.

Lemma cwr_spec (r : nat) :
  forall pool c,
    In c (combinations_with_replacement pool r) ->
    length c = r /\ incl c pool.
Proof.
  induction r as [|r IHr]; intros pool c.
  - simpl. intros [<-|[]]. split; [reflexivity | intros x []].
  - induction pool as [|x p IHp].
    + rewrite cwr_nil. intros [].
    + rewrite cwr_cons, in_app_iff, in_map_iff.
      intros [[c' [<- Hc']]|H].
      * destruct (IHr _ _ Hc') as [Hl Hi]. split; [simpl; congruence|].
        intros y [<-|Hy]; [left; reflexivity | apply Hi, Hy].
      * destruct (IHp H) as [Hl Hi]. split; [assumption|].
        intros y Hy. right. apply Hi, Hy.
Qed.

(** * Rounding to binary64 *)

Lemma pow2_pos (k : Z) : (0 < pow2 k)%Q.
Proof. apply Qpower_0_lt. reflexivity. Qed.

Lemma pow2_add (a b : Z) : (pow2 (a + b) == pow2 a * pow2 b)%Q.
Proof. apply Qpower_plus. discriminate. Qed.

Lemma pow2_le (a b : Z) : a <= b -> (pow2 a <= pow2 b)%Q.
Proof. intros H. apply Qpower_le_compat_l; [exact H | discriminate]. Qed.

Lemma pow2_lt (a b : Z) : a < b -> (pow2 a < pow2 b)%Q.
Proof. intros H. apply Qpower_lt_compat_l; [exact H | reflexivity]. Qed.

Lemma pow2_nonneg (k : Z) : 0 <= k -> (pow2 k == inject_Z (2 ^ k))%Q.
Proof. intros H. symmetry. apply (Zpower_Qpower 2 k H). Qed.

Lemma pow2_opp (k : Z) : (pow2 (- k) == / pow2 k)%Q.
Proof. apply Qpower_opp. Qed.

Lemma inject_Z_le (a b : Z) : a <= b -> (inject_Z a <= inject_Z b)%Q.
Proof. intros H. rewrite <- Zle_Qle. exact H. Qed.

Lemma inject_Z_lt (a b : Z) : a < b -> (inject_Z a < inject_Z b)%Q.
Proof. intros H. rewrite <- Zlt_Qlt. exact H. Qed.

Lemma ilog2_spec (q : Q) :
  (0 < q)%Q -> (pow2 (ilog2 q) <= q)%Q /\ (q < pow2 (ilog2 q + 1))%Q.
Proof.
  intros Hq. unfold ilog2. destruct (Qle_bool 1 q) eqn:E.
  - apply Qle_bool_iff in E.
    assert (Hf : 1 <= Qfloor q).
    { change 1 with (Qfloor 1). apply Qfloor_resp_le, E. }
    destruct (Z.log2_spec (Qfloor q)) as [L U]; [lia|].
    pose proof (Z.log2_nonneg (Qfloor q)) as Hn.
    rewrite !pow2_nonneg by lia. split.
    + apply (Qle_trans _ (inject_Z (Qfloor q))); [apply inject_Z_le, L|].
      apply Qfloor_le.
    + apply (Qlt_le_trans _ (inject_Z (Qfloor q + 1))); [apply Qlt_floor|].
      apply inject_Z_le. unfold Z.succ in U. lia.
  - assert (L1 : (q < 1)%Q).
    { apply Qnot_le_lt. intros H. apply Qle_bool_iff in H. congruence. }
    assert (Hu : (1 < / q)%Q).
    { apply Qlt_shift_inv_l; [exact Hq|]. lra. }
    set (c := Qceiling (/ q)).
    assert (Hc : 1 < c).
    { rewrite Zlt_Qlt. apply (Qlt_le_trans _ (/ q)); [exact Hu|].
      apply Qle_ceiling. }
    destruct (Z.log2_up_spec c Hc) as [L U].
    pose proof (Z.log2_up_nonneg c) as Hn.
    assert (Hk : 0 < Z.log2_up c) by (apply Z.log2_up_pos; exact Hc).
    split.
    + rewrite pow2_opp, pow2_nonneg by lia.
      assert (Hp : (0 < inject_Z (2 ^ Z.log2_up c))%Q).
      { apply (inject_Z_lt 0). apply Z.pow_pos_nonneg; lia. }
      apply Qle_shift_inv_r; [exact Hp|].
      assert (H1 : (/ q <= inject_Z (2 ^ Z.log2_up c))%Q).
      { apply (Qle_trans _ (inject_Z c)); [apply Qle_ceiling|].
        apply inject_Z_le, U. }
      assert (Hq1 : (q * / q == 1)%Q) by (field; lra).
      assert (H2 : (q * / q <= q * inject_Z (2 ^ Z.log2_up c))%Q)
        by (apply Qmult_le_l; assumption).
      lra.
    + replace (- Z.log2_up c + 1) with (- (Z.log2_up c - 1)) by lia.
      rewrite pow2_opp, pow2_nonneg by lia.
      assert (Hp : (0 < inject_Z (2 ^ (Z.log2_up c - 1)))%Q).
      { apply (inject_Z_lt 0). apply Z.pow_pos_nonneg; lia. }
      apply Qlt_shift_inv_l; [exact Hp|].
      assert (H1 : (inject_Z (2 ^ (Z.log2_up c - 1)) < / q)%Q).
      { apply (Qle_lt_trans _ (inject_Z (c - 1))).
        - apply inject_Z_le.
          replace (Z.pred (Z.log2_up c)) with (Z.log2_up c - 1) in L by lia.
          lia.
        - apply Qceiling_lt. }
      assert (Hq1 : (q * / q == 1)%Q) by (field; lra).
      assert (H2 : (q * inject_Z (2 ^ (Z.log2_up c - 1)) < q * / q)%Q)
        by (apply Qmult_lt_l; assumption).
      lra.
Qed.

Lemma ilog2_mono (q1 q2 : Q) :
  (0 < q1)%Q -> (q1 <= q2)%Q -> ilog2 q1 <= ilog2 q2.
Proof.
  intros H1 H12.
  destruct (ilog2_spec q1 H1) as [L1 _].
  destruct (ilog2_spec q2) as [_ U2]; [lra|].
  destruct (Z_le_gt_dec (ilog2 q1) (ilog2 q2)) as [H|H]; [exact H|].
  exfalso.
  assert (Hp : (pow2 (ilog2 q2 + 1) <= pow2 (ilog2 q1))%Q)
    by (apply pow2_le; lia).
  lra.
Qed.

(** Nearest integers. *)

Lemma rne_spec (x : Q) :
  (rne x = Qfloor x /\
   ((x - inject_Z (Qfloor x) < 1 # 2)%Q \/
    ((x - inject_Z (Qfloor x) == 1 # 2)%Q /\ Z.even (Qfloor x) = true))) \/
  (rne x = Qfloor x + 1 /\
   ((1 # 2 < x - inject_Z (Qfloor x))%Q \/
    ((x - inject_Z (Qfloor x) == 1 # 2)%Q /\ Z.even (Qfloor x) = false))).
Proof.
  unfold rne.
  destruct (Qcompare_spec (x - inject_Z (Qfloor x)) (1 # 2)) as [E|L|G].
  - destruct (Z.even (Qfloor x)) eqn:Ev; [left | right]; auto.
  - left. auto.
  - right. auto.
Qed.

Lemma floor_bounds (x : Q) :
  (inject_Z (Qfloor x) <= x)%Q /\ (x < inject_Z (Qfloor x) + 1)%Q.
Proof.
  split; [apply Qfloor_le|].
  pose proof (Qlt_floor x) as H. rewrite inject_Z_plus in H. exact H.
Qed.

Lemma rne_mono (x y : Q) : (x <= y)%Q -> rne x <= rne y.
Proof.
  intros Hxy. pose proof (Qfloor_resp_le x y Hxy) as Hf.
  destruct (rne_spec x) as [[Ex Cx]|[Ex Cx]];
    destruct (rne_spec y) as [[Ey Cy]|[Ey Cy]]; rewrite Ex, Ey; try lia.
  destruct (Z.eq_dec (Qfloor x) (Qfloor y)) as [E|N]; [|lia]. exfalso.
  rewrite E in Cx.
  destruct Cx as [Cx|[Cx Px]]; destruct Cy as [Cy|[Cy Py]]; try lra.
  congruence.
Qed.

Lemma rne_inject_Z (n : Z) : rne (inject_Z n) = n.
Proof.
  destruct (rne_spec (inject_Z n)) as [[E _]|[E C]];
    rewrite Qfloor_Z in *; [exact E|].
  exfalso. destruct C as [C|[C _]]; lra.
Qed.

Lemma rne_ge (n : Z) (x : Q) : (inject_Z n <= x)%Q -> n <= rne x.
Proof. intros H. rewrite <- (rne_inject_Z n). apply rne_mono, H. Qed.

Lemma rne_le (n : Z) (x : Q) : (x <= inject_Z n)%Q -> rne x <= n.
Proof. intros H. rewrite <- (rne_inject_Z n). apply rne_mono, H. Qed.

Lemma rne_error (x : Q) :
  (x - (1 # 2) <= inject_Z (rne x))%Q /\ (inject_Z (rne x) <= x + (1 # 2))%Q.
Proof.
  destruct (floor_bounds x) as [L U].
  destruct (rne_spec x) as [[E C]|[E C]]; rewrite E;
    try (rewrite inject_Z_plus; change (inject_Z 1) with 1%Q);
    destruct C as [C|[C _]]; split; lra.
Qed.

Lemma floor_unit (x : Q) : (0 <= x)%Q -> (x < 1)%Q -> Qfloor x = 0.
Proof.
  intros H0 H1.
  assert (L : 0 <= Qfloor x).
  { change 0 with (Qfloor 0). apply Qfloor_resp_le, H0. }
  assert (U : Qfloor x < 1).
  { rewrite Zlt_Qlt. apply (Qle_lt_trans _ x); [apply Qfloor_le | exact H1]. }
  lia.
Qed.

Lemma rne_zero_iff (x : Q) : (0 <= x)%Q -> rne x = 0 <-> (x <= 1 # 2)%Q.
Proof.
  intros H0. split.
  - intros E. apply Qnot_lt_le. intros G.
    destruct (Qlt_le_dec x 1) as [L1|L1].
    + pose proof (floor_unit x H0 L1) as F.
      destruct (rne_spec x) as [[_ C]|[E' _]]; rewrite F in *;
        change (inject_Z 0) with 0%Q in *.
      * destruct C as [C|[C _]]; lra.
      * lia.
    + pose proof (rne_ge 1 x L1). lia.
  - intros L.
    assert (F : Qfloor x = 0) by (apply floor_unit; lra).
    destruct (rne_spec x) as [[E _]|[_ C]]; rewrite F in *; [exact E|].
    exfalso. change (inject_Z 0) with 0%Q in *.
    destruct C as [C|[C Ev]]; [lra | discriminate].
Qed.

(** Rounding of positive rationals. *)

Lemma round_pos_unfold (q : Q) :
  round_pos q = (inject_Z (rne (q / pow2 (fexp q))) * pow2 (fexp q))%Q.
Proof. reflexivity. Qed.

Lemma round_pos_nonneg (q : Q) : (0 <= q)%Q -> (0 <= round_pos q)%Q.
Proof.
  intros H. rewrite round_pos_unfold.
  pose proof (pow2_pos (fexp q)) as Hp.
  apply Qmult_le_0_compat; [|lra].
  apply (inject_Z_le 0). apply rne_ge.
  apply Qle_shift_div_l; [exact Hp|]. change (inject_Z 0) with 0%Q. lra.
Qed.

Lemma pow2_split (k e : Z) :
  e <= k -> (pow2 k == inject_Z (2 ^ (k - e)) * pow2 e)%Q.
Proof.
  intros H. rewrite <- pow2_nonneg by lia. rewrite <- pow2_add.
  replace (k - e + e) with k by lia. reflexivity.
Qed.

Lemma round_pos_le_pow2 (q : Q) (k : Z) :
  (q <= pow2 k)%Q -> fexp q <= k -> (round_pos q <= pow2 k)%Q.
Proof.
  intros Hq Hk. rewrite round_pos_unfold.
  pose proof (pow2_pos (fexp q)) as Hp.
  pose proof (pow2_split k (fexp q) Hk) as E.
  rewrite E. apply Qmult_le_compat_r; [|lra].
  apply inject_Z_le, rne_le.
  apply Qle_shift_div_r; [exact Hp|]. rewrite <- E. exact Hq.
Qed.

Lemma round_pos_ge_pow2 (q : Q) (k : Z) :
  (pow2 k <= q)%Q -> fexp q <= k -> (pow2 k <= round_pos q)%Q.
Proof.
  intros Hq Hk. rewrite round_pos_unfold.
  pose proof (pow2_pos (fexp q)) as Hp.
  pose proof (pow2_split k (fexp q) Hk) as E.
  rewrite E. apply Qmult_le_compat_r; [|lra].
  apply inject_Z_le, rne_ge.
  apply Qle_shift_div_l; [exact Hp|]. rewrite <- E. exact Hq.
Qed.

Lemma fexp_mono (q1 q2 : Q) :
  (0 < q1)%Q -> (q1 <= q2)%Q -> fexp q1 <= fexp q2.
Proof.
  intros H1 H12. unfold fexp. pose proof (ilog2_mono q1 q2 H1 H12). lia.
Qed.

Lemma round_pos_mono (q1 q2 : Q) :
  (0 < q1)%Q -> (q1 <= q2)%Q -> (round_pos q1 <= round_pos q2)%Q.
Proof.
  intros H1 H12. pose proof (fexp_mono q1 q2 H1 H12) as He.
  destruct (Z.eq_dec (fexp q1) (fexp q2)) as [E|N].
  - rewrite !round_pos_unfold, E.
    pose proof (pow2_pos (fexp q2)) as Hp.
    apply Qmult_le_compat_r; [|lra].
    apply inject_Z_le, rne_mono.
    apply Qmult_le_compat_r; [exact H12|].
    apply Qlt_le_weak, Qinv_lt_0_compat, Hp.
  - assert (H2 : (0 < q2)%Q) by lra.
    destruct (ilog2_spec q1 H1) as [_ U1].
    destruct (ilog2_spec q2 H2) as [L2 _].
    apply (Qle_trans _ (pow2 (fexp q1 + 53))).
    + apply round_pos_le_pow2; [|lia].
      apply (Qle_trans _ (pow2 (ilog2 q1 + 1))); [lra|].
      apply pow2_le. unfold fexp. lia.
    + apply (Qle_trans _ (pow2 (ilog2 q2))).
      * apply pow2_le. unfold fexp in *. lia.
      * apply round_pos_ge_pow2; [exact L2|]. unfold fexp in *. lia.
Qed.

Lemma pow2_half (e : Z) : (pow2 (e - 1) == pow2 e * (1 # 2))%Q.
Proof. unfold Z.sub. rewrite pow2_add. reflexivity. Qed.

Lemma pow2_le_inv (a b : Z) : (pow2 a <= pow2 b)%Q -> a <= b.
Proof. intros H. apply (Qpower_le_compat_l_inv (2 # 1)); [exact H | reflexivity]. Qed.

Lemma pow2_lt_inv (a b : Z) : (pow2 a < pow2 b)%Q -> a < b.
Proof. intros H. apply (Qpower_lt_compat_l_inv (2 # 1)); [exact H | reflexivity]. Qed.

Lemma scaled_eq (q : Q) (e : Z) : (q == q / pow2 e * pow2 e)%Q.
Proof. pose proof (pow2_pos e). field. lra. Qed.

Lemma scaled_nonneg (q : Q) (e : Z) : (0 <= q)%Q -> (0 <= q / pow2 e)%Q.
Proof.
  intros H. apply Qle_shift_div_l; [apply pow2_pos|]. lra.
Qed.

Lemma round_pos_zero_iff (q : Q) :
  (0 < q)%Q -> (round_pos q == 0)%Q <-> (q <= pow2 (-1075))%Q.
Proof.
  intros Hq. rewrite round_pos_unfold.
  pose proof (pow2_pos (fexp q)) as Hp.
  destruct (ilog2_spec q Hq) as [L U].
  pose proof (scaled_nonneg q (fexp q) (Qlt_le_weak _ _ Hq)) as Hx.
  pose proof (scaled_eq q (fexp q)) as Hs.
  split.
  - intros E.
    assert (Em : rne (q / pow2 (fexp q)) = 0).
    { pose proof (rne_ge 0 _ Hx) as H0.
      destruct (Z.eq_dec (rne (q / pow2 (fexp q))) 0) as [Z0|NZ]; [exact Z0|].
      exfalso.
      assert (H1 : (inject_Z 1 <= inject_Z (rne (q / pow2 (fexp q))))%Q)
        by (apply inject_Z_le; lia).
      assert (H2 : (inject_Z 1 * pow2 (fexp q)
                    <= inject_Z (rne (q / pow2 (fexp q))) * pow2 (fexp q))%Q)
        by (apply Qmult_le_compat_r; [exact H1 | lra]).
      change (inject_Z 1) with 1%Q in H2. lra. }
    apply rne_zero_iff in Em; [|exact Hx].
    assert (Hq2 : (q <= pow2 (fexp q - 1))%Q).
    { rewrite pow2_half.
      assert (H3 : (q / pow2 (fexp q) * pow2 (fexp q)
                    <= (1 # 2) * pow2 (fexp q))%Q)
        by (apply Qmult_le_compat_r; [exact Em | lra]).
      lra. }
    unfold fexp in *.
    destruct (Z.max_spec (ilog2 q - 52) (-1074)) as [[_ E1]|[_ E1]];
      rewrite E1 in *.
    + exact Hq2.
    + exfalso. assert (pow2 (ilog2 q - 52 - 1) < pow2 (ilog2 q))%Q
        by (apply pow2_lt; lia). lra.
  - intros Hle.
    assert (Hl : ilog2 q <= -1075) by (apply pow2_le_inv; lra).
    assert (He : fexp q = -1074) by (unfold fexp; lia).
    rewrite He in *.
    assert (Em : rne (q / pow2 (-1074)) = 0).
    { apply rne_zero_iff; [exact Hx|].
      apply Qle_shift_div_r; [exact Hp|].
      pose proof (pow2_half (-1074)) as Hh.
      change (-1074 - 1) with (-1075) in Hh. lra. }
    rewrite Em. change (inject_Z 0) with 0%Q. lra.
Qed.

Lemma round_pos_positive (q : Q) :
  (pow2 (-1075) < q)%Q -> (pow2 (-1074) <= round_pos q)%Q.
Proof.
  intros Hq. pose proof (pow2_pos (-1075)) as H0.
  assert (Hq0 : (0 < q)%Q) by lra.
  assert (Hn : ~ (round_pos q == 0)%Q).
  { intros E. apply round_pos_zero_iff in E; [lra | exact Hq0]. }
  rewrite round_pos_unfold in *.
  pose proof (pow2_pos (fexp q)) as Hp.
  pose proof (scaled_nonneg q (fexp q) (Qlt_le_weak _ _ Hq0)) as Hx.
  pose proof (rne_ge 0 _ Hx) as H1.
  assert (Hm : 1 <= rne (q / pow2 (fexp q))).
  { destruct (Z.eq_dec (rne (q / pow2 (fexp q))) 0) as [Z0|NZ]; [|lia].
    exfalso. apply Hn. rewrite Z0. change (inject_Z 0) with 0%Q. lra. }
  assert (H2 : (inject_Z 1 * pow2 (fexp q)
                <= inject_Z (rne (q / pow2 (fexp q))) * pow2 (fexp q))%Q)
    by (apply Qmult_le_compat_r; [apply inject_Z_le, Hm | lra]).
  change (inject_Z 1) with 1%Q in H2.
  assert (pow2 (-1074) <= pow2 (fexp q))%Q by (apply pow2_le; unfold fexp; lia).
  lra.
Qed.

(** Relative error of one rounding in the normal range. *)
Lemma round_pos_relative (q : Q) :
  (pow2 (-1022) <= q)%Q ->
  (q - q * pow2 (-53) <= round_pos q)%Q /\
  (round_pos q <= q + q * pow2 (-53))%Q.
Proof.
  intros Hq. pose proof (pow2_pos (-1022)) as H0.
  assert (Hq0 : (0 < q)%Q) by lra.
  destruct (ilog2_spec q Hq0) as [L U].
  assert (Hl : -1022 < ilog2 q + 1) by (apply pow2_lt_inv; lra).
  assert (He : fexp q = ilog2 q - 52) by (unfold fexp; lia).
  rewrite round_pos_unfold.
  pose proof (pow2_pos (fexp q)) as Hp.
  pose proof (scaled_eq q (fexp q)) as Hs.
  destruct (rne_error (q / pow2 (fexp q))) as [E1 E2].
  assert (Hh : (pow2 (fexp q) * (1 # 2) <= q * pow2 (-53))%Q).
  { rewrite <- pow2_half, He.
    replace (ilog2 q - 52 - 1) with (ilog2 q + -53) by lia.
    rewrite pow2_add. apply Qmult_le_compat_r; [exact L|].
    apply Qlt_le_weak, pow2_pos. }
  assert (M1 : ((q / pow2 (fexp q) - (1 # 2)) * pow2 (fexp q)
                <= inject_Z (rne (q / pow2 (fexp q))) * pow2 (fexp q))%Q)
    by (apply Qmult_le_compat_r; [exact E1 | lra]).
  assert (M2 : (inject_Z (rne (q / pow2 (fexp q))) * pow2 (fexp q)
                <= (q / pow2 (fexp q) + (1 # 2)) * pow2 (fexp q))%Q)
    by (apply Qmult_le_compat_r; [exact E2 | lra]).
  split; lra.
Qed.

Lemma round64_mono (q1 q2 : Q) :
  (q1 <= q2)%Q -> fle (round64 q1) (round64 q2).
Proof.
  intros H. unfold round64.
  destruct (Qcompare_spec q1 0) as [E1|L1|G1];
    destruct (Qcompare_spec q2 0) as [E2|L2|G2]; try (exfalso; lra).
  - simpl. lra.
  - pose proof (round_pos_nonneg q2 (Qlt_le_weak _ _ G2)).
    destruct (Qle_bool (pow2 1024) (round_pos q2)); simpl; [exact I | lra].
  - pose proof (round_pos_nonneg (- q1)) as N1.
    destruct (Qle_bool (pow2 1024) (round_pos (- q1))); simpl; [exact I|].
    lra.
  - assert (M : (round_pos (- q2) <= round_pos (- q1))%Q)
      by (apply round_pos_mono; lra).
    destruct (Qle_bool (pow2 1024) (round_pos (- q1))) eqn:O1;
      [exact I|].
    destruct (Qle_bool (pow2 1024) (round_pos (- q2))) eqn:O2; simpl.
    + apply Qle_bool_iff in O2.
      assert (O : Qle_bool (pow2 1024) (round_pos (- q1)) = true)
        by (apply Qle_bool_iff; lra).
      congruence.
    + lra.
  - pose proof (round_pos_nonneg (- q1)) as N1.
    pose proof (round_pos_nonneg q2) as N2.
    destruct (Qle_bool (pow2 1024) (round_pos (- q1)));
      destruct (Qle_bool (pow2 1024) (round_pos q2)); simpl; try exact I.
    lra.
  - assert (M : (round_pos q1 <= round_pos q2)%Q)
      by (apply round_pos_mono; lra).
    destruct (Qle_bool (pow2 1024) (round_pos q2)) eqn:O2.
    + destruct (Qle_bool (pow2 1024) (round_pos q1)); exact I.
    + destruct (Qle_bool (pow2 1024) (round_pos q1)) eqn:O1; simpl.
      * apply Qle_bool_iff in O1.
        assert (O : Qle_bool (pow2 1024) (round_pos q2) = true)
          by (apply Qle_bool_iff; lra).
        congruence.
      * exact M.
Qed.

(** * Order of floats *)

Lemma fcompare_spec (a b : pyfloat) :
  CompareSpec (feq a b) (flt a b) (flt b a) (fcompare a b).
Proof.
  destruct a as [|x|], b as [|y|]; simpl; try (constructor; exact I).
  destruct (Qcompare_spec x y); constructor; assumption.
Qed.

Lemma fle_refl (a : pyfloat) : fle a a.
Proof. float_cases. Qed.

Lemma feq_refl (a : pyfloat) : feq a a.
Proof. float_cases. Qed.

Lemma feq_sym (a b : pyfloat) : feq a b -> feq b a.
Proof. float_cases. Qed.

Lemma feq_fle (a b : pyfloat) : feq a b -> fle a b.
Proof. float_cases. Qed.

Lemma fle_trans (a b c : pyfloat) : fle a b -> fle b c -> fle a c.
Proof. float_cases. Qed.

Lemma flt_trans (a b c : pyfloat) : flt a b -> flt b c -> flt a c.
Proof. float_cases. Qed.

Lemma fle_flt_trans (a b c : pyfloat) : fle a b -> flt b c -> flt a c.
Proof. float_cases. Qed.

Lemma flt_fle_trans (a b c : pyfloat) : flt a b -> fle b c -> flt a c.
Proof. float_cases. Qed.

Lemma flt_fle (a b : pyfloat) : flt a b -> fle a b.
Proof. float_cases. Qed.

Lemma flt_irrefl (a : pyfloat) : ~ flt a a.
Proof. float_cases. Qed.

Lemma fle_not_flt (a b : pyfloat) : fle a b -> ~ flt b a.
Proof. float_cases. Qed.

Lemma not_flt_fle (a b : pyfloat) : ~ flt b a -> fle a b.
Proof. float_cases. Qed.

Lemma fle_antisym (a b : pyfloat) : fle a b -> fle b a -> feq a b.
Proof. float_cases. Qed.

Lemma fle_feq_trans (a b c : pyfloat) : fle a b -> feq b c -> fle a c.
Proof. float_cases. Qed.

Lemma feq_fle_trans (a b c : pyfloat) : feq a b -> fle b c -> fle a c.
Proof. float_cases. Qed.

Lemma flt_fneg (a b : pyfloat) : flt (fneg a) (fneg b) <-> flt b a.
Proof. float_cases. Qed.

Lemma feq_fneg (a b : pyfloat) : feq (fneg a) (fneg b) <-> feq a b.
Proof. float_cases. Qed.

Lemma fgtb_true (a b : pyfloat) : fgtb a b = true <-> flt b a.
Proof.
  unfold fgtb. destruct (fcompare_spec a b) as [H|H|H].
  - split; [discriminate|]. intros L. exfalso.
    apply (fle_not_flt a b); [apply feq_fle, H | exact L].
  - split; [discriminate|]. intros L. exfalso.
    apply (flt_irrefl a). apply (flt_trans _ b); assumption.
  - tauto.
Qed.

Lemma fgtb_false (a b : pyfloat) : fgtb a b = false <-> fle a b.
Proof.
  destruct (fgtb a b) eqn:E.
  - apply fgtb_true in E. split; [discriminate|].
    intros L. exfalso. apply (fle_not_flt a b L E).
  - split; [|reflexivity]. intros _. apply not_flt_fle. intros L.
    apply fgtb_true in L. congruence.
Qed.

(** * Rounding of quotients and efficiencies *)

Lemma round_pos_pow2 (k : Z) : -1074 <= k -> (round_pos (pow2 k) == pow2 k)%Q.
Proof.
  intros Hk. pose proof (pow2_pos k) as Hp.
  destruct (ilog2_spec (pow2 k) Hp) as [L _].
  apply pow2_le_inv in L.
  assert (He : fexp (pow2 k) <= k) by (unfold fexp; lia).
  apply Qle_antisym.
  - apply round_pos_le_pow2; [apply Qle_refl | exact He].
  - apply round_pos_ge_pow2; [apply Qle_refl | exact He].
Qed.

Lemma round64_positive (q : Q) :
  (0 < q)%Q -> (round_pos q < pow2 1024)%Q -> round64 q = Finite (round_pos q).
Proof.
  intros Hq Hr. unfold round64.
  rewrite (proj1 (Qgt_alt q 0) Hq).
  destruct (Qle_bool (pow2 1024) (round_pos q)) eqn:E; [|reflexivity].
  apply Qle_bool_iff in E. lra.
Qed.

Lemma round64_zero (q : Q) : (q == 0)%Q -> round64 q = Finite 0.
Proof.
  intros Hq. unfold round64. rewrite (proj1 (Qeq_alt q 0) Hq). reflexivity.
Qed.

Lemma pow2_7 : (pow2 7 == 128)%Q.
Proof. reflexivity. Qed.

Lemma pow2_1024_large : (128 <= pow2 1024)%Q.
Proof. rewrite <- pow2_7. apply pow2_le. lia. Qed.

Lemma round_pos_100 : (round_pos (inject_Z 100) == inject_Z 100)%Q.
Proof. vm_compute. reflexivity. Qed.

Lemma round_pos_1 : (round_pos 1 == 1)%Q.
Proof. apply (round_pos_pow2 0). lia. Qed.

(** The quotient of [0 < t <= r]. *)
Lemma quotient_unit (t r : Z) :
  0 < t <= r ->
  (0 < inject_Z t / inject_Z r)%Q /\ (inject_Z t / inject_Z r <= 1)%Q.
Proof.
  intros [Ht Hr].
  assert (HT : (0 < inject_Z t)%Q) by (apply (inject_Z_lt 0); lia).
  assert (HR : (0 < inject_Z r)%Q) by (apply (inject_Z_lt 0); lia).
  assert (HTR : (inject_Z t <= inject_Z r)%Q) by (apply inject_Z_le; lia).
  split.
  - apply Qlt_shift_div_l; [exact HR|]. lra.
  - apply Qle_shift_div_r; [exact HR|]. lra.
Qed.

Lemma quotient_mono (t1 t2 r : Z) :
  0 < r -> t1 <= t2 ->
  (inject_Z t1 / inject_Z r <= inject_Z t2 / inject_Z r)%Q.
Proof.
  intros Hr Ht.
  assert (HR : (0 < inject_Z r)%Q) by (apply (inject_Z_lt 0); lia).
  apply Qmult_le_compat_r; [apply inject_Z_le, Ht|].
  apply Qlt_le_weak, Qinv_lt_0_compat, HR.
Qed.

Lemma round64_unit (q : Q) :
  (0 < q)%Q -> (q <= 1)%Q ->
  round64 q = Finite (round_pos q) /\
  (0 <= round_pos q)%Q /\ (round_pos q <= 1)%Q.
Proof.
  intros H0 H1.
  assert (U : (round_pos q <= 1)%Q).
  { rewrite <- round_pos_1. apply round_pos_mono; assumption. }
  split; [|split; [apply round_pos_nonneg; lra | exact U]].
  apply round64_positive; [exact H0|].
  pose proof pow2_1024_large. lra.
Qed.

Lemma times_100_unit (a : Q) :
  (0 <= a)%Q -> (a <= 1)%Q ->
  exists v, times_100 (Finite a) = Finite v /\
            (0 <= v)%Q /\ (v <= inject_Z 100)%Q /\
            ((0 < a)%Q -> v = round_pos (a * inject_Z 100)).
Proof.
  intros H0 H1. simpl.
  destruct (Qlt_le_dec 0 a) as [Hp|Hz].
  - assert (P : (0 < a * inject_Z 100)%Q).
    { change (inject_Z 100) with 100%Q. lra. }
    assert (U : (round_pos (a * inject_Z 100) <= inject_Z 100)%Q).
    { apply (Qle_trans _ (round_pos (inject_Z 100))).
      - apply round_pos_mono; [exact P|].
        change (inject_Z 100) with 100%Q. lra.
      - rewrite round_pos_100. apply Qle_refl. }
    exists (round_pos (a * inject_Z 100)).
    split; [|split; [apply round_pos_nonneg; lra | split; [exact U | reflexivity]]].
    apply round64_positive; [exact P|].
    pose proof pow2_1024_large. change (inject_Z 100) with 100%Q in U |- *.
    lra.
  - exists 0%Q. split; [|split; [lra | split; [discriminate | lra]]].
    apply round64_zero. change (inject_Z 100) with 100%Q.
    assert (a == 0)%Q by lra. rewrite H. reflexivity.
Qed.

(** For [0 < t <= r] the division returns and the efficiency is a finite
    float between 0 and 100. *)
Lemma effv_unit (t r : Z) :
  0 < t <= r ->
  efficiency_of t r = Ok (effv t r) /\
  exists v, effv t r = Finite v /\ (0 <= v)%Q /\ (v <= inject_Z 100)%Q.
Proof.
  intros H. destruct (quotient_unit t r H) as [Q0 Q1].
  destruct (round64_unit _ Q0 Q1) as [E [A0 A1]].
  destruct (times_100_unit _ A0 A1) as [v [Ev [V0 [V1 _]]]].
  unfold efficiency_of, true_div, effv.
  assert (Hr : (r =? 0) = false) by (apply Z.eqb_neq; lia).
  rewrite Hr, E. simpl bind. split; [reflexivity|].
  exists v. auto.
Qed.

(** Whenever the efficiency is computed at all, it is [effv]. *)
Lemma efficiency_of_value (t r : Z) (e : pyfloat) :
  efficiency_of t r = Ok e -> e = effv t r.
Proof.
  unfold efficiency_of, true_div, effv.
  destruct (r =? 0); [discriminate|].
  destruct (round64 (inject_Z t / inject_Z r)); simpl; congruence.
Qed.

Lemma times_100_mono (a b : pyfloat) :
  fle a b -> fle (times_100 a) (times_100 b).
Proof.
  destruct a as [|x|], b as [|y|]; simpl; try tauto.
  - intros H. apply round64_mono. change (inject_Z 100) with 100%Q. lra.
  - intros _. destruct (round64 (x * inject_Z 100)); exact I.
Qed.

(** The computed efficiency never decreases when the total grows. *)
Lemma effv_mono (t1 t2 r : Z) :
  0 < r -> t1 <= t2 -> fle (effv t1 r) (effv t2 r).
Proof.
  intros Hr Ht. unfold effv.
  apply times_100_mono, round64_mono, quotient_mono; assumption.
Qed.

Lemma quotient_le_inv (t r p : Z) :
  0 < t -> 0 < r -> 0 < p ->
  (inject_Z t / inject_Z r <= / inject_Z p)%Q <-> t * p <= r.
Proof.
  intros Ht Hr Hp.
  assert (HT : (0 < inject_Z t)%Q) by (apply (inject_Z_lt 0); lia).
  assert (HR : (0 < inject_Z r)%Q) by (apply (inject_Z_lt 0); lia).
  assert (HP : (0 < inject_Z p)%Q) by (apply (inject_Z_lt 0); lia).
  rewrite Zle_Qle, inject_Z_mult. split.
  - intros H.
    assert (M : (inject_Z t / inject_Z r * (inject_Z r * inject_Z p)
                 <= / inject_Z p * (inject_Z r * inject_Z p))%Q).
    { apply Qmult_le_compat_r; [exact H|].
      apply Qlt_le_weak, Qmult_lt_0_compat; assumption. }
    setoid_replace (inject_Z t / inject_Z r * (inject_Z r * inject_Z p))%Q
      with (inject_Z t * inject_Z p)%Q in M by (field; lra).
    setoid_replace (/ inject_Z p * (inject_Z r * inject_Z p))%Q
      with (inject_Z r) in M by (field; lra).
    exact M.
  - intros H. apply Qle_shift_div_r; [exact HR|].
    assert (M : (inject_Z t * inject_Z p * / inject_Z p
                 <= inject_Z r * / inject_Z p)%Q).
    { apply Qmult_le_compat_r; [exact H|].
      apply Qlt_le_weak, Qinv_lt_0_compat, HP. }
    setoid_replace (inject_Z t * inject_Z p * / inject_Z p)%Q
      with (inject_Z t) in M by (field; lra).
    lra.
Qed.

Lemma pow2_neg (k : Z) : 0 <= k -> (pow2 (- k) == / inject_Z (2 ^ k))%Q.
Proof. intros H. rewrite pow2_opp, pow2_nonneg by exact H. reflexivity. Qed.

(** The computed efficiency of [0 < t <= r] is above 0 exactly when the
    quotient does not round to zero. *)
Lemma effv_positive_iff (t r : Z) :
  0 < t <= r ->
  flt (Finite (inject_Z 0)) (effv t r) <-> r < t * 2 ^ 1075.
Proof.
  intros H. destruct (quotient_unit t r H) as [Q0 Q1].
  destruct (round64_unit _ Q0 Q1) as [E [A0 A1]].
  destruct (times_100_unit _ A0 A1) as [v [Ev [V0 [V1 Vp]]]].
  unfold effv. rewrite E, Ev. simpl.
  assert (Hthr : (inject_Z t / inject_Z r <= pow2 (-1075))%Q
                 <-> t * 2 ^ 1075 <= r).
  { change (-1075) with (- (1075)). rewrite pow2_neg by lia.
    apply quotient_le_inv; first [lia | apply Z.pow_pos_nonneg; lia]. }
  pose proof (round_pos_zero_iff _ Q0) as Hz.
  destruct (Qlt_le_dec (pow2 (-1075)) (inject_Z t / inject_Z r)) as [G|L].
  - pose proof (round_pos_positive _ G) as Ha.
    pose proof (pow2_pos (-1074)) as P74.
    assert (P75 : (pow2 (-1075) < pow2 (-1074))%Q) by (apply pow2_lt; lia).
    set (a := round_pos (inject_Z t / inject_Z r)) in *.
    assert (Hpa : (0 < a)%Q) by lra.
    rewrite (Vp Hpa).
    assert (G2 : (pow2 (-1075) < a * inject_Z 100)%Q).
    { change (inject_Z 100) with 100%Q. lra. }
    pose proof (round_pos_positive _ G2) as Hv.
    split; [intros _ | intros _; change (inject_Z 0) with 0%Q; lra].
    destruct (Z_lt_le_dec r (t * 2 ^ 1075)) as [X|X]; [exact X|].
    exfalso. apply Hthr in X. lra.
  - pose proof (proj2 Hz L) as Za.
    assert (Zv : (v == 0)%Q).
    { assert (Ez : round64 (round_pos (inject_Z t / inject_Z r) * inject_Z 100)
                   = Finite 0).
      { apply round64_zero. rewrite Za. reflexivity. }
      simpl in Ev. rewrite Ez in Ev. injection Ev as <-. reflexivity. }
    split.
    + intros F. change (inject_Z 0) with 0%Q in F. lra.
    + intros X. apply Hthr in L. lia.
Qed.

Lemma pow2_m53 : (pow2 (-53) == 1 # 9007199254740992)%Q.
Proof. reflexivity. Qed.

Lemma quotient_normal (t r : Z) :
  0 < t -> 0 < r -> r <= 2 ^ 1022 ->
  (pow2 (-1022) <= inject_Z t / inject_Z r)%Q.
Proof.
  intros Ht Hr Hb.
  assert (HT : (inject_Z 1 <= inject_Z t)%Q) by (apply inject_Z_le; lia).
  assert (HR : (0 < inject_Z r)%Q) by (apply (inject_Z_lt 0); lia).
  assert (HB : (inject_Z r <= inject_Z (2 ^ 1022))%Q)
    by (apply inject_Z_le, Hb).
  assert (HP : (0 < inject_Z (2 ^ 1022))%Q)
    by (apply (inject_Z_lt 0); apply Z.pow_pos_nonneg; lia).
  change (-1022) with (- (1022)). rewrite pow2_neg by lia.
  apply Qle_shift_div_l; [exact HR|].
  apply (Qle_trans _ (/ inject_Z (2 ^ 1022) * inject_Z (2 ^ 1022))%Q).
  - apply Qmult_le_l; [apply Qinv_lt_0_compat, HP | exact HB].
  - setoid_replace (/ inject_Z (2 ^ 1022) * inject_Z (2 ^ 1022))%Q
      with 1%Q by (field; lra).
    exact HT.
Qed.

(** Two roundings in the normal range: the computed efficiency is the
    exact one up to a factor within [(1 - 2^-53)^2, (1 + 2^-53)^2]. *)
Lemma effv_bracket (t r : Z) :
  0 < t <= r -> r <= 2 ^ 1022 ->
  exists v,
    effv t r = Finite v /\
    (inject_Z t / inject_Z r
     * (100 * (1 - (1 # 9007199254740992)) * (1 - (1 # 9007199254740992)))
     <= v)%Q /\
    (v <= inject_Z t / inject_Z r
          * (100 * (1 + (1 # 9007199254740992))
             * (1 + (1 # 9007199254740992))))%Q.
Proof.
  intros H Hb. destruct (quotient_unit t r H) as [Q0 Q1].
  destruct (round64_unit _ Q0 Q1) as [E [A0 A1]].
  destruct (times_100_unit _ A0 A1) as [v [Ev [V0 [V1 Vp]]]].
  pose proof (quotient_normal t r (proj1 H) ltac:(lia) Hb) as Hn.
  destruct (round_pos_relative _ Hn) as [R1 R2].
  assert (Ha : (pow2 (-1022) <= round_pos (inject_Z t / inject_Z r))%Q).
  { rewrite <- (round_pos_pow2 (-1022)) by lia.
    apply round_pos_mono; [apply pow2_pos | exact Hn]. }
  pose proof (pow2_pos (-1022)) as P.
  set (q := (inject_Z t / inject_Z r)%Q) in *.
  set (a := round_pos q) in *.
  assert (Hpa : (0 < a)%Q) by lra.
  assert (Hn2 : (pow2 (-1022) <= a * inject_Z 100)%Q).
  { change (inject_Z 100) with 100%Q. lra. }
  destruct (round_pos_relative _ Hn2) as [S1 S2].
  exists v. unfold effv. fold q. rewrite E. fold a. split; [exact Ev|].
  rewrite (Vp Hpa). rewrite pow2_m53 in R1, R2, S1, S2.
  change (inject_Z 100) with 100%Q in *.
  set (b := round_pos (a * 100)) in *.
  split; lra.
Qed.

(** In the normal range different totals give different computed
    efficiencies, in the same order. *)
Lemma effv_strict (t1 t2 r : Z) :
  0 < t1 < t2 -> t2 <= r -> t1 <= 2 ^ 50 -> r <= 2 ^ 1022 ->
  flt (effv t1 r) (effv t2 r).
Proof.
  intros [H0 H12] H2r H50 Hb.
  destruct (effv_bracket t1 r) as [v1 [E1 [_ U1]]]; [lia | exact Hb|].
  destruct (effv_bracket t2 r) as [v2 [E2 [L2 _]]]; [lia | exact Hb|].
  rewrite E1, E2. simpl.
  assert (HR : (0 < / inject_Z r)%Q).
  { apply Qinv_lt_0_compat. apply (inject_Z_lt 0). lia. }
  assert (A1 : (0 < inject_Z t1)%Q) by (apply (inject_Z_lt 0); lia).
  assert (A2 : (inject_Z t1 + 1 <= inject_Z t2)%Q).
  { change 1%Q with (inject_Z 1). rewrite <- inject_Z_plus.
    apply inject_Z_le. lia. }
  assert (A3 : (inject_Z t1 <= 1125899906842624)%Q).
  { apply (inject_Z_le t1 (2 ^ 50)), H50. }
  assert (M : (inject_Z t1
               * (100 * (1 + (1 # 9007199254740992))
                  * (1 + (1 # 9007199254740992))) * / inject_Z r
               < inject_Z t2
                 * (100 * (1 - (1 # 9007199254740992))
                    * (1 - (1 # 9007199254740992))) * / inject_Z r)%Q).
  { apply Qmult_lt_compat_r; [exact HR|]. lra. }
  unfold Qdiv in *.
  setoid_replace (inject_Z t1 * / inject_Z r
                  * (100 * (1 + (1 # 9007199254740992))
                     * (1 + (1 # 9007199254740992))))%Q
    with (inject_Z t1
          * (100 * (1 + (1 # 9007199254740992))
             * (1 + (1 # 9007199254740992))) * / inject_Z r)%Q in U1 by ring.
  setoid_replace (inject_Z t2 * / inject_Z r
                  * (100 * (1 - (1 # 9007199254740992))
                     * (1 - (1 # 9007199254740992))))%Q
    with (inject_Z t2
          * (100 * (1 - (1 # 9007199254740992))
             * (1 - (1 # 9007199254740992))) * / inject_Z r)%Q in L2 by ring.
  lra.
Qed.

(** The computed efficiency against the exact one. *)
Lemma effv_close (t r : Z) :
  0 < t <= r -> r <= 2 ^ 1022 ->
  exists v,
    effv t r = Finite v /\
    (exact_efficiency t r - exact_efficiency t r * pow2 (-51) <= v)%Q /\
    (v <= exact_efficiency t r + exact_efficiency t r * pow2 (-51))%Q.
Proof.
  intros H Hb. destruct (effv_bracket t r H Hb) as [v [E [L U]]].
  exists v. split; [exact E|].
  destruct (quotient_unit t r H) as [Q0 _].
  assert (X : (exact_efficiency t r == 100 * (inject_Z t / inject_Z r))%Q).
  { unfold exact_efficiency. change (inject_Z 100) with 100%Q.
    unfold Qdiv. ring. }
  assert (P : (pow2 (-51) == 1 # 2251799813685248)%Q) by reflexivity.
  rewrite X, P. set (q := (inject_Z t / inject_Z r)%Q) in *.
  split; lra.
Qed.

Lemma flt_feq_trans (a b c : pyfloat) : flt a b -> feq b c -> flt a c.
Proof. float_cases. Qed.

Lemma feq_flt_trans (a b c : pyfloat) : feq a b -> flt b c -> flt a c.
Proof. float_cases. Qed.

Lemma feq_trans (a b c : pyfloat) : feq a b -> feq b c -> feq a c.
Proof. float_cases. Qed.

(** * Sorting *)

Lemma key_leb_iff (a b : pyfloat * Z) :
  key_leb a b = true <->
  flt (fst a) (fst b) \/ feq (fst a) (fst b) /\ snd a <= snd b.
Proof.
  unfold key_leb. destruct (fcompare_spec (fst a) (fst b)) as [H|H|H].
  - rewrite Z.leb_le. split; [auto|]. intros [L|[_ L]]; [|assumption].
    exfalso. apply (fle_not_flt (fst b) (fst a)); [|exact L].
    apply feq_fle, feq_sym, H.
  - split; auto.
  - split; [discriminate|]. intros [L|[E _]]; exfalso.
    + apply (flt_irrefl (fst a)). apply (flt_trans _ (fst b)); assumption.
    + apply (fle_not_flt (fst a) (fst b)); [apply feq_fle, E | exact H].
Qed.

Lemma key_leb_total (a b : pyfloat * Z) :
  key_leb a b = false -> key_leb b a = true.
Proof.
  intros H. apply key_leb_iff. unfold key_leb in H.
  destruct (fcompare_spec (fst a) (fst b)) as [E|L|L].
  - right. split; [apply feq_sym, E|]. apply Z.leb_gt in H. lia.
  - discriminate.
  - left. assumption.
Qed.

Lemma key_leb_trans (a b c : pyfloat * Z) :
  key_leb a b = true -> key_leb b c = true -> key_leb a c = true.
Proof.
  rewrite !key_leb_iff. intros [L1|[E1 Z1]] [L2|[E2 Z2]].
  - left. apply (flt_trans _ (fst b)); assumption.
  - left. apply (flt_feq_trans _ (fst b)); assumption.
  - left. apply (feq_flt_trans _ (fst b)); assumption.
  - right. split; [apply (feq_trans _ (fst b)); assumption | lia].
Qed.

Lemma insert_by_key_perm (x : cut) (l : list cut) :
  Permutation (insert_by_key x l) (x :: l).
Proof.
  induction l as [|y l IH]; simpl; [reflexivity|].
  destruct (key_leb (sort_key x) (sort_key y)); [reflexivity|].
  rewrite IH. apply perm_swap.
Qed.

Lemma list_sort_perm (l : list cut) : Permutation (list_sort l) l.
Proof.
  induction l as [|x l IH]; simpl; [reflexivity|].
  rewrite insert_by_key_perm, IH. reflexivity.
Qed.

Lemma insert_by_key_sorted (x : cut) (l : list cut) :
  StronglySorted key_le l -> StronglySorted key_le (insert_by_key x l).
Proof.
  induction 1 as [|y l Hs IH Hall]; simpl.
  - repeat constructor.
  - destruct (key_leb (sort_key x) (sort_key y)) eqn:E.
    + constructor; [constructor; assumption|].
      constructor; [exact E|].
      eapply Forall_impl; [|exact Hall]. intros z Hz.
      eapply key_leb_trans; [exact E | exact Hz].
    + constructor; [assumption|].
      eapply Permutation_Forall.
      * symmetry. apply insert_by_key_perm.
      * constructor; [apply key_leb_total, E | assumption].
Qed.

Lemma list_sort_sorted (l : list cut) : StronglySorted key_le (list_sort l).
Proof.
  induction l as [|x l IH]; simpl; [constructor|].
  apply insert_by_key_sorted, IH.
Qed.

Lemma firstn_incl {A : Type} (n : nat) (l : list A) : incl (firstn n l) l.
Proof.
  intros x Hx. rewrite <- (firstn_skipn n l). apply in_or_app. left. exact Hx.
Qed.

Lemma StronglySorted_firstn {A : Type} (R : A -> A -> Prop) (n : nat)
  (l : list A) :
  StronglySorted R l -> StronglySorted R (firstn n l).
Proof.
  revert l. induction n as [|n IH]; intros l Hs; simpl; [constructor|].
  destruct Hs as [|x l Hs Hall]; [constructor|].
  constructor; [apply IH, Hs|].
  rewrite Forall_forall in *. intros y Hy. apply Hall.
  eapply firstn_incl. exact Hy.
Qed.


Lemma sum_positive (xs : list Z) :
  xs <> [] -> (forall x, In x xs -> 0 < x) -> 0 < sum xs.
Proof.
  induction xs as [|x xs IH]; intros Hne Hpos; [congruence|].
  rewrite sum_cons. pose proof (Hpos x (or_introl eq_refl)) as Hx.
  destruct xs as [|y ys].
  - rewrite sum_nil. lia.
  - assert (0 < sum (y :: ys)); [|lia].
    apply IH; [discriminate|]. intros z Hz. apply Hpos. right. exact Hz.
Qed.

Lemma StronglySorted_weaken {A : Type} (R R' : A -> A -> Prop) (l : list A) :
  (forall a b, R a b -> R' a b) ->
  StronglySorted R l -> StronglySorted R' l.
Proof.
  intros Himp. induction 1 as [|x l Hs IH Hall]; constructor.
  - exact IH.
  - eapply Forall_impl; [|exact Hall]. intros b. apply Himp.
Qed.


Lemma key_le_ranked (a b : cut) : key_le a b -> ranked_before a b.
Proof.
  unfold key_le, ranked_before, sort_key. rewrite key_leb_iff. simpl.
  intros [L|[E W]].
  - apply (proj1 (flt_fneg _ _)) in L. split; [apply flt_fle, L|].
    intros E. exfalso.
    apply (fle_not_flt (efficiency a) (efficiency b));
      [apply feq_fle, E | exact L].
  - apply (proj1 (feq_fneg _ _)) in E. split; [apply feq_fle, feq_sym, E|].
    intros _. exact W.
Qed.

Lemma key_le_refl (x : cut) : key_le x x.
Proof.
  unfold key_le. apply key_leb_iff. right. split; [apply feq_refl | lia].
Qed.

Lemma list_sort_head (l : list cut) (top : cut) (rest : list cut) :
  list_sort l = top :: rest -> forall x, In x l -> key_le top x.
Proof.
  intros E x Hx.
  assert (Hs : StronglySorted key_le (top :: rest)).
  { rewrite <- E. apply list_sort_sorted. }
  assert (Hin : In x (top :: rest)).
  { rewrite <- E. apply (Permutation_in x (Permutation_sym (list_sort_perm l))).
    exact Hx. }
  inversion Hs as [|? ? _ Hall]; subst.
  destruct Hin as [<-|Hin]; [apply key_le_refl|].
  rewrite Forall_forall in Hall. apply Hall, Hin.
Qed.

Lemma list_sort_nonempty (l : list cut) (x : cut) :
  In x l -> exists top rest, list_sort l = top :: rest.
Proof.
  intros Hx. destruct (list_sort l) as [|top rest] eqn:E; [|eauto].
  exfalso.
  apply (Permutation_in x (Permutation_sym (list_sort_perm l))) in Hx.
  rewrite E in Hx. destruct Hx.
Qed.

(** The head of the result dominates every feasible multiset. *)

(** * [find_all_cuts]: the loops *)

Lemma available_lengths_keys (desired_cuts : dict) (k : Z) :
  In k (available_lengths_of desired_cuts) -> In k (keys desired_cuts).
Proof.
  unfold available_lengths_of, items, keys. rewrite in_map_iff.
  intros [item [<- H]]. apply filter_In in H. apply in_map, H.
Qed.

Lemma available_lengths_positive (desired_cuts : dict) (k : Z) :
  In k (available_lengths_of desired_cuts) ->
  exists q, In (k, q) desired_cuts /\ 0 < q.
Proof.
  unfold available_lengths_of, items. rewrite in_map_iff.
  intros [[k' q] [<- H]]. apply filter_In in H. destruct H as [H Hq].
  exists q. simpl in *. split; [assumption | lia].
Qed.

Lemma available_lengths_nil (desired_cuts : dict) :
  (forall k q, In (k, q) desired_cuts -> q <= 0) ->
  available_lengths_of desired_cuts = [].
Proof.
  intros H. destruct (available_lengths_of desired_cuts) as [|k l] eqn:E;
    [reflexivity|].
  destruct (available_lengths_positive desired_cuts k) as [q [Hin Hq]].
  { rewrite E. left. reflexivity. }
  specialize (H k q Hin). lia.
Qed.

(** The quantity check returns as soon as every counted length is a key. *)
Lemma check_quantities_defined (combo_count : list (Z * Z))
  (desired_cuts : dict) :
  (forall k n, In (k, n) combo_count -> In k (keys desired_cuts)) ->
  exists valid,
    check_quantities combo_count desired_cuts = Ok valid /\
    (valid = true ->
     forall k n, In (k, n) combo_count ->
                 exists q, dict_get desired_cuts k = Some q /\ n <= q).
Proof.
  induction combo_count as [|[k n] rest IH]; intros Hkeys; simpl.
  - exists true. split; [reflexivity|]. intros _ k n [].
  - destruct (dict_get_key desired_cuts k) as [q Hq].
    { apply (Hkeys k n). left. reflexivity. }
    unfold dict_index. rewrite Hq. simpl.
    destruct (n >? q) eqn:E.
    + exists false. split; [reflexivity | discriminate].
    + destruct IH as [valid [Hv Hall]].
      { intros k' n' H. apply (Hkeys k' n'). right. exact H. }
      exists valid. split; [exact Hv|].
      intros Hvalid k' n' [H|H].
      * injection H as <- <-. exists q. split; [exact Hq | lia].
      * apply Hall; assumption.
Qed.

Lemma combo_count_keys (desired_cuts : dict) (size : nat) (combo : list Z) :
  In combo
     (combinations_with_replacement (available_lengths_of desired_cuts) size)
  ->
  forall k n, In (k, n) (items (Counter combo)) -> In k (keys desired_cuts).
Proof.
  intros Hc k n H. apply Counter_items in H. destruct H as [Hin _].
  apply available_lengths_keys. apply (cwr_spec _ _ _ Hc). exact Hin.
Qed.


Lemma for_each_no_key_error {A S : Type} (body : A -> S -> exc S)
  (xs : list A) :
  (forall x s, In x xs -> no_key_error (body x s)) ->
  forall s, no_key_error (for_each xs body s).
Proof.
  induction xs as [|x xs IH]; intros Hbody s; simpl; [exact I|].
  pose proof (Hbody x s (or_introl eq_refl)) as Hx.
  destruct (body x s) as [s'|e]; simpl; [|exact Hx].
  apply IH. intros y t Hy. apply Hbody. right. exact Hy.
Qed.


Lemma try_combo_no_key_error (raw_length : Z) (desired_cuts : dict)
  (size : nat) (combo : list Z) (results : list cut) :
  In combo
     (combinations_with_replacement (available_lengths_of desired_cuts) size)
  ->
  no_key_error (try_combo raw_length desired_cuts combo results).
Proof.
  intros Hc. unfold try_combo.
  destruct (sum combo <=? raw_length); [|exact I].
  destruct (check_quantities_defined (items (Counter combo)) desired_cuts
              (combo_count_keys desired_cuts size combo Hc))
    as [valid [-> _]].
  simpl. destruct valid; [|exact I].
  unfold efficiency_of, true_div. destruct (raw_length =? 0); [exact I|].
  destruct (round64 (inject_Z (sum combo) / inject_Z raw_length)); exact I.
Qed.

Lemma find_all_cuts_no_key_error (raw_length : Z) (desired_cuts : dict) :
  no_key_error (find_all_cuts raw_length desired_cuts).
Proof.
  unfold find_all_cuts.
  destruct (available_lengths_of desired_cuts) as [|a l] eqn:Eav; [exact I|].
  rewrite <- Eav.
  pose proof (for_each_no_key_error
                (fun size results =>
                   for_each
                     (combinations_with_replacement
                        (available_lengths_of desired_cuts) size)
                     (try_combo raw_length desired_cuts) results)
                (range 1 (sum (values desired_cuts) + 1))) as H.
  match goal with
  | |- no_key_error (bind ?m _) =>
      assert (Hm : no_key_error m); [|destruct m as [r|e]; [exact I|exact Hm]]
  end.
  apply H. intros size results _.
  apply for_each_no_key_error. intros combo res Hc.
  apply (try_combo_no_key_error raw_length desired_cuts size). exact Hc.
Qed.


(** * [find_all_cuts] as a filter over the generated multisets *)

Lemma for_each_collect {A R : Type} (body : A -> list R -> exc (list R))
  (f : A -> list R) (xs : list A) :
  (forall x s, In x xs -> body x s = Ok (s ++ f x)) ->
  forall s, for_each xs body s = Ok (s ++ flat_map f xs).
Proof.
  induction xs as [|x xs IH]; intros Hbody s; simpl.
  - rewrite app_nil_r. reflexivity.
  - rewrite (Hbody x s (or_introl eq_refl)). simpl.
    rewrite IH by (intros y t Hy; apply Hbody; right; exact Hy).
    rewrite app_assoc. reflexivity.
Qed.

Lemma flat_map_keep {A B : Type} (keep : A -> bool) (f : A -> B)
  (l : list A) :
  flat_map (fun a => if keep a then [f a] else []) l
  = map f (filter keep l).
Proof.
  induction l as [|a l IH]; simpl; [reflexivity|].
  destruct (keep a); simpl; rewrite IH; reflexivity.
Qed.

Lemma check_quantities_within (desired_cuts : dict) (size : nat)
  (combo : list Z) :
  In combo
     (combinations_with_replacement (available_lengths_of desired_cuts) size)
  ->
  check_quantities (items (Counter combo)) desired_cuts
  = Ok (within_quantities desired_cuts combo).
Proof.
  intros Hc. unfold within_quantities.
  pose proof (combo_count_keys desired_cuts size combo Hc) as Hkeys.
  induction (items (Counter combo)) as [|[k n] rest IH]; simpl.
  - reflexivity.
  - destruct (dict_get_key desired_cuts k) as [q Hq].
    { apply (Hkeys k n). left. reflexivity. }
    unfold dict_index. rewrite Hq. simpl.
    destruct (n >? q); simpl; [reflexivity|].
    apply IH. intros k' n' H. apply (Hkeys k' n'). right. exact H.
Qed.


Lemma for_each_collected {A R : Type} (body : A -> list R -> exc (list R))
  (f : A -> list R) (xs : list A) :
  (forall x s s', In x xs -> body x s = Ok s' -> s' = s ++ f x) ->
  forall s s', for_each xs body s = Ok s' -> s' = s ++ flat_map f xs.
Proof.
  induction xs as [|x xs IH]; intros Hbody s s'; simpl.
  - intros [= <-]. rewrite app_nil_r. reflexivity.
  - destruct (body x s) as [s1|e] eqn:E; simpl; [|discriminate].
    intros H. rewrite (Hbody x s s1 (or_introl eq_refl) E) in H.
    apply IH in H; [|intros y t t' Hy; apply Hbody; right; exact Hy].
    rewrite H, app_assoc. reflexivity.
Qed.

(** What one round of the inner loop appends, when it returns. *)
Lemma try_combo_value (raw_length : Z) (desired_cuts : dict) (size : nat)
  (combo : list Z) (results results' : list cut) :
  In combo
     (combinations_with_replacement (available_lengths_of desired_cuts) size)
  ->
  try_combo raw_length desired_cuts combo results = Ok results' ->
  results' = results ++ if accepted raw_length desired_cuts combo
                        then [entry raw_length combo] else [].
Proof.
  intros Hc. unfold try_combo, accepted, fits.
  destruct (sum combo <=? raw_length); simpl.
  - rewrite (check_quantities_within desired_cuts size combo Hc). simpl.
    destruct (within_quantities desired_cuts combo); simpl.
    + destruct (efficiency_of (sum combo) raw_length) as [e|err] eqn:E;
        simpl; [|discriminate].
      apply efficiency_of_value in E. subst e. intros [= <-]. reflexivity.
    + intros [= <-]. rewrite app_nil_r. reflexivity.
  - intros [= <-]. rewrite app_nil_r. reflexivity.
Qed.

(** One round of the inner loop when the division returns. *)
Lemma try_combo_accepted (raw_length : Z) (desired_cuts : dict) (size : nat)
  (combo : list Z) (results : list cut) :
  In combo
     (combinations_with_replacement (available_lengths_of desired_cuts) size)
  ->
  (accepted raw_length desired_cuts combo = true ->
   efficiency_of (sum combo) raw_length = Ok (eff raw_length combo)) ->
  try_combo raw_length desired_cuts combo results
  = Ok (results ++ if accepted raw_length desired_cuts combo
                   then [entry raw_length combo] else []).
Proof.
  intros Hc Hdiv. unfold try_combo, accepted, fits in *.
  destruct (sum combo <=? raw_length); simpl.
  - rewrite (check_quantities_within desired_cuts size combo Hc). simpl.
    destruct (within_quantities desired_cuts combo); simpl.
    + rewrite Hdiv by reflexivity. reflexivity.
    + rewrite app_nil_r. reflexivity.
  - rewrite app_nil_r. reflexivity.
Qed.

Lemma generated_spec (desired_cuts : dict) (combo : list Z) :
  In combo (generated desired_cuts) <->
  exists size,
    (1 <= size)%nat /\ Z.of_nat size <= sum (values desired_cuts) /\
    In combo
       (combinations_with_replacement
          (available_lengths_of desired_cuts) size).
Proof.
  unfold generated. rewrite in_concat. split.
  - intros [l [Hl Hc]]. apply in_map_iff in Hl.
    destruct Hl as [size [<- Hs]]. exists size.
    unfold range in Hs. apply in_seq in Hs.
    change (Z.to_nat 1) with 1%nat in Hs.
    split; [lia|]. split; [lia | exact Hc].
  - intros [size [H1 [H2 Hc]]]. eexists. split; [|exact Hc].
    apply in_map. unfold range. apply in_seq.
    change (Z.to_nat 1) with 1%nat. lia.
Qed.

Lemma generated_nonempty (desired_cuts : dict) (combo : list Z) :
  In combo (generated desired_cuts) ->
  combo <> [] /\ incl combo (available_lengths_of desired_cuts).
Proof.
  intros H. apply generated_spec in H. destruct H as [size [H1 [_ Hc]]].
  destruct (cwr_spec _ _ _ Hc) as [Hlen Hincl]. split; [|exact Hincl].
  intros ->. simpl in Hlen. lia.
Qed.

(** Whenever no kept multiset meets a zero raw length, [find_all_cuts]
    returns the five best entries of the kept multisets. *)

Lemma nothing_generated (raw_length : Z) (desired_cuts : dict) :
  available_lengths_of desired_cuts = [] ->
  filter (accepted raw_length desired_cuts) (generated desired_cuts) = [].
Proof.
  intros Eav. destruct (filter _ _) as [|c cs] eqn:E; [reflexivity|].
  assert (H : In c (filter (accepted raw_length desired_cuts)
                           (generated desired_cuts))).
  { rewrite E. left. reflexivity. }
  apply filter_In in H. destruct H as [H _].
  destruct (generated_nonempty _ _ H) as [Hne Hincl].
  rewrite Eav in Hincl. destruct c as [|x c]; [congruence|].
  destruct (Hincl x (or_introl eq_refl)).
Qed.

(** Whenever [find_all_cuts] returns, it returns the five best entries of
    the kept multisets. *)
Lemma find_all_cuts_value (raw_length : Z) (desired_cuts : dict)
  (results : list cut) :
  find_all_cuts raw_length desired_cuts = Ok results ->
  results
  = firstn 5
      (list_sort
         (map (entry raw_length)
              (filter (accepted raw_length desired_cuts)
                      (generated desired_cuts)))).
Proof.
  unfold find_all_cuts.
  destruct (available_lengths_of desired_cuts) as [|a l] eqn:Eav.
  - intros [= <-]. rewrite (nothing_generated _ _ Eav). reflexivity.
  - rewrite <- Eav. rewrite for_each_nested.
    fold (generated desired_cuts).
    destruct (for_each (generated desired_cuts)
                (try_combo raw_length desired_cuts) [])
      as [collected|err] eqn:E; simpl; [|discriminate].
    intros [= <-].
    apply (for_each_collected _
             (fun combo => if accepted raw_length desired_cuts combo
                           then [entry raw_length combo] else [])) in E.
    + simpl app in E. rewrite flat_map_keep in E. rewrite E. reflexivity.
    + intros combo s s' Hc. apply generated_spec in Hc.
      destruct Hc as [size [_ [_ Hc]]].
      apply (try_combo_value raw_length desired_cuts size). exact Hc.
Qed.

(** Whenever the division returns for every kept multiset,
    [find_all_cuts] returns. *)
Lemma find_all_cuts_filter (raw_length : Z) (desired_cuts : dict) :
  (forall combo, In combo (generated desired_cuts) ->
                 accepted raw_length desired_cuts combo = true ->
                 efficiency_of (sum combo) raw_length
                 = Ok (eff raw_length combo)) ->
  find_all_cuts raw_length desired_cuts
  = Ok (firstn 5
          (list_sort
             (map (entry raw_length)
                  (filter (accepted raw_length desired_cuts)
                          (generated desired_cuts))))).
Proof.
  intros Hdiv. unfold find_all_cuts.
  destruct (available_lengths_of desired_cuts) as [|a l] eqn:Eav.
  - rewrite (nothing_generated _ _ Eav). reflexivity.
  - rewrite <- Eav. rewrite for_each_nested.
    fold (generated desired_cuts).
    rewrite (for_each_collect _
               (fun combo => if accepted raw_length desired_cuts combo
                             then [entry raw_length combo] else [])).
    + simpl app. rewrite flat_map_keep. reflexivity.
    + intros combo s Hc. pose proof Hc as Hg.
      apply generated_spec in Hc. destruct Hc as [size [_ [_ Hc]]].
      apply (try_combo_accepted raw_length desired_cuts size); [exact Hc|].
      apply Hdiv, Hg.
Qed.

Lemma sum_permutation (xs ys : list Z) :
  Permutation xs ys -> sum xs = sum ys.
Proof.
  induction 1 as [|x l l' _ IH|x y l|l l' l'' _ IH1 _ IH2].
  - reflexivity.
  - rewrite !sum_cons, IH. reflexivity.
  - rewrite !sum_cons. lia.
  - congruence.
Qed.

Lemma occurrences_permutation (k : Z) (xs ys : list Z) :
  Permutation xs ys -> occurrences k xs = occurrences k ys.
Proof.
  intros H. unfold occurrences. f_equal.
  apply (Permutation_count_occ Z.eq_dec); exact H.
Qed.

Lemma sum_nonneg_bound (xs : list Z) (x : Z) :
  (forall y, In y xs -> 0 <= y) -> In x xs -> x <= sum xs.
Proof.
  induction xs as [|y ys IH]; intros Hpos Hin; [destruct Hin|].
  rewrite sum_cons.
  assert (H0 : 0 <= sum ys).
  { clear IH Hin. induction ys as [|z zs IHz].
    - rewrite sum_nil. lia.
    - rewrite sum_cons.
      assert (0 <= z) by (apply Hpos; right; left; reflexivity).
      assert (0 <= sum zs); [|lia].
      apply IHz. intros w [<-|Hw]; apply Hpos;
        [left; reflexivity | right; right; exact Hw]. }
  destruct Hin as [<-|Hin]; [lia|].
  assert (0 <= y) by (apply Hpos; left; reflexivity).
  assert (x <= sum ys); [|lia].
  apply IH; [|exact Hin]. intros z Hz. apply Hpos. right. exact Hz.
Qed.


(** With positive lengths a kept multiset has [0 < total <= raw]. *)
Lemma accepted_unit (raw_length : Z) (desired_cuts : dict) (combo : list Z) :
  (forall k, In k (keys desired_cuts) -> 0 < k) ->
  In combo (generated desired_cuts) ->
  accepted raw_length desired_cuts combo = true ->
  0 < sum combo <= raw_length.
Proof.
  intros Hpos Hg Hacc. unfold accepted, fits in Hacc.
  apply andb_prop in Hacc. destruct Hacc as [Hfit _].
  apply Z.leb_le in Hfit.
  destruct (generated_nonempty _ _ Hg) as [Hne Hincl].
  split; [|exact Hfit].
  apply sum_positive; [exact Hne|].
  intros x Hx. apply Hpos, available_lengths_keys, Hincl, Hx.
Qed.

Lemma accepted_positive_raw (raw_length : Z) (desired_cuts : dict)
  (combo : list Z) :
  (forall k, In k (keys desired_cuts) -> 0 < k) ->
  In combo (generated desired_cuts) ->
  accepted raw_length desired_cuts combo = true ->
  0 < raw_length.
Proof.
  intros Hpos Hg Hacc.
  pose proof (accepted_unit _ _ _ Hpos Hg Hacc). lia.
Qed.

(** With positive lengths [find_all_cuts] returns: no kept multiset meets a
    zero divisor or a quotient outside (0, 1]. *)
Lemma find_all_cuts_positive (raw_length : Z) (desired_cuts : dict) :
  (forall k, In k (keys desired_cuts) -> 0 < k) ->
  find_all_cuts raw_length desired_cuts
  = Ok (firstn 5
          (list_sort
             (map (entry raw_length)
                  (filter (accepted raw_length desired_cuts)
                          (generated desired_cuts))))).
Proof.
  intros Hpos. apply find_all_cuts_filter. intros combo Hg Hacc.
  apply effv_unit. apply (accepted_unit _ _ _ Hpos Hg Hacc).
Qed.

Lemma returns_for_positive_lengths (raw_length : Z) (desired_cuts : dict) :
  (forall k, In k (keys desired_cuts) -> 0 < k) ->
  exists results,
    find_all_cuts raw_length desired_cuts = Ok results /\
    (raw_length <= 0 -> results = []).
Proof.
  intros Hpos. eexists. split.
  - apply find_all_cuts_positive, Hpos.
  - intros Hraw.
    destruct (filter (accepted raw_length desired_cuts)
                     (generated desired_cuts)) as [|c cs] eqn:E;
      [reflexivity|].
    assert (H : In c (filter (accepted raw_length desired_cuts)
                             (generated desired_cuts))).
    { rewrite E. left. reflexivity. }
    apply filter_In in H. destruct H as [Hg Hacc].
    pose proof (accepted_positive_raw _ _ _ Hpos Hg Hacc). lia.
Qed.


Lemma within_quantities_true (desired_cuts : dict) (combo : list Z) :
  within_quantities desired_cuts combo = true <->
  forall k, In k combo ->
            exists q, dict_get desired_cuts k = Some q /\
                      occurrences k combo <= q.
Proof.
  unfold within_quantities. rewrite forallb_forall. split.
  - intros H k Hk.
    specialize (H (k, occurrences k combo)).
    cbn [fst snd] in H.
    destruct (dict_get desired_cuts k) as [q|].
    + exists q. split; [reflexivity|].
      assert (E : negb (occurrences k combo >? q) = true).
      { apply H. apply Counter_items. auto. }
      apply negb_true_iff in E. lia.
    + assert (E : false = true) by (apply H; apply Counter_items; auto).
      discriminate.
  - intros H [k n] Hi. apply Counter_items in Hi. destruct Hi as [Hk ->].
    cbn [fst snd]. destruct (H k Hk) as [q [-> Hq]].
    apply negb_true_iff. lia.
Qed.


Lemma occurrences_app (k : Z) (xs ys : list Z) :
  occurrences k (xs ++ ys) = occurrences k xs + occurrences k ys.
Proof.
  unfold occurrences. rewrite count_occ_app. lia.
Qed.

Lemma occurrences_repeat (x : Z) (n : nat) :
  occurrences x (repeat x n) = Z.of_nat n.
Proof.
  unfold occurrences. rewrite count_occ_repeat_eq; reflexivity.
Qed.

Lemma occurrences_absent (k : Z) (xs : list Z) :
  ~ In k xs -> occurrences k xs = 0.
Proof.
  intros H. pose proof (occurrences_nonneg k xs).
  destruct (Z.eq_dec (occurrences k xs) 0); [assumption|].
  exfalso. apply H, occurrences_pos. lia.
Qed.


(** What every returned entry is. *)
Lemma results_are_entries (raw_length : Z) (desired_cuts : dict)
  (results : list cut) (r : cut) :
  find_all_cuts raw_length desired_cuts = Ok results ->
  In r results ->
  exists c, r = entry raw_length c /\ In c (generated desired_cuts) /\
            accepted raw_length desired_cuts c = true.
Proof.
  intros E H. rewrite (find_all_cuts_value _ _ _ E) in H.
  apply firstn_incl in H.
  apply (Permutation_in r (list_sort_perm _)) in H.
  apply in_map_iff in H. destruct H as [c [<- Hc]].
  apply filter_In in Hc. exists c. tauto.
Qed.

Lemma results_sorted (raw_length : Z) (desired_cuts : dict)
  (results : list cut) :
  find_all_cuts raw_length desired_cuts = Ok results ->
  StronglySorted key_le results /\ (length results <= 5)%nat.
Proof.
  intros E. rewrite (find_all_cuts_value _ _ _ E). split.
  - apply StronglySorted_firstn, list_sort_sorted.
  - apply firstn_le_length.
Qed.

Lemma accepted_spec (raw_length : Z) (desired_cuts : dict) (c : list Z) :
  In c (generated desired_cuts) ->
  accepted raw_length desired_cuts c = true ->
  c <> [] /\ incl c (available_lengths_of desired_cuts) /\
  sum c <= raw_length /\
  forall k, In k c ->
            exists q, dict_get desired_cuts k = Some q /\
                      occurrences k c <= q.
Proof.
  intros Hg Hacc. destruct (generated_nonempty _ _ Hg) as [Hne Hincl].
  unfold accepted, fits in Hacc. apply andb_prop in Hacc.
  destruct Hacc as [Hfit Hw]. apply Z.leb_le in Hfit.
  repeat split; try assumption. apply within_quantities_true, Hw.
Qed.

(** * Properties of [find_all_cuts] *)

(** C1. For a positive raw length and non-negative desired quantities,
    every combination [find_all_cuts] returns fits the raw length and uses
    no length more often than the desired quantity of that length, and
    every length it uses is a key of the desired mapping; with positive
    lengths [find_all_cuts] does return. *)
Theorem find_all_cuts_respects_constraints
  (raw_length : Z) (desired_cuts : dict) :
  0 < raw_length ->
  (forall k q, In (k, q) desired_cuts -> 0 <= q) ->
  (forall results,
      find_all_cuts raw_length desired_cuts = Ok results ->
      forall r, In r results ->
        sum (combination r) <= raw_length /\
        (forall k, In k (combination r) -> In k (keys desired_cuts)) /\
        (forall k q, dict_get desired_cuts k = Some q ->
                     occurrences k (combination r) <= q)) /\
  ((forall k, In k (keys desired_cuts) -> 0 < k) ->
   exists results, find_all_cuts raw_length desired_cuts = Ok results).
Proof.
  intros Hraw Hnonneg. split.
  - intros results E r Hr.
    destruct (results_are_entries _ _ _ _ E Hr) as [c [-> [Hg Hacc]]].
    destruct (accepted_spec _ _ _ Hg Hacc) as [_ [Hincl [Hfit Hq]]].
    cbn [entry combination]. split; [exact Hfit|]. split.
    + intros k Hk. apply available_lengths_keys, Hincl, Hk.
    + intros k q Hget.
      destruct (in_dec Z.eq_dec k c) as [Hin|Hout].
      * destruct (Hq k Hin) as [q' [Hget' Hle]]. congruence.
      * rewrite (occurrences_absent _ _ Hout).
        apply dict_get_some_in in Hget. apply (Hnonneg k q Hget).
  - intros Hpos. eexists. apply find_all_cuts_positive, Hpos.
Qed.

Lemma find_all_cuts_respects_constraints_witness :
  (forall results,
      find_all_cuts 6000 [(3000, 2); (2515, 0)] = Ok results ->
      forall r, In r results ->
        sum (combination r) <= 6000 /\
        (forall k, In k (combination r) ->
                   In k (keys [(3000, 2); (2515, 0)])) /\
        (forall k q, dict_get [(3000, 2); (2515, 0)] k = Some q ->
                     occurrences k (combination r) <= q)) /\
  ((forall k, In k (keys [(3000, 2); (2515, 0)]) -> 0 < k) ->
   exists results, find_all_cuts 6000 [(3000, 2); (2515, 0)] = Ok results).
Proof.
  apply (find_all_cuts_respects_constraints 6000 [(3000, 2); (2515, 0)]).
  - lia.
  - intros k q [H|[H|[]]]; injection H as <- <-; lia.
Defined.

(** C2. Whatever [find_all_cuts] returns for a positive raw length has at
    most 5 entries, best first: along the result efficiency never
    increases, and of two entries with equal efficiency the earlier wastes
    no more; with positive lengths [find_all_cuts] does return. *)
Theorem find_all_cuts_top5_sorted (raw_length : Z) (desired_cuts : dict) :
  0 < raw_length ->
  (forall results,
      find_all_cuts raw_length desired_cuts = Ok results ->
      (length results <= 5)%nat /\
      StronglySorted ranked_before results) /\
  ((forall k, In k (keys desired_cuts) -> 0 < k) ->
   exists results, find_all_cuts raw_length desired_cuts = Ok results).
Proof.
  intros Hraw. split.
  - intros results E. destruct (results_sorted _ _ _ E) as [Hs Hl].
    split; [exact Hl|].
    apply (StronglySorted_weaken key_le); [apply key_le_ranked | exact Hs].
  - intros Hpos. eexists. apply find_all_cuts_positive, Hpos.
Qed.

Lemma find_all_cuts_top5_sorted_witness :
  (forall results,
      find_all_cuts 6000 [(3000, 2); (1025, 3)] = Ok results ->
      (length results <= 5)%nat /\
      StronglySorted ranked_before results) /\
  ((forall k, In k (keys [(3000, 2); (1025, 3)]) -> 0 < k) ->
   exists results, find_all_cuts 6000 [(3000, 2); (1025, 3)] = Ok results).
Proof.
  apply (find_all_cuts_top5_sorted 6000 [(3000, 2); (1025, 3)]). lia.
Defined.

(** C3, as the spec states it: efficiency equal to 100 * total / raw.  The
    efficiency is a binary64 float; for three pieces of 1025 out of 6000
    the quotient 0.5125 is rounded, and the product is 51.24999999999999,
    not 51.25. *)
Lemma find_all_cuts_efficiency_not_exact :
  exists results r,
    find_all_cuts 6000 [(1025, 3)] = Ok results /\
    In r results /\
    total_length r = 3075 /\
    ~ feq (efficiency r) (Finite (exact_efficiency (total_length r) 6000)).
Proof.
  eexists. eexists. split; [vm_compute; reflexivity|].
  split; [left; reflexivity|]. split; [reflexivity|].
  intros H. vm_compute in H. discriminate H.
Qed.

(** C3 (amended). For a positive raw length and a desired mapping whose
    lengths are all positive, [find_all_cuts] returns, and every returned
    entry has [total_length] the sum of its pieces, [waste = raw_length -
    total_length >= 0], [pieces] the number of pieces, and as [efficiency]
    the binary64 result of [(total_length / raw_length) * 100]: a finite
    float in [0, 100], above 0 exactly when [raw_length < total_length *
    2^1075], and for [raw_length <= 2^1022] within a relative error of
    [2^-51] of the exact [100 * total_length / raw_length]. *)
Theorem find_all_cuts_scores (raw_length : Z) (desired_cuts : dict) :
  0 < raw_length ->
  (forall k, In k (keys desired_cuts) -> 0 < k) ->
  exists results,
    find_all_cuts raw_length desired_cuts = Ok results /\
    forall r, In r results ->
      total_length r = sum (combination r) /\
      waste r = raw_length - total_length r /\
      0 <= waste r /\
      pieces r = len (combination r) /\
      efficiency_of (total_length r) raw_length = Ok (efficiency r) /\
      exists v,
        efficiency r = Finite v /\
        (0 <= v)%Q /\ (v <= inject_Z 100)%Q /\
        ((0 < v)%Q <-> raw_length < total_length r * 2 ^ 1075) /\
        (raw_length <= 2 ^ 1022 ->
         (exact_efficiency (total_length r) raw_length
          - exact_efficiency (total_length r) raw_length * pow2 (-51)
          <= v)%Q /\
         (v <= exact_efficiency (total_length r) raw_length
               + exact_efficiency (total_length r) raw_length
                 * pow2 (-51))%Q).
Proof.
  intros Hraw Hpos. eexists. split; [apply find_all_cuts_positive, Hpos|].
  intros r Hr.
  destruct (results_are_entries _ _ _ _ (find_all_cuts_positive _ _ Hpos) Hr)
    as [c [-> [Hg Hacc]]].
  pose proof (accepted_unit _ _ _ Hpos Hg Hacc) as Hu.
  cbn [entry combination total_length waste pieces efficiency].
  split; [reflexivity|]. split; [reflexivity|]. split; [lia|].
  split; [reflexivity|].
  destruct (effv_unit _ _ Hu) as [Ediv [v [Ev [V0 V1]]]].
  split; [exact Ediv|]. unfold eff. exists v.
  split; [exact Ev|]. split; [exact V0|]. split; [exact V1|]. split.
  - pose proof (effv_positive_iff _ _ Hu) as Hp. rewrite Ev in Hp.
    exact Hp.
  - intros Hb. destruct (effv_close _ _ Hu Hb) as [v' [Ev' Hc]].
    rewrite Ev in Ev'. injection Ev' as <-. exact Hc.
Qed.

Lemma find_all_cuts_scores_witness :
  exists results,
    find_all_cuts 1000 [(515, 1); (1025, 1)] = Ok results /\
    forall r, In r results ->
      total_length r = sum (combination r) /\
      waste r = 1000 - total_length r /\
      0 <= waste r /\
      pieces r = len (combination r) /\
      efficiency_of (total_length r) 1000 = Ok (efficiency r) /\
      exists v,
        efficiency r = Finite v /\
        (0 <= v)%Q /\ (v <= inject_Z 100)%Q /\
        ((0 < v)%Q <-> 1000 < total_length r * 2 ^ 1075) /\
        (1000 <= 2 ^ 1022 ->
         (exact_efficiency (total_length r) 1000
          - exact_efficiency (total_length r) 1000 * pow2 (-51)
          <= v)%Q /\
         (v <= exact_efficiency (total_length r) 1000
               + exact_efficiency (total_length r) 1000 * pow2 (-51))%Q).
Proof.
  apply (find_all_cuts_scores 1000 [(515, 1); (1025, 1)]).
  - lia.
  - intros k [<-|[<-|[]]]; simpl; lia.
Defined.

(** C4, as the spec states it: a single result.  The search also keeps the
    one-piece combination [(3000,)], so the result has two entries. *)
Lemma find_all_cuts_example_not_single :
  ~ exists r, find_all_cuts 6000 [(3000, 2)] = Ok [r].
Proof.
  intros [r H]. vm_compute in H. discriminate H.
Qed.

(** C4 (amended). [find_all_cuts 6000 {3000: 2}] returns two results: first
    [(3000, 3000)] with total length 6000, waste 0, efficiency 100 and 2
    pieces, then [(3000,)] with total length 3000, waste 3000, efficiency
    50 and 1 piece. *)
Theorem find_all_cuts_example :
  exists r1 r2,
    find_all_cuts 6000 [(3000, 2)] = Ok [r1; r2] /\
    combination r1 = [3000; 3000] /\ total_length r1 = 6000 /\
    waste r1 = 0 /\ feq (efficiency r1) (Finite (inject_Z 100)) /\
    pieces r1 = 2 /\
    combination r2 = [3000] /\ total_length r2 = 3000 /\
    waste r2 = 3000 /\ feq (efficiency r2) (Finite (inject_Z 50)) /\
    pieces r2 = 1.
Proof.
  do 2 eexists. split; [vm_compute; reflexivity|].
  simpl. repeat split; reflexivity.
Qed.

(** C8. Whenever no length of the desired mapping has a positive quantity
    (the empty mapping, an all-zero mapping), [find_all_cuts] returns the
    empty list, for every raw length, without raising. *)
Theorem find_all_cuts_nothing_desired (raw_length : Z) (desired_cuts : dict) :
  (forall k q, In (k, q) desired_cuts -> q <= 0) ->
  find_all_cuts raw_length desired_cuts = Ok [].
Proof.
  intros H. unfold find_all_cuts.
  rewrite (available_lengths_nil desired_cuts H). reflexivity.
Qed.

Lemma find_all_cuts_nothing_desired_witness :
  find_all_cuts 6000 [] = Ok [] /\
  find_all_cuts 6000 (map (fun x => (x, 0)) CUT_LENGTHS) = Ok [].
Proof.
  split.
  - apply (find_all_cuts_nothing_desired 6000 []). intros k q [].
  - apply (find_all_cuts_nothing_desired 6000
             (map (fun x => (x, 0)) CUT_LENGTHS)).
    intros k q H. apply in_map_iff in H. destruct H as [x [E _]].
    injection E as _ <-. lia.
Defined.


(** C10. The quantity lookup of the validity check is always defined:
    for every generated multiset the check runs to a verdict, every length
    the check looks up is a key of the desired mapping, and
    [find_all_cuts] as a whole either returns or stops on the division
    (a zero divisor, or a quotient too large for a float), never on a
    missing key. *)
Theorem find_all_cuts_lookup_defined (raw_length : Z) (desired_cuts : dict) :
  (forall size,
      Forall
        (fun combo =>
           Forall (fun k => exists q, dict_index desired_cuts k = Ok q)
                  (keys (Counter combo)) /\
           exists valid,
             check_quantities (items (Counter combo)) desired_cuts = Ok valid)
        (combinations_with_replacement
           (available_lengths_of desired_cuts) size)) /\
  ((exists results, find_all_cuts raw_length desired_cuts = Ok results) \/
   find_all_cuts raw_length desired_cuts = Raise ZeroDivisionError \/
   find_all_cuts raw_length desired_cuts = Raise OverflowError).
Proof.
  split.
  - intros size. apply Forall_forall. intros combo Hc. split.
    + apply Forall_forall. intros k Hk.
      apply (proj1 (Counter_keys combo k)) in Hk.
      destruct (dict_get_key desired_cuts k) as [q Hq].
      { apply available_lengths_keys. apply (cwr_spec _ _ _ Hc). exact Hk. }
      exists q. unfold dict_index. rewrite Hq. reflexivity.
    + destruct (check_quantities_defined (items (Counter combo)) desired_cuts
                  (combo_count_keys desired_cuts size combo Hc))
        as [valid [Hv _]].
      exists valid. exact Hv.
  - pose proof (find_all_cuts_no_key_error raw_length desired_cuts) as H.
    destruct (find_all_cuts raw_length desired_cuts) as [results|[| |]].
    + left. exists results. reflexivity.
    + destruct H.
    + right. left. reflexivity.
    + right. right. reflexivity.
Qed.

(** * Quantities of a multiset over the catalog *)

Lemma CUT_LENGTHS_nodup : NoDup CUT_LENGTHS.
Proof.
  unfold CUT_LENGTHS.
  repeat (constructor; [simpl; intros H; repeat destruct H as [H|H]; lia|]).
  constructor.
Qed.

Lemma CUT_LENGTHS_lower : forall x, In x CUT_LENGTHS -> 515 <= x.
Proof.
  unfold CUT_LENGTHS. intros x H. simpl in H.
  repeat destruct H as [H|H]; lia.
Qed.

Lemma keys_quantities_of (combo : list Z) :
  keys (quantities_of combo) = CUT_LENGTHS.
Proof.
  unfold keys, quantities_of. rewrite map_map. cbn [fst snd]. apply map_id.
Qed.

Lemma all_zero_quantities : all_zero = quantities_of [].
Proof. reflexivity. Qed.

Lemma set_items_keys (cc : list (Z * Z)) (d : dict) :
  (forall item, In item cc -> In (fst item) (keys d)) ->
  keys (fold_left (fun d item => dict_set d (fst item) (snd item)) cc d)
  = keys d.
Proof.
  revert d. induction cc as [|[a v] cc IH]; intros d H; simpl; [reflexivity|].
  assert (Ha : In a (keys d)) by (apply (H (a, v)); left; reflexivity).
  rewrite IH.
  - apply keys_dict_set_in, Ha.
  - intros item Hi. rewrite keys_dict_set_in by exact Ha.
    apply H. right. exact Hi.
Qed.

Lemma set_items_get (cc : list (Z * Z)) (d : dict) (k : Z) :
  NoDup (keys cc) ->
  dict_get (fold_left (fun d item => dict_set d (fst item) (snd item)) cc d) k
  = match dict_get cc k with
    | Some v => Some v
    | None => dict_get d k
    end.
Proof.
  revert d. induction cc as [|[a v] cc IH]; intros d Hnd; simpl;
    [reflexivity|].
  inversion Hnd as [|? ? Hnotin Hnd']; subst.
  rewrite (IH _ Hnd'), dict_get_set.
  destruct (a =? k) eqn:E; [|reflexivity].
  apply Z.eqb_eq in E. subst a.
  apply dict_get_none in Hnotin. rewrite Hnotin. reflexivity.
Qed.

Lemma dict_get_quantities_of (combo : list Z) (k : Z) :
  In k CUT_LENGTHS ->
  dict_get (quantities_of combo) k = Some (occurrences k combo).
Proof.
  intros Hk. apply dict_get_unique.
  - rewrite keys_quantities_of. apply CUT_LENGTHS_nodup.
  - unfold quantities_of.
    apply (in_map (fun k => (k, occurrences k combo))), Hk.
Qed.

Lemma to_quantities_none : to_quantities None = all_zero.
Proof. reflexivity. Qed.

Lemma to_quantities_some (combo : list Z) :
  combo <> [] -> incl combo CUT_LENGTHS ->
  to_quantities (Some combo) = quantities_of combo.
Proof.
  intros Hne Hincl. destruct combo as [|x c]; [congruence|].
  unfold to_quantities.
  change (fold_left (fun d length => dict_set d length 0) CUT_LENGTHS [])
    with (quantities_of []).
  set (m := fold_left _ _ _).
  assert (Hkeys : keys m = CUT_LENGTHS).
  { unfold m. rewrite set_items_keys; [apply keys_quantities_of|].
    intros [k n] Hi. apply Counter_items in Hi. cbn [fst].
    rewrite keys_quantities_of. apply Hincl, Hi. }
  rewrite (dict_ext m (fun k => occurrences k (x :: c))).
  - rewrite Hkeys. reflexivity.
  - rewrite Hkeys. apply CUT_LENGTHS_nodup.
  - intros k Hk. rewrite Hkeys in Hk. unfold m.
    rewrite set_items_get by apply Counter_nodup.
    unfold items. rewrite Counter_get.
    destruct (occurrences k (x :: c) =? 0) eqn:E; [|reflexivity].
    apply Z.eqb_eq in E. rewrite E.
    rewrite dict_get_quantities_of by exact Hk. reflexivity.
Qed.

(** Weighted sums of counts. *)

Lemma sum_map_add {A : Type} (f g : A -> Z) (l : list A) :
  sum (map (fun a => f a + g a) l) = sum (map f l) + sum (map g l).
Proof.
  induction l as [|a l IH]; simpl map.
  - rewrite !sum_nil. lia.
  - rewrite !sum_cons, IH. lia.
Qed.

Lemma sum_map_ext {A : Type} (f g : A -> Z) (l : list A) :
  (forall a, In a l -> f a = g a) -> sum (map f l) = sum (map g l).
Proof.
  intros H. f_equal. apply map_ext_in, H.
Qed.

Lemma sum_map_zero {A : Type} (l : list A) : sum (map (fun _ => 0) l) = 0.
Proof.
  induction l as [|a l IH]; simpl map; [reflexivity|].
  rewrite sum_cons, IH. reflexivity.
Qed.

Lemma sum_indicator (w : Z -> Z) (x : Z) (K : list Z) :
  NoDup K ->
  sum (map (fun k => w k * (if x =? k then 1 else 0)) K)
  = if in_dec Z.eq_dec x K then w x else 0.
Proof.
  induction 1 as [|a K Hnotin Hnd IH]; simpl map.
  - reflexivity.
  - rewrite sum_cons, IH. destruct (Z.eqb_spec x a) as [->|Hne].
    + destruct (in_dec Z.eq_dec a K) as [Hin|_]; [contradiction|].
      destruct (in_dec Z.eq_dec a (a :: K)) as [_|Hout]; [lia|].
      exfalso. apply Hout. left. reflexivity.
    + destruct (in_dec Z.eq_dec x K) as [Hin|Hout];
        destruct (in_dec Z.eq_dec x (a :: K)) as [Hin'|Hout']; try lia.
      * exfalso. apply Hout'. right. exact Hin.
      * exfalso. destruct Hin' as [E|Hin']; [congruence | contradiction].
Qed.

Lemma weighted_counts (w : Z -> Z) (K combo : list Z) :
  NoDup K -> incl combo K ->
  sum (map (fun k => w k * occurrences k combo) K) = sum (map w combo).
Proof.
  intros Hnd. induction combo as [|x c IH]; intros Hincl.
  - simpl map at 2. rewrite sum_nil.
    rewrite (sum_map_ext _ (fun _ => 0)); [apply sum_map_zero|].
    intros k _. unfold occurrences. simpl. lia.
  - simpl map at 2. rewrite sum_cons.
    rewrite (sum_map_ext _
               (fun k => w k * (if x =? k then 1 else 0)
                         + w k * occurrences k c)).
    + rewrite sum_map_add, sum_indicator by exact Hnd.
      destruct (in_dec Z.eq_dec x K) as [_|Hout].
      * rewrite IH; [reflexivity|].
        intros y Hy. apply Hincl. right. exact Hy.
      * exfalso. apply Hout, Hincl. left. reflexivity.
    + intros k _. rewrite occurrences_cons. lia.
Qed.

Lemma weighted_total_quantities_of (combo : list Z) :
  incl combo CUT_LENGTHS ->
  weighted_total (quantities_of combo) = sum combo.
Proof.
  intros Hincl. unfold weighted_total, quantities_of. rewrite map_map. cbn [fst snd].
  rewrite (weighted_counts (fun k => k)) by
      (try apply CUT_LENGTHS_nodup; exact Hincl).
  rewrite map_id. reflexivity.
Qed.

Lemma sum_values_quantities_of (combo : list Z) :
  incl combo CUT_LENGTHS ->
  sum (values (quantities_of combo)) = len combo.
Proof.
  intros Hincl. unfold values, quantities_of. rewrite map_map. cbn [fst snd].
  rewrite (sum_map_ext _ (fun k => 1 * occurrences k combo))
    by (intros; lia).
  rewrite (weighted_counts (fun _ => 1)) by
      (try apply CUT_LENGTHS_nodup; exact Hincl).
  unfold len. clear Hincl. induction combo as [|x c IH]; simpl map.
  - reflexivity.
  - rewrite sum_cons, IH. simpl length. lia.
Qed.

(** * The search of [suggest_optimal_quantities] *)

Lemma range_2_5 : range 2 5 = [2%nat; 3%nat; 4%nat].
Proof. reflexivity. Qed.

Lemma search_candidates (raw_length : Z) :
  search raw_length =
  for_each candidates (consider raw_length) (mk_best None (Finite (inject_Z 0))).
Proof. unfold search, candidates. apply for_each_nested. Qed.

Lemma candidates_spec (combo : list Z) :
  In combo candidates ->
  (2 <= length combo <= 4)%nat /\ incl combo CUT_LENGTHS.
Proof.
  unfold candidates. rewrite range_2_5, in_concat.
  intros [l [Hl Hc]]. apply in_map_iff in Hl. destruct Hl as [size [<- Hs]].
  destruct (cwr_spec _ _ _ Hc) as [Hlen Hincl].
  split; [|exact Hincl].
  simpl in Hs. lia.
Qed.

Lemma cwr_first (x : Z) (p : list Z) (r : nat) :
  exists rest, combinations_with_replacement (x :: p) r = repeat x r :: rest.
Proof.
  induction r as [|r [rest IH]].
  - exists []. reflexivity.
  - rewrite cwr_cons, IH. simpl. eexists. reflexivity.
Qed.

Lemma smallest_candidate : In [515; 515] candidates.
Proof.
  unfold candidates. rewrite range_2_5. cbn [map concat].
  apply in_or_app. left.
  destruct (cwr_first 515 (tl CUT_LENGTHS) 2) as [rest E].
  change (515 :: tl CUT_LENGTHS) with CUT_LENGTHS in E.
  rewrite E. left. reflexivity.
Qed.

Lemma sum_lower_bound (m : Z) (xs : list Z) :
  (forall x, In x xs -> m <= x) -> m * len xs <= sum xs.
Proof.
  unfold len. induction xs as [|x xs IH]; intros H.
  - rewrite sum_nil. simpl. lia.
  - rewrite sum_cons. pose proof (H x (or_introl eq_refl)).
    assert (m * Z.of_nat (length xs) <= sum xs).
    { apply IH. intros y Hy. apply H. right. exact Hy. }
    simpl length. lia.
Qed.

Lemma candidates_total (combo : list Z) :
  In combo candidates -> 1030 <= sum combo.
Proof.
  intros Hc. destruct (candidates_spec combo Hc) as [Hlen Hincl].
  pose proof (sum_lower_bound 515 combo) as H. unfold len in H.
  assert (515 * Z.of_nat (length combo) <= sum combo).
  { apply H. intros x Hx. apply CUT_LENGTHS_lower, Hincl, Hx. }
  lia.
Qed.

Lemma filter_snoc {A : Type} (f : A -> bool) (l : list A) (x : A) :
  filter f (l ++ [x]) = filter f l ++ (if f x then [x] else []).
Proof. rewrite filter_app. reflexivity. Qed.


Lemma cwr_cons_in (x : Z) (p c : list Z) (r : nat) :
  In c (combinations_with_replacement (x :: p) r) ->
  In (x :: c) (combinations_with_replacement (x :: p) (S r)).
Proof.
  intros H. rewrite cwr_cons. apply in_or_app. left. apply in_map, H.
Qed.

Lemma cwr_tail_in (x : Z) (p c : list Z) (r : nat) :
  In c (combinations_with_replacement p r) ->
  In c (combinations_with_replacement (x :: p) r).
Proof.
  destruct r as [|r]; [exact (fun H => H)|].
  intros H. rewrite cwr_cons. apply in_or_app. right. exact H.
Qed.

Lemma cwr_repeat_in (x : Z) (p c : list Z) (r n : nat) :
  In c (combinations_with_replacement p r) ->
  In (repeat x n ++ c) (combinations_with_replacement (x :: p) (n + r)).
Proof.
  intros H. induction n as [|n IH]; simpl.
  - apply cwr_tail_in, H.
  - apply cwr_cons_in, IH.
Qed.

(** The pieces equal to [x] first, then the others. *)
Lemma pieces_of_length_first (x : Z) (combo : list Z) :
  Permutation combo
    (filter (Z.eqb x) combo ++ filter (fun y => negb (x =? y)) combo).
Proof.
  induction combo as [|y ys IHys]; [apply perm_nil|].
  simpl. destruct (x =? y); simpl.
  - apply perm_skip, IHys.
  - apply Permutation_cons_app, IHys.
Qed.

Lemma filter_eqb_repeat (x : Z) (l : list Z) :
  filter (Z.eqb x) l = repeat x (length (filter (Z.eqb x) l)).
Proof.
  induction l as [|a l IH]; simpl; [reflexivity|].
  destruct (Z.eqb_spec x a) as [<-|_]; simpl; [f_equal|]; exact IH.
Qed.

Lemma cwr_complete (pool : list Z) :
  forall c, incl c pool ->
            exists c', Permutation c c' /\
                       In c' (combinations_with_replacement pool (length c)).
Proof.
  induction pool as [|x p IH]; intros c Hincl.
  - destruct c as [|y c]; [|destruct (Hincl y (or_introl eq_refl))].
    exists []. split; [constructor | left; reflexivity].
  - set (c1 := filter (Z.eqb x) c).
    set (c2 := filter (fun a => negb (Z.eqb x a)) c).
    assert (Hperm : Permutation c (c1 ++ c2))
      by apply pieces_of_length_first.
    destruct (IH c2) as [c2' [Hp2 Hin2]].
    { intros y Hy. apply filter_In in Hy. destruct Hy as [Hy Hne].
      destruct (Hincl y Hy) as [<-|H]; [|exact H].
      rewrite Z.eqb_refl in Hne. discriminate. }
    exists (repeat x (length c1) ++ c2'). split.
    + rewrite Hperm. unfold c1 at 1. rewrite filter_eqb_repeat.
      fold c1. apply Permutation_app_head, Hp2.
    + rewrite (Permutation_length Hperm), length_app.
      apply cwr_repeat_in, Hin2.
Qed.


Lemma CUT_LENGTHS_upper : forall x, In x CUT_LENGTHS -> x <= 6000.
Proof.
  unfold CUT_LENGTHS. intros x H. simpl in H.
  repeat destruct H as [H|H]; lia.
Qed.

Lemma sum_upper_bound (m : Z) (xs : list Z) :
  (forall x, In x xs -> x <= m) -> sum xs <= m * len xs.
Proof.
  unfold len. induction xs as [|x xs IH]; intros H.
  - rewrite sum_nil. simpl. lia.
  - rewrite sum_cons. pose proof (H x (or_introl eq_refl)).
    assert (sum xs <= m * Z.of_nat (length xs)).
    { apply IH. intros y Hy. apply H. right. exact Hy. }
    simpl length. lia.
Qed.

Lemma candidates_total_upper (combo : list Z) :
  In combo candidates -> sum combo <= 24000.
Proof.
  intros Hc. destruct (candidates_spec combo Hc) as [Hlen Hincl].
  pose proof (sum_upper_bound 6000 combo) as H. unfold len in H.
  assert (sum combo <= 6000 * Z.of_nat (length combo)).
  { apply H. intros x Hx. apply CUT_LENGTHS_upper, Hincl, Hx. }
  lia.
Qed.

Lemma largest_candidate : In [6000; 6000; 6000; 6000] candidates.
Proof.
  unfold candidates. rewrite range_2_5. cbn [map concat].
  apply in_or_app. right. apply in_or_app. right. apply in_or_app. left.
  destruct (cwr_complete CUT_LENGTHS [6000; 6000; 6000; 6000])
    as [c [Hperm Hin]].
  { intros x Hx. simpl in Hx.
    assert (x = 6000) by (repeat destruct Hx as [Hx|Hx]; auto; destruct Hx).
    subst x. unfold CUT_LENGTHS. simpl. tauto. }
  apply Permutation_sym, (Permutation_repeat 6000 4) in Hperm.
  subst c. exact Hin.
Qed.

Lemma pow_1075_large : 32 <= 2 ^ 1075.
Proof. change 32 with (2 ^ 5). apply Z.pow_le_mono_r; lia. Qed.

(** One round of the search loop. *)
Lemma consider_step (raw_length : Z) (feasible : list (list Z))
  (combo : list Z) (b : best) :
  0 < sum combo ->
  first_best raw_length feasible b ->
  exists b',
    consider raw_length combo b = Ok b' /\
    first_best raw_length
      (feasible ++ (if fits raw_length combo then [combo] else [])) b'.
Proof.
  intros Hsum Hb. unfold consider, fits.
  destruct (sum combo <=? raw_length) eqn:Efit.
  2:{ exists b. rewrite app_nil_r. split; [reflexivity | exact Hb]. }
  apply Z.leb_le in Efit.
  destruct (effv_unit (sum combo) raw_length (conj Hsum Efit)) as [Ediv _].
  rewrite Ediv. simpl bind. fold (eff raw_length combo).
  destruct (fgtb (eff raw_length combo) (best_efficiency b)) eqn:Egt.
  - apply fgtb_true in Egt.
    eexists. split; [reflexivity|]. unfold first_best in *.
    cbn [best_combo best_efficiency]. split; [reflexivity|].
    destruct (best_combo b) as [winner|].
    + destruct Hb as [Hbe [Hpos [before [after [-> [Hbefore Hafter]]]]]].
      rewrite Hbe in Egt.
      split; [apply (flt_trans _ (eff raw_length winner)); assumption|].
      exists (before ++ winner :: after), [].
      split; [reflexivity|]. split; [|intros c []].
      intros c Hc. apply in_app_or in Hc. destruct Hc as [Hc|[<-|Hc]].
      * apply (flt_trans _ (eff raw_length winner)); [apply Hbefore, Hc|].
        exact Egt.
      * exact Egt.
      * apply (fle_flt_trans _ (eff raw_length winner));
          [apply Hafter, Hc | exact Egt].
    + destruct Hb as [Hbe Hzero]. rewrite Hbe in Egt.
      split; [exact Egt|]. exists feasible, [].
      split; [reflexivity|]. split; [|intros c []].
      intros c Hc. apply (fle_flt_trans _ (Finite (inject_Z 0)));
        [apply Hzero, Hc | exact Egt].
  - apply fgtb_false in Egt. exists b. split; [reflexivity|].
    unfold first_best in *. destruct (best_combo b) as [winner|].
    + destruct Hb as [Hbe [Hpos [before [after [-> [Hbefore Hafter]]]]]].
      split; [exact Hbe|]. split; [exact Hpos|].
      exists before, (after ++ [combo]).
      split; [rewrite <- app_assoc; reflexivity|].
      split; [exact Hbefore|].
      intros c Hc. apply in_app_or in Hc. destruct Hc as [Hc|[<-|[]]].
      * apply Hafter, Hc.
      * rewrite <- Hbe. exact Egt.
    + destruct Hb as [Hbe Hzero]. split; [exact Hbe|].
      intros c Hc. apply in_app_or in Hc. destruct Hc as [Hc|[<-|[]]].
      * apply Hzero, Hc.
      * rewrite <- Hbe. exact Egt.
Qed.

Lemma search_loop (raw_length : Z) (combos : list (list Z)) :
  (forall c, In c combos -> 0 < sum c) ->
  exists b,
    for_each combos (consider raw_length)
             (mk_best None (Finite (inject_Z 0))) = Ok b /\
    first_best raw_length (filter (fits raw_length) combos) b.
Proof.
  induction combos as [|combo combos IH] using rev_ind; intros Hpos.
  - eexists. split; [reflexivity|]. split; [reflexivity | intros c []].
  - destruct IH as [b [E Hb]].
    { intros c Hc. apply Hpos, in_or_app. left. exact Hc. }
    assert (Hc : 0 < sum combo).
    { apply Hpos, in_or_app. right. left. reflexivity. }
    destruct (consider_step raw_length _ combo b Hc Hb) as [b' [E' Hb']].
    exists b'. rewrite for_each_app, E. simpl. rewrite E'. simpl.
    rewrite filter_snoc. split; [reflexivity | exact Hb'].
Qed.

(** The search returns for every raw length, with the first candidate of
    highest computed efficiency among those that fit, if any efficiency is
    above 0. *)
Lemma search_returns (raw_length : Z) :
  exists b,
    search raw_length = Ok b /\
    first_best raw_length (filter (fits raw_length) candidates) b.
Proof.
  rewrite search_candidates. apply search_loop.
  intros c Hc. pose proof (candidates_total c Hc). lia.
Qed.

Lemma fits_candidate (raw_length : Z) (c : list Z) :
  In c (filter (fits raw_length) candidates) <->
  In c candidates /\ sum c <= raw_length.
Proof.
  rewrite filter_In. unfold fits. rewrite Z.leb_le. tauto.
Qed.

Lemma winner_candidate (raw_length : Z) (winner : list Z)
  (before after : list (list Z)) :
  filter (fits raw_length) candidates = before ++ winner :: after ->
  In winner candidates /\ sum winner <= raw_length.
Proof.
  intros Hf.
  assert (H : In winner (filter (fits raw_length) candidates)).
  { rewrite Hf. apply in_or_app. right. left. reflexivity. }
  apply filter_In in H. destruct H as [H Hfit].
  split; [exact H|]. unfold fits in Hfit. lia.
Qed.


(** The two outcomes of [suggest_optimal_quantities]. *)
Lemma suggest_returns (raw_length : Z) :
  ((forall c, In c candidates -> sum c <= raw_length ->
              fle (eff raw_length c) (Finite (inject_Z 0))) /\
   suggest_optimal_quantities raw_length = Ok all_zero) \/
  (exists winner before after,
      filter (fits raw_length) candidates = before ++ winner :: after /\
      flt (Finite (inject_Z 0)) (eff raw_length winner) /\
      (forall c, In c before ->
                 flt (eff raw_length c) (eff raw_length winner)) /\
      (forall c, In c after ->
                 fle (eff raw_length c) (eff raw_length winner)) /\
      suggest_optimal_quantities raw_length = Ok (quantities_of winner)).
Proof.
  destruct (search_returns raw_length) as [b [E Hb]].
  unfold suggest_optimal_quantities. rewrite E. simpl bind.
  unfold first_best in Hb. destruct (best_combo b) as [winner|].
  - right. destruct Hb as [_ [Hpos [before [after [Hf [Hbefore Hafter]]]]]].
    exists winner, before, after. repeat split; try assumption.
    destruct (winner_candidate _ _ _ _ Hf) as [Hw _].
    destruct (candidates_spec winner Hw) as [Hlen Hincl].
    rewrite to_quantities_some; [reflexivity | | exact Hincl].
    intros ->. simpl in Hlen. lia.
  - left. destruct Hb as [_ Hzero]. split.
    + intros c Hc Hfit. apply Hzero, fits_candidate. tauto.
    + rewrite to_quantities_none. reflexivity.
Qed.

Lemma nothing_fits_iff (raw_length : Z) :
  filter (fits raw_length) candidates = [] <-> raw_length < 1030.
Proof.
  split.
  - intros Hf. destruct (Z_lt_le_dec raw_length 1030) as [L|L]; [exact L|].
    exfalso.
    assert (H : In [515; 515] (filter (fits raw_length) candidates)).
    { apply filter_In. split; [apply smallest_candidate|].
      unfold fits. change (sum [515; 515]) with 1030. lia. }
    rewrite Hf in H. destruct H.
  - intros L. destruct (filter (fits raw_length) candidates) as [|c l] eqn:E;
      [reflexivity|].
    assert (H : In c (filter (fits raw_length) candidates)).
    { rewrite E. left. reflexivity. }
    apply filter_In in H. destruct H as [Hc Hfit].
    pose proof (candidates_total c Hc). unfold fits in Hfit. lia.
Qed.

Lemma quantities_of_positive (winner : list Z) :
  winner <> [] -> incl winner CUT_LENGTHS ->
  exists k q, In (k, q) (quantities_of winner) /\ In k CUT_LENGTHS /\ 0 < q.
Proof.
  intros Hne Hincl. destruct winner as [|x w]; [congruence|].
  assert (Hx : In x CUT_LENGTHS) by (apply Hincl; left; reflexivity).
  exists x, (occurrences x (x :: w)). split; [|split].
  - unfold quantities_of.
    apply (in_map (fun k => (k, occurrences k (x :: w)))), Hx.
  - exact Hx.
  - apply occurrences_pos. left. reflexivity.
Qed.

Lemma all_zero_values (k q : Z) : In (k, q) all_zero -> q = 0.
Proof.
  unfold all_zero. rewrite in_map_iff. intros [x [E _]]. congruence.
Qed.


(** A fitting candidate has a computed efficiency above 0 exactly below
    its own underflow threshold. *)
Lemma candidate_positive_iff (raw_length : Z) (c : list Z) :
  In c candidates -> sum c <= raw_length ->
  flt (Finite (inject_Z 0)) (eff raw_length c)
  <-> raw_length < sum c * 2 ^ 1075.
Proof.
  intros Hc Hfit. pose proof (candidates_total c Hc).
  apply effv_positive_iff. lia.
Qed.

(** No efficiency above 0 among the fitting candidates: nothing fits, or
    every quotient rounds to 0.0. *)
Lemma no_winner_iff (raw_length : Z) :
  (forall c, In c candidates -> sum c <= raw_length ->
             fle (eff raw_length c) (Finite (inject_Z 0)))
  <-> raw_length < 1030 \/ underflow_from <= raw_length.
Proof.
  pose proof pow_1075_large as P. unfold underflow_from. split.
  - intros Hzero.
    destruct (Z_lt_le_dec raw_length 1030) as [L|L]; [left; exact L|].
    destruct (Z_lt_le_dec raw_length (24000 * 2 ^ 1075)) as [U|U];
      [|right; exact U].
    exfalso.
    destruct (Z_lt_le_dec raw_length 24000) as [S|S].
    + apply (fle_not_flt _ _ (Hzero [515; 515] smallest_candidate
                                ltac:(change (sum [515; 515]) with 1030; lia))).
      apply candidate_positive_iff; [apply smallest_candidate | |];
        change (sum [515; 515]) with 1030; lia.
    + apply (fle_not_flt _ _
               (Hzero [6000; 6000; 6000; 6000] largest_candidate
                  ltac:(change (sum [6000; 6000; 6000; 6000]) with 24000;
                        lia))).
      apply candidate_positive_iff; [apply largest_candidate | |];
        change (sum [6000; 6000; 6000; 6000]) with 24000; lia.
  - intros [L|U] c Hc Hfit.
    + pose proof (candidates_total c Hc). lia.
    + apply not_flt_fle. intros Hp.
      apply candidate_positive_iff in Hp; [|exact Hc|exact Hfit].
      pose proof (candidates_total_upper c Hc). nia.
Qed.

(** The outcome of [suggest_optimal_quantities] by raw length. *)
Lemma suggest_cases (raw_length : Z) :
  ((raw_length < 1030 \/ underflow_from <= raw_length) /\
   suggest_optimal_quantities raw_length = Ok all_zero) \/
  (1030 <= raw_length < underflow_from /\
   exists winner before after,
     filter (fits raw_length) candidates = before ++ winner :: after /\
     flt (Finite (inject_Z 0)) (eff raw_length winner) /\
     (forall c, In c before ->
                flt (eff raw_length c) (eff raw_length winner)) /\
     (forall c, In c after ->
                fle (eff raw_length c) (eff raw_length winner)) /\
     suggest_optimal_quantities raw_length = Ok (quantities_of winner)).
Proof.
  destruct (suggest_returns raw_length)
    as [[Hz E]|[winner [before [after [Hf [Hp [Hb [Ha E]]]]]]]].
  - left. split; [apply no_winner_iff, Hz | exact E].
  - right. split.
    + destruct (winner_candidate _ _ _ _ Hf) as [Hw Hfit].
      destruct (Z_lt_le_dec raw_length 1030) as [L|L].
      { pose proof (candidates_total winner Hw). lia. }
      destruct (Z_lt_le_dec raw_length underflow_from) as [U|U]; [lia|].
      exfalso.
      apply (fle_not_flt _ _
               (proj2 (no_winner_iff raw_length) (or_intror U) winner Hw Hfit)).
      exact Hp.
    + exists winner, before, after. auto.
Qed.

(** * Properties of [suggest_optimal_quantities] *)

(** C5, as the spec states it: the all-zero mapping exactly when the raw
    length is below the smallest catalog length 515.  At raw length 600 one
    piece of 515 would fit, yet the mapping is all-zero. *)
Lemma suggest_all_zero_not_iff_below_515 :
  ~ (suggest_optimal_quantities 600 = Ok all_zero <-> 600 < 515).
Proof.
  intros [H _].
  assert (L : 600 < 515) by (apply H; vm_compute; reflexivity).
  lia.
Qed.

(** C5 (amended). For a positive raw length, [suggest_optimal_quantities]
    returns the all-zero mapping exactly when none of the generated
    multisets (2 to 4 catalog lengths) fits with a computed efficiency
    above 0, which is exactly when the raw length is below 1030, twice the
    smallest catalog length, or at least [24000 * 2^1075], where every
    quotient rounds to 0.0; for every raw length in between some catalog
    length gets a positive quantity. *)
Theorem suggest_all_zero_iff (raw_length : Z) :
  0 < raw_length ->
  exists m,
    suggest_optimal_quantities raw_length = Ok m /\
    (m = all_zero <->
     forall c, In c candidates -> sum c <= raw_length ->
               fle (eff raw_length c) (Finite (inject_Z 0))) /\
    (m = all_zero <-> raw_length < 1030 \/ 24000 * 2 ^ 1075 <= raw_length) /\
    (1030 <= raw_length < 24000 * 2 ^ 1075 ->
     exists k q, In k CUT_LENGTHS /\ In (k, q) m /\ 0 < q).
Proof.
  intros Hraw. fold underflow_from.
  pose proof (no_winner_iff raw_length) as Hnw.
  destruct (suggest_cases raw_length)
    as [[Hr E]|[Hr [winner [before [after [Hf [_ [_ [_ E]]]]]]]]].
  - exists all_zero. split; [exact E|].
    split; [tauto|]. split; [tauto|]. intros Hmid. lia.
  - exists (quantities_of winner). split; [exact E|].
    destruct (winner_candidate _ _ _ _ Hf) as [Hw Hfit].
    destruct (candidates_spec winner Hw) as [Hlen Hincl].
    assert (Hne : winner <> []) by (intros ->; simpl in Hlen; lia).
    destruct (quantities_of_positive winner Hne Hincl) as [k [q [Hi [Hk Hq]]]].
    assert (Hnz : quantities_of winner <> all_zero).
    { intros Eq. rewrite Eq in Hi. apply all_zero_values in Hi. lia. }
    split; [|split].
    + split; [intros Ez; contradiction|]. intros Hz.
      apply Hnw in Hz. lia.
    + split; [intros Ez; contradiction | lia].
    + intros _. exists k, q. auto.
Qed.

Lemma suggest_all_zero_iff_witness :
  exists m,
    suggest_optimal_quantities 6000 = Ok m /\
    (m = all_zero <->
     forall c, In c candidates -> sum c <= 6000 ->
               fle (eff 6000 c) (Finite (inject_Z 0))) /\
    (m = all_zero <-> 6000 < 1030 \/ 24000 * 2 ^ 1075 <= 6000) /\
    (1030 <= 6000 < 24000 * 2 ^ 1075 ->
     exists k q, In k CUT_LENGTHS /\ In (k, q) m /\ 0 < q).
Proof.
  apply (suggest_all_zero_iff 6000). lia.
Defined.

(** C6. For a positive raw length, the mapping returned by
    [suggest_optimal_quantities] has exactly the 20 catalog lengths as its
    keys, every quantity is non-negative, and the sum of
    [length * quantity] over the mapping does not exceed the raw length. *)
Theorem suggest_complete_mapping (raw_length : Z) :
  0 < raw_length ->
  exists m,
    suggest_optimal_quantities raw_length = Ok m /\
    keys m =
      [515; 1025; 1145; 1835; 2045; 2075; 2165; 2515; 2835; 3575;
       3695; 3755; 3815; 4085; 4155; 4225; 5015; 5375; 5515; 6000] /\
    length (keys m) = 20%nat /\
    (forall k q, In (k, q) m -> 0 <= q) /\
    weighted_total m <= raw_length.
Proof.
  intros Hraw.
  assert (G : exists w,
             suggest_optimal_quantities raw_length = Ok (quantities_of w) /\
             incl w CUT_LENGTHS /\ sum w <= raw_length).
  { destruct (suggest_returns raw_length)
      as [[_ E]|[winner [before [after [Hf [_ [_ [_ E]]]]]]]].
    - exists []. rewrite <- all_zero_quantities.
      split; [exact E|]. split; [intros x []|]. rewrite sum_nil. lia.
    - exists winner. split; [exact E|].
      destruct (winner_candidate _ _ _ _ Hf) as [Hw Hfit].
      split; [apply (candidates_spec winner Hw) | exact Hfit]. }
  destruct G as [w [E [Hincl Hfit]]].
  exists (quantities_of w). split; [exact E|].
  rewrite keys_quantities_of.
  split; [reflexivity|]. split; [reflexivity|]. split.
  - intros k q Hi. unfold quantities_of in Hi. apply in_map_iff in Hi.
    destruct Hi as [x [Ex _]]. injection Ex as _ <-.
    apply occurrences_nonneg.
  - rewrite weighted_total_quantities_of by exact Hincl. exact Hfit.
Qed.

Lemma suggest_complete_mapping_witness :
  exists m,
    suggest_optimal_quantities 6000 = Ok m /\
    keys m =
      [515; 1025; 1145; 1835; 2045; 2075; 2165; 2515; 2835; 3575;
       3695; 3755; 3815; 4085; 4155; 4225; 5015; 5375; 5515; 6000] /\
    length (keys m) = 20%nat /\
    (forall k q, In (k, q) m -> 0 <= q) /\
    weighted_total m <= 6000.
Proof.
  apply (suggest_complete_mapping 6000). lia.
Defined.

(** C7, as the spec states it: whenever a feasible multiset exists, the
    returned counts are those of a winning multiset.  At raw length
    [10^400] the multiset (515, 515) fits, but every quotient rounds to
    0.0, no efficiency exceeds the initial 0, and the all-zero mapping is
    returned: the counts of no generated multiset. *)
Lemma suggest_no_winner_at_huge_raw_length :
  In [515; 515] candidates /\
  sum [515; 515] <= 10 ^ 400 /\
  suggest_optimal_quantities (10 ^ 400) = Ok all_zero /\
  ~ exists winner,
      In winner candidates /\
      suggest_optimal_quantities (10 ^ 400) = Ok (quantities_of winner).
Proof.
  assert (U : underflow_from <= 10 ^ 400).
  { apply Z.leb_le. vm_compute. reflexivity. }
  assert (E : suggest_optimal_quantities (10 ^ 400) = Ok all_zero).
  { destruct (suggest_cases (10 ^ 400)) as [[_ E]|[[_ Hr] _]];
      [exact E | lia]. }
  split; [apply smallest_candidate|].
  split; [apply Z.leb_le; vm_compute; reflexivity|].
  split; [exact E|].
  intros [winner [Hw Ew]].
  assert (Eq : quantities_of winner = all_zero) by congruence.
  destruct (candidates_spec winner Hw) as [Hlen Hincl].
  assert (Hne : winner <> []) by (intros ->; simpl in Hlen; lia).
  destruct (quantities_of_positive winner Hne Hincl) as [k [q [Hi [_ Hq]]]].
  rewrite Eq in Hi. apply all_zero_values in Hi. lia.
Qed.

(** C7 (amended). For every raw length from 1030 up to, but excluding,
    [24000 * 2^1075] (the raw lengths for which some generated multiset
    fits with a computed efficiency above 0), the multiset whose counts
    [suggest_optimal_quantities] returns is the first one, in generation
    order (sizes 2, 3, 4, each in combinations-with-replacement order over
    the catalog), whose computed efficiency, the binary64 value of
    [(total / raw_length) * 100], is the maximum over all fitting
    multisets: everything fitting before it has a strictly smaller computed
    efficiency, nothing fitting after it a greater one. *)
Theorem suggest_first_best (raw_length : Z) :
  1030 <= raw_length < 24000 * 2 ^ 1075 ->
  candidates =
    combinations_with_replacement CUT_LENGTHS 2
    ++ combinations_with_replacement CUT_LENGTHS 3
    ++ combinations_with_replacement CUT_LENGTHS 4 /\
  exists winner before after,
    suggest_optimal_quantities raw_length = Ok (quantities_of winner) /\
    filter (fits raw_length) candidates = before ++ winner :: after /\
    flt (Finite (inject_Z 0)) (eff raw_length winner) /\
    (forall c, In c before ->
               flt (eff raw_length c) (eff raw_length winner)) /\
    (forall c, In c after ->
               fle (eff raw_length c) (eff raw_length winner)) /\
    (forall c, In c candidates -> sum c <= raw_length ->
               fle (eff raw_length c) (eff raw_length winner)).
Proof.
  intros Hr. fold underflow_from in Hr. split.
  { unfold candidates. rewrite range_2_5. cbn [map concat].
    rewrite app_nil_r. reflexivity. }
  destruct (suggest_cases raw_length)
    as [[Hout _]|[_ [winner [before [after [Hf [Hp [Hb [Ha E]]]]]]]]];
    [lia|].
  exists winner, before, after. split; [exact E|]. split; [exact Hf|].
  split; [exact Hp|]. split; [exact Hb|]. split; [exact Ha|].
  intros c Hc Hfit.
  assert (H : In c (filter (fits raw_length) candidates))
    by (apply fits_candidate; tauto).
  rewrite Hf in H. apply in_app_or in H. destruct H as [H|[<-|H]].
  - apply flt_fle, Hb, H.
  - apply fle_refl.
  - apply Ha, H.
Qed.

Lemma suggest_first_best_witness :
  candidates =
    combinations_with_replacement CUT_LENGTHS 2
    ++ combinations_with_replacement CUT_LENGTHS 3
    ++ combinations_with_replacement CUT_LENGTHS 4 /\
  exists winner before after,
    suggest_optimal_quantities 6000 = Ok (quantities_of winner) /\
    filter (fits 6000) candidates = before ++ winner :: after /\
    flt (Finite (inject_Z 0)) (eff 6000 winner) /\
    (forall c, In c before -> flt (eff 6000 c) (eff 6000 winner)) /\
    (forall c, In c after -> fle (eff 6000 c) (eff 6000 winner)) /\
    (forall c, In c candidates -> sum c <= 6000 ->
               fle (eff 6000 c) (eff 6000 winner)).
Proof.
  apply (suggest_first_best 6000).
  split; [lia | apply Z.ltb_lt; vm_compute; reflexivity].
Defined.

(** C9. For a positive raw length the quantities returned by
    [suggest_optimal_quantities] add up to 0 or to a number from 2 to 4: a
    single piece is never suggested, and for every raw length below 1030
    the mapping is all-zero, also from 515 on where one catalog piece alone
    would fit. *)
Theorem suggest_piece_count (raw_length : Z) :
  0 < raw_length ->
  exists m,
    suggest_optimal_quantities raw_length = Ok m /\
    (sum (values m) = 0 \/ 2 <= sum (values m) <= 4) /\
    (raw_length < 1030 -> m = all_zero).
Proof.
  intros Hraw.
  destruct (suggest_returns raw_length)
    as [[_ E]|[winner [before [after [Hf [_ [_ [_ E]]]]]]]].
  - exists all_zero. split; [exact E|]. split; [|reflexivity].
    left. rewrite all_zero_quantities.
    rewrite sum_values_quantities_of by (intros x []). reflexivity.
  - exists (quantities_of winner). split; [exact E|].
    destruct (winner_candidate _ _ _ _ Hf) as [Hw Hfit].
    destruct (candidates_spec winner Hw) as [Hlen Hincl]. split.
    + right. rewrite sum_values_quantities_of by exact Hincl.
      unfold len. lia.
    + intros L. pose proof (candidates_total winner Hw). lia.
Qed.

Lemma suggest_piece_count_witness :
  exists m,
    suggest_optimal_quantities 600 = Ok m /\
    (sum (values m) = 0 \/ 2 <= sum (values m) <= 4) /\
    (600 < 1030 -> m = all_zero).
Proof.
  apply (suggest_piece_count 600). lia.
Defined.
(** * More properties of [find_all_cuts] *)

(** X1. When every length of the desired mapping is positive,
    [find_all_cuts] raises nothing for any integer raw length: a zero raw
    length never reaches the division, and a raw length that is zero or
    negative gives the empty list. *)
Theorem find_all_cuts_never_raises (raw_length : Z) (desired_cuts : dict) :
  (forall k, In k (keys desired_cuts) -> 0 < k) ->
  exists results,
    find_all_cuts raw_length desired_cuts = Ok results /\
    (raw_length <= 0 -> results = []).
Proof. exact (returns_for_positive_lengths raw_length desired_cuts). Qed.

Lemma find_all_cuts_never_raises_witness :
  exists results,
    find_all_cuts 0 [(515, 2); (1025, 1)] = Ok results /\
    (0 <= 0 -> results = []).
Proof.
  apply (find_all_cuts_never_raises 0 [(515, 2); (1025, 1)]).
  intros k [<-|[<-|[]]]; simpl; lia.
Defined.

Lemma sum_map_le {A : Type} (f g : A -> Z) (l : list A) :
  (forall a, In a l -> f a <= g a) -> sum (map f l) <= sum (map g l).
Proof.
  induction l as [|a l IH]; intros H; simpl map.
  - rewrite !sum_nil. lia.
  - rewrite !sum_cons.
    assert (f a <= g a) by (apply H; left; reflexivity).
    assert (sum (map f l) <= sum (map g l)); [|lia].
    apply IH. intros b Hb. apply H. right. exact Hb.
Qed.

Lemma sum_map_one {A : Type} (l : list A) : sum (map (fun _ => 1) l) = len l.
Proof.
  unfold len. induction l as [|a l IH]; simpl map.
  - reflexivity.
  - rewrite sum_cons, IH. simpl length. lia.
Qed.

(** A multiset within the quantities has no more pieces than
    [max_pieces]. *)
Lemma pieces_bound (desired_cuts : dict) (combo : list Z) :
  NoDup (keys desired_cuts) ->
  (forall k q, In (k, q) desired_cuts -> 0 <= q) ->
  (forall k, In k combo ->
             exists q, dict_get desired_cuts k = Some q /\
                       occurrences k combo <= q) ->
  len combo <= sum (values desired_cuts).
Proof.
  intros Hnd Hnonneg Hq.
  assert (Hincl : incl combo (keys desired_cuts)).
  { intros k Hk. destruct (Hq k Hk) as [q [Hget _]].
    apply dict_get_some_in in Hget.
    change k with (fst (k, q)). apply in_map, Hget. }
  rewrite <- sum_map_one.
  rewrite <- (weighted_counts (fun _ => 1) (keys desired_cuts) combo Hnd Hincl).
  unfold keys, values. rewrite map_map.
  apply sum_map_le. intros [k q] Hi. cbn [fst snd].
  destruct (in_dec Z.eq_dec k combo) as [Hin|Hout].
  - destruct (Hq k Hin) as [q' [Hget Hle]].
    rewrite (dict_get_unique _ _ _ Hnd Hi) in Hget. injection Hget as <-. lia.
  - assert (occurrences k combo = 0).
    { pose proof (occurrences_nonneg k combo).
      destruct (Z.eq_dec (occurrences k combo) 0); [assumption|].
      exfalso. apply Hout. apply occurrences_pos. lia. }
    specialize (Hnonneg k q Hi). lia.
Qed.

(** Every feasible multiset is, up to the order of its pieces, one of the
    kept generated multisets. *)
Lemma feasible_generated (raw_length : Z) (desired_cuts : dict)
  (combo : list Z) :
  NoDup (keys desired_cuts) ->
  (forall k q, In (k, q) desired_cuts -> 0 <= q) ->
  feasible raw_length desired_cuts combo ->
  exists combo',
    Permutation combo combo' /\
    In combo' (filter (accepted raw_length desired_cuts)
                      (generated desired_cuts)).
Proof.
  intros Hnd Hnonneg [Hne [Hfit Hq]].
  assert (Hincl : incl combo (available_lengths_of desired_cuts)).
  { intros k Hk. destruct (Hq k Hk) as [q [Hget Hle]].
    apply dict_get_some_in in Hget.
    unfold available_lengths_of, items.
    change k with (fst (k, q)). apply in_map. apply filter_In.
    split; [exact Hget|]. cbn [snd].
    apply occurrences_pos in Hk. lia. }
  destruct (cwr_complete _ combo Hincl) as [combo' [Hperm Hin]].
  exists combo'. split; [exact Hperm|]. apply filter_In. split.
  - apply generated_spec. exists (length combo). split; [|split].
    + destruct combo; [congruence | simpl; lia].
    + apply (pieces_bound desired_cuts combo Hnd Hnonneg Hq).
    + exact Hin.
  - unfold accepted, fits. apply andb_true_intro. split.
    + rewrite <- (sum_permutation _ _ Hperm). apply Z.leb_le, Hfit.
    + apply within_quantities_true. intros k Hk.
      rewrite <- (occurrences_permutation k _ _ Hperm).
      apply Hq. apply (Permutation_in k (Permutation_sym Hperm)), Hk.
Qed.


(** With positive lengths a feasible multiset has a positive total. *)
Lemma feasible_positive (raw_length : Z) (desired_cuts : dict)
  (combo : list Z) :
  (forall k, In k (keys desired_cuts) -> 0 < k) ->
  feasible raw_length desired_cuts combo ->
  0 < sum combo <= raw_length.
Proof.
  intros Hpos [Hne [Hfit Hq]]. split; [|exact Hfit].
  apply sum_positive; [exact Hne|]. intros x Hx.
  destruct (Hq x Hx) as [q [Hget _]]. apply dict_get_some_in in Hget.
  apply Hpos. change x with (fst (x, q)). apply in_map, Hget.
Qed.

(** The sort key orders the entries by total length as well: the computed
    efficiency is monotone in the total, and the waste decides among equal
    efficiencies. *)
Lemma key_le_totals (raw_length : Z) (c d : list Z) :
  0 < raw_length ->
  key_le (entry raw_length c) (entry raw_length d) ->
  sum d <= sum c /\ fle (eff raw_length d) (eff raw_length c).
Proof.
  intros Hraw H. unfold key_le in H. apply key_leb_iff in H.
  unfold sort_key in H. cbn [entry efficiency waste fst snd] in H.
  destruct H as [H|[H Hw]].
  - apply (proj1 (flt_fneg _ _)) in H. split; [|apply flt_fle, H].
    destruct (Z_le_gt_dec (sum d) (sum c)) as [L|L]; [exact L|]. exfalso.
    apply (fle_not_flt (eff raw_length c) (eff raw_length d)); [|exact H].
    apply effv_mono; lia.
  - apply (proj1 (feq_fneg _ _)) in H. split; [lia|].
    apply feq_fle, feq_sym, H.
Qed.

Lemma optimal_head
  (raw_length : Z) (desired_cuts : dict) (combo : list Z) :
  length_quantity desired_cuts ->
  feasible raw_length desired_cuts combo ->
  exists top rest,
    find_all_cuts raw_length desired_cuts = Ok (top :: rest) /\
    feasible raw_length desired_cuts (combination top) /\
    total_length top = sum (combination top) /\
    sum combo <= total_length top /\
    fle (eff raw_length combo) (efficiency top).
Proof.
  intros [Hnd [Hpos Hnonneg]] Hfeas.
  assert (Hraw : 0 < raw_length).
  { pose proof (feasible_positive _ _ _ Hpos Hfeas). lia. }
  destruct (feasible_generated _ _ _ Hnd Hnonneg Hfeas)
    as [combo' [Hperm Hin]].
  rewrite (find_all_cuts_positive _ _ Hpos).
  set (kept := filter (accepted raw_length desired_cuts)
                      (generated desired_cuts)) in *.
  assert (Hentry : In (entry raw_length combo') (map (entry raw_length) kept))
    by (apply in_map, Hin).
  destruct (list_sort_nonempty _ _ Hentry) as [top [rest E]].
  exists top, (firstn 4 rest). rewrite E. split; [reflexivity|].
  assert (Htop : In top (map (entry raw_length) kept)).
  { apply (Permutation_in top (list_sort_perm _)). rewrite E.
    left. reflexivity. }
  apply in_map_iff in Htop. destruct Htop as [c0 [<- Hc0]].
  pose proof (list_sort_head _ _ _ E _ Hentry) as Hle.
  destruct (key_le_totals _ _ _ Hraw Hle) as [Hsum Heff].
  apply filter_In in Hc0. destruct Hc0 as [Hg0 Hacc0].
  unfold accepted, fits in Hacc0. apply andb_prop in Hacc0.
  destruct Hacc0 as [Hfit0 Hw0]. apply Z.leb_le in Hfit0.
  cbn [entry combination total_length efficiency].
  split; [|split; [reflexivity|]].
  - split; [apply (generated_nonempty _ _ Hg0)|].
    split; [exact Hfit0|]. apply within_quantities_true, Hw0.
  - rewrite (sum_permutation _ _ Hperm). split; [exact Hsum|].
    unfold eff. rewrite (sum_permutation _ _ Hperm). exact Heff.
Qed.

(** X2. For a dictionary of positive lengths with non-negative quantities,
    whenever some feasible multiset exists [find_all_cuts] returns a
    non-empty list whose first entry is itself feasible and at least as
    long as every feasible multiset, with a computed efficiency at least
    that of every feasible multiset: the first result is optimal. *)
Theorem find_all_cuts_first_is_optimal
  (raw_length : Z) (desired_cuts : dict) (combo : list Z) :
  length_quantity desired_cuts ->
  feasible raw_length desired_cuts combo ->
  exists top rest,
    find_all_cuts raw_length desired_cuts = Ok (top :: rest) /\
    feasible raw_length desired_cuts (combination top) /\
    total_length top = sum (combination top) /\
    sum combo <= total_length top /\
    fle (eff raw_length combo) (efficiency top).
Proof. exact (optimal_head raw_length desired_cuts combo). Qed.

Lemma find_all_cuts_first_is_optimal_witness :
  exists top rest,
    find_all_cuts 6000 [(3000, 2); (1025, 3)] = Ok (top :: rest) /\
    feasible 6000 [(3000, 2); (1025, 3)] (combination top) /\
    total_length top = sum (combination top) /\
    sum [1025; 3000; 1025] <= total_length top /\
    fle (eff 6000 [1025; 3000; 1025]) (efficiency top).
Proof.
  apply (find_all_cuts_first_is_optimal 6000 [(3000, 2); (1025, 3)]
           [1025; 3000; 1025]).
  - split; [|split].
    + repeat constructor; simpl; intuition lia.
    + intros k [<-|[<-|[]]]; simpl; lia.
    + intros k q [H|[H|[]]]; injection H as <- <-; lia.
  - split; [discriminate|]. split; [vm_compute; discriminate|].
    intros k [<-|[<-|[<-|[]]]]; eexists; (split; [reflexivity|]);
      vm_compute; discriminate.
Defined.

Lemma nothing_accepted (raw_length : Z) (desired_cuts : dict) :
  (forall k, In k (keys desired_cuts) -> 0 < k) ->
  (forall k, In k (available_lengths_of desired_cuts) -> raw_length < k) ->
  filter (accepted raw_length desired_cuts) (generated desired_cuts) = [].
Proof.
  intros Hpos Hbig.
  destruct (filter _ _) as [|c cs] eqn:E; [reflexivity|]. exfalso.
  assert (H : In c (filter (accepted raw_length desired_cuts)
                           (generated desired_cuts))).
  { rewrite E. left. reflexivity. }
  apply filter_In in H. destruct H as [Hg Hacc].
  destruct (generated_nonempty _ _ Hg) as [Hne Hincl].
  unfold accepted, fits in Hacc. apply andb_prop in Hacc.
  destruct Hacc as [Hfit _]. apply Z.leb_le in Hfit.
  destruct c as [|x c]; [congruence|].
  assert (Hx : raw_length < x) by (apply Hbig, Hincl; left; reflexivity).
  assert (x <= sum (x :: c)); [|lia].
  apply sum_nonneg_bound; [|left; reflexivity].
  intros y Hy. apply Z.lt_le_incl, Hpos, available_lengths_keys, Hincl, Hy.
Qed.

Lemma single_piece_feasible (raw_length : Z) (desired_cuts : dict) (k : Z) :
  NoDup (keys desired_cuts) ->
  In k (available_lengths_of desired_cuts) ->
  k <= raw_length ->
  feasible raw_length desired_cuts [k].
Proof.
  intros Hnd Hk Hfit. split; [discriminate|]. split.
  - rewrite sum_cons, sum_nil. lia.
  - intros k' [<-|[]].
    destruct (available_lengths_positive _ _ Hk) as [q [Hin Hq]].
    exists q. split; [apply dict_get_unique; assumption|].
    rewrite occurrences_cons, Z.eqb_refl.
    change (occurrences k []) with 0. lia.
Qed.

Lemma empty_result_iff (raw_length : Z) (desired_cuts : dict) :
  length_quantity desired_cuts ->
  find_all_cuts raw_length desired_cuts = Ok [] <->
  forall k, In k (available_lengths_of desired_cuts) -> raw_length < k.
Proof.
  intros Hlq. pose proof Hlq as [Hnd [Hpos Hnonneg]]. split.
  - intros E k Hk. destruct (Z_lt_le_dec raw_length k) as [L|L]; [exact L|].
    exfalso.
    destruct (optimal_head raw_length desired_cuts [k] Hlq
                (single_piece_feasible _ _ _ Hnd Hk L))
      as [top [rest [E' _]]].
    congruence.
  - intros Hbig. rewrite (find_all_cuts_positive _ _ Hpos).
    rewrite (nothing_accepted _ _ Hpos Hbig). reflexivity.
Qed.

(** X3. For a dictionary of positive lengths with non-negative quantities,
    [find_all_cuts] returns the empty list exactly when every length with a
    positive quantity is longer than the raw length; as soon as one
    selected piece fits, something is returned. *)
Theorem find_all_cuts_empty_iff (raw_length : Z) (desired_cuts : dict) :
  length_quantity desired_cuts ->
  find_all_cuts raw_length desired_cuts = Ok [] <->
  forall k, In k (available_lengths_of desired_cuts) -> raw_length < k.
Proof. exact (empty_result_iff raw_length desired_cuts). Qed.

Lemma find_all_cuts_empty_iff_witness :
  find_all_cuts 1000 [(515, 0); (1025, 1)] = Ok [] <->
  forall k, In k (available_lengths_of [(515, 0); (1025, 1)]) -> 1000 < k.
Proof.
  apply (find_all_cuts_empty_iff 1000 [(515, 0); (1025, 1)]).
  split; [|split].
  - repeat constructor; simpl; intuition lia.
  - intros k [<-|[<-|[]]]; simpl; lia.
  - intros k q [H|[H|[]]]; injection H as <- <-; lia.
Defined.

(** * Order of ties and distinctness *)

Lemma StronglySorted_app_intro {A : Type} (R : A -> A -> Prop)
  (l1 l2 : list A) :
  StronglySorted R l1 -> StronglySorted R l2 ->
  (forall a b, In a l1 -> In b l2 -> R a b) ->
  StronglySorted R (l1 ++ l2).
Proof.
  induction 1 as [|x l1 Hs IH Hall]; intros H2 Hcross; simpl; [exact H2|].
  constructor.
  - apply IH; [exact H2|]. intros a b Ha Hb. apply Hcross; [right|]; assumption.
  - apply Forall_app. split; [exact Hall|].
    apply Forall_forall. intros b Hb. apply Hcross; [left; reflexivity|exact Hb].
Qed.

Lemma StronglySorted_pairs {A : Type} (R : A -> A -> Prop) (l : list A) :
  (forall a b, In a l -> In b l -> R a b) -> StronglySorted R l.
Proof.
  induction l as [|x l IH]; intros H; constructor.
  - apply IH. intros a b Ha Hb. apply H; right; assumption.
  - apply Forall_forall. intros b Hb. apply H; [left; reflexivity | right; exact Hb].
Qed.

Lemma StronglySorted_filter {A : Type} (R : A -> A -> Prop) (f : A -> bool)
  (l : list A) :
  StronglySorted R l -> StronglySorted R (filter f l).
Proof.
  induction 1 as [|x l Hs IH Hall]; simpl; [constructor|].
  destruct (f x); [|exact IH]. constructor; [exact IH|].
  rewrite Forall_forall in *. intros y Hy. apply filter_In in Hy. apply Hall, Hy.
Qed.

Lemma StronglySorted_map {A B : Type} (R : B -> B -> Prop) (g : A -> B)
  (l : list A) :
  StronglySorted (fun a b => R (g a) (g b)) l -> StronglySorted R (map g l).
Proof.
  induction 1 as [|x l Hs IH Hall]; simpl; constructor; [exact IH|].
  rewrite Forall_forall in *. intros y Hy. apply in_map_iff in Hy.
  destruct Hy as [a [<- Ha]]. apply Hall, Ha.
Qed.

(** Smaller sizes are generated first. *)
Lemma sizes_ascending (pool : list Z) (start n : nat) :
  StronglySorted (fun c d : list Z => (length c <= length d)%nat)
    (concat (map (combinations_with_replacement pool) (seq start n))).
Proof.
  revert start. induction n as [|n IH]; intros start; simpl; [constructor|].
  apply StronglySorted_app_intro.
  - apply StronglySorted_pairs. intros a b Ha Hb.
    rewrite (proj1 (cwr_spec _ _ _ Ha)), (proj1 (cwr_spec _ _ _ Hb)). lia.
  - apply IH.
  - intros a b Ha Hb. apply in_concat in Hb. destruct Hb as [l [Hl Hb]].
    apply in_map_iff in Hl. destruct Hl as [size [<- Hs]].
    apply in_seq in Hs.
    rewrite (proj1 (cwr_spec _ _ _ Ha)), (proj1 (cwr_spec _ _ _ Hb)). lia.
Qed.

(** The sort is stable: two entries with the same key stay in the order
    they had. *)
Lemma insert_by_key_stable (T : cut -> cut -> Prop) (x : cut)
  (l : list cut) :
  StronglySorted (fun a b => tie a b -> T a b) l ->
  Forall (T x) l ->
  StronglySorted (fun a b => tie a b -> T a b) (insert_by_key x l).
Proof.
  induction 1 as [|y l Hs IH Hall]; intros Hx; simpl.
  - repeat constructor.
  - inversion Hx as [|? ? Hxy Hxl]; subst.
    destruct (key_leb (sort_key x) (sort_key y)) eqn:E.
    + constructor; [constructor; assumption|].
      eapply Forall_impl; [|exact Hx]. intros z Hz _. exact Hz.
    + constructor; [apply IH, Hxl|].
      eapply Permutation_Forall.
      * symmetry. apply insert_by_key_perm.
      * constructor; [|exact Hall].
        intros [_ Habs]. unfold key_le in Habs. congruence.
Qed.

Lemma list_sort_stable (T : cut -> cut -> Prop) (l : list cut) :
  StronglySorted T l ->
  StronglySorted (fun a b => tie a b -> T a b) (list_sort l).
Proof.
  induction 1 as [|x l Hs IH Hall]; simpl; [constructor|].
  apply insert_by_key_stable; [exact IH|].
  eapply Permutation_Forall; [|exact Hall].
  symmetry. apply list_sort_perm.
Qed.


Lemma flt_not_feq (a b : pyfloat) : flt a b -> ~ feq a b.
Proof. float_cases. Qed.

(** Two entries have the same sort key exactly when their efficiencies and
    their wastes are equal. *)
Lemma tie_iff (a b : cut) :
  tie a b <-> feq (efficiency a) (efficiency b) /\ waste a = waste b.
Proof.
  unfold tie, key_le. rewrite !key_leb_iff. unfold sort_key. cbn [fst snd].
  rewrite !flt_fneg, !feq_fneg. split.
  - intros [[L|[E W]] [L'|[E' W']]].
    + exfalso. apply (flt_irrefl (efficiency a)).
      apply (flt_trans _ (efficiency b)); assumption.
    + exfalso. apply (flt_not_feq _ _ L). exact E'.
    + exfalso. apply (flt_not_feq _ _ L'). exact E.
    + split; [exact E | lia].
  - intros [E W]. split; right; (split; [|lia]).
    + exact E.
    + apply feq_sym, E.
Qed.

Lemma StronglySorted_weaken_in {A : Type} (R R' : A -> A -> Prop)
  (l : list A) :
  (forall a b, In a l -> In b l -> R a b -> R' a b) ->
  StronglySorted R l -> StronglySorted R' l.
Proof.
  intros H Hs. induction Hs as [|x l Hs IH Hall]; constructor.
  - apply IH. intros a b Ha Hb. apply H; right; assumption.
  - rewrite Forall_forall in *. intros y Hy.
    apply H; [left; reflexivity | right; exact Hy | apply Hall, Hy].
Qed.

Lemma ties_by_pieces (raw_length : Z) (desired_cuts : dict) :
  StronglySorted
    (fun a b => tie a b -> pieces a <= pieces b)
    (firstn 5
       (list_sort
          (map (entry raw_length)
               (filter (accepted raw_length desired_cuts)
                       (generated desired_cuts))))).
Proof.
  apply StronglySorted_firstn, list_sort_stable, StronglySorted_map.
  apply StronglySorted_filter. unfold generated, range.
  eapply StronglySorted_weaken; [|apply sizes_ascending].
  intros a b H. cbn beta in H. cbn [entry pieces]. unfold len. lia.
Qed.

Lemma pow_50_1022 : 2 ^ 50 <= 2 ^ 1022.
Proof. apply Z.pow_le_mono_r; lia. Qed.

(** Up to a raw length of [2^50] equal computed efficiencies mean equal
    totals. *)
Lemma equal_efficiency_equal_total (raw_length t1 t2 : Z) :
  0 < t1 <= raw_length -> 0 < t2 <= raw_length -> raw_length <= 2 ^ 50 ->
  feq (effv t1 raw_length) (effv t2 raw_length) -> t1 = t2.
Proof.
  intros H1 H2 Hb E. pose proof pow_50_1022 as Hp.
  set (B := 2 ^ 50) in *. set (B' := 2 ^ 1022) in *.
  destruct (Z.lt_trichotomy t1 t2) as [L|[L|L]]; [|exact L|]; exfalso.
  - apply (flt_not_feq (effv t1 raw_length) (effv t2 raw_length));
      [|exact E].
    apply effv_strict; fold B; fold B'; lia.
  - apply (flt_not_feq (effv t2 raw_length) (effv t1 raw_length));
      [|apply feq_sym, E].
    apply effv_strict; fold B; fold B'; lia.
Qed.

(** X4. Among returned entries with the same sort key (equal computed
    efficiency and equal waste) the one with fewer pieces comes first: the
    sort is stable and smaller combination sizes are generated first.  With
    positive lengths and a raw length of at most [2^50], equal computed
    efficiencies already mean equal totals, so there fewer pieces come
    first among all entries of equal efficiency. *)
Theorem find_all_cuts_ties_fewer_pieces_first
  (raw_length : Z) (desired_cuts : dict) :
  0 < raw_length ->
  (forall results,
      find_all_cuts raw_length desired_cuts = Ok results ->
      StronglySorted
        (fun a b => feq (efficiency a) (efficiency b) ->
                    waste a = waste b -> pieces a <= pieces b)
        results) /\
  ((forall k, In k (keys desired_cuts) -> 0 < k) ->
   raw_length <= 2 ^ 50 ->
   exists results,
     find_all_cuts raw_length desired_cuts = Ok results /\
     StronglySorted
       (fun a b => feq (efficiency a) (efficiency b) ->
                   pieces a <= pieces b)
       results).
Proof.
  intros Hraw. split.
  - intros results E. rewrite (find_all_cuts_value _ _ _ E).
    eapply StronglySorted_weaken; [|apply ties_by_pieces].
    intros a b H Ee Ew. apply H, tie_iff. split; assumption.
  - intros Hpos Hb. eexists. split; [apply find_all_cuts_positive, Hpos|].
    pose proof (find_all_cuts_positive raw_length desired_cuts Hpos) as E.
    eapply StronglySorted_weaken_in; [|apply ties_by_pieces].
    intros a b Ha Hb' H Ee.
    destruct (results_are_entries _ _ _ _ E Ha) as [c [-> [Hc Hca]]].
    destruct (results_are_entries _ _ _ _ E Hb') as [d [-> [Hd Hda]]].
    apply H, tie_iff. split; [exact Ee|].
    cbn [entry efficiency waste] in *. f_equal.
    apply (equal_efficiency_equal_total raw_length);
      [apply (accepted_unit _ _ _ Hpos Hc Hca)
      |apply (accepted_unit _ _ _ Hpos Hd Hda)
      |exact Hb
      |exact Ee].
Qed.

Lemma find_all_cuts_ties_fewer_pieces_first_witness :
  (forall results,
      find_all_cuts 6000 [(1000, 4); (2000, 2)] = Ok results ->
      StronglySorted
        (fun a b => feq (efficiency a) (efficiency b) ->
                    waste a = waste b -> pieces a <= pieces b)
        results) /\
  ((forall k, In k (keys [(1000, 4); (2000, 2)]) -> 0 < k) ->
   6000 <= 2 ^ 50 ->
   exists results,
     find_all_cuts 6000 [(1000, 4); (2000, 2)] = Ok results /\
     StronglySorted
       (fun a b => feq (efficiency a) (efficiency b) ->
                   pieces a <= pieces b)
       results).
Proof.
  apply (find_all_cuts_ties_fewer_pieces_first 6000 [(1000, 4); (2000, 2)]).
  lia.
Defined.

(** Beyond that bound the computed efficiencies of different totals do
    tie, and the waste decides, not the piece count: at raw length
    [2^1080] every efficiency is 0.0 and the two-piece entry comes
    first. *)
Lemma efficiency_ties_across_totals :
  exists r1 r2 r3,
    find_all_cuts (2 ^ 1080) [(3, 1); (2, 1)] = Ok [r1; r2; r3] /\
    combination r1 = [3; 2] /\ combination r2 = [3] /\
    combination r3 = [2] /\
    feq (efficiency r1) (efficiency r2) /\
    pieces r2 < pieces r1.
Proof.
  do 3 eexists. split; [vm_compute; reflexivity|].
  repeat split; vm_compute; congruence.
Qed.

Lemma NoDup_map_cons {A : Type} (x : A) (l : list (list A)) :
  NoDup l -> NoDup (map (cons x) l).
Proof.
  induction 1 as [|c l Hnotin Hnd IH]; simpl; constructor; [|exact IH].
  intros Hin. apply in_map_iff in Hin. destruct Hin as [c' [E Hc']].
  injection E as ->. contradiction.
Qed.

Lemma cwr_nodup (r : nat) :
  forall pool, NoDup pool -> NoDup (combinations_with_replacement pool r).
Proof.
  induction r as [|r IHr]; intros pool Hnd.
  - simpl. repeat constructor. intros [].
  - induction Hnd as [|x p Hnotin Hnd IHp].
    + rewrite cwr_nil. constructor.
    + rewrite cwr_cons. apply NoDup_app.
      * apply NoDup_map_cons. apply IHr. constructor; assumption.
      * exact IHp.
      * intros c Hc Hc'. apply in_map_iff in Hc. destruct Hc as [c0 [<- _]].
        apply Hnotin. apply (cwr_spec _ _ _ Hc'). left. reflexivity.
Qed.

Lemma available_lengths_nodup (desired_cuts : dict) :
  NoDup (keys desired_cuts) -> NoDup (available_lengths_of desired_cuts).
Proof.
  unfold available_lengths_of, items, keys.
  induction desired_cuts as [|[k q] d IH]; simpl; intros Hnd; [constructor|].
  inversion Hnd as [|? ? Hnotin Hnd']; subst.
  destruct (q >? 0); simpl; [|apply IH, Hnd'].
  constructor; [|apply IH, Hnd'].
  intros Hin. apply Hnotin. apply in_map_iff in Hin.
  destruct Hin as [item [E Hi]]. apply filter_In in Hi.
  rewrite <- E. apply in_map, Hi.
Qed.

Lemma sizes_nodup (pool : list Z) (start n : nat) :
  NoDup pool ->
  NoDup (concat (map (combinations_with_replacement pool) (seq start n))).
Proof.
  intros Hnd. revert start. induction n as [|n IH]; intros start; simpl;
    [constructor|].
  apply NoDup_app.
  - apply cwr_nodup, Hnd.
  - apply IH.
  - intros c Hc Hc'. apply in_concat in Hc'. destruct Hc' as [l [Hl Hc']].
    apply in_map_iff in Hl. destruct Hl as [size [<- Hs]].
    apply in_seq in Hs.
    pose proof (proj1 (cwr_spec _ _ _ Hc)).
    pose proof (proj1 (cwr_spec _ _ _ Hc')). lia.
Qed.

Lemma NoDup_firstn {A : Type} (n : nat) (l : list A) :
  NoDup l -> NoDup (firstn n l).
Proof.
  intros H. rewrite <- (firstn_skipn n l) in H.
  apply NoDup_app_remove_r in H. exact H.
Qed.

Lemma distinct_combinations (raw_length : Z) (desired_cuts : dict) :
  NoDup (keys desired_cuts) ->
  NoDup
    (map combination
       (firstn 5
          (list_sort
             (map (entry raw_length)
                  (filter (accepted raw_length desired_cuts)
                          (generated desired_cuts)))))).
Proof.
  intros Hnd. rewrite <- firstn_map. apply NoDup_firstn.
  set (kept := filter _ _).
  apply (Permutation_NoDup
           (l := map combination (map (entry raw_length) kept))).
  - apply Permutation_map. symmetry. apply list_sort_perm.
  - rewrite map_map. cbn [entry combination]. rewrite map_id.
    unfold kept. apply NoDup_filter. unfold generated, range.
    apply sizes_nodup, available_lengths_nodup, Hnd.
Qed.

(** A generated multiset is written in pool order, so two generated
    multisets with the same pieces are the same tuple. *)

Lemma cwr_split (x : Z) (p : list Z) (r : nat) :
  forall c,
    In c (combinations_with_replacement (x :: p) r) ->
    exists i c', c = repeat x i ++ c' /\
                 In c' (combinations_with_replacement p (r - i)).
Proof.
  induction r as [|r IH]; intros c Hc.
  - exists 0%nat, c. split; [reflexivity|]. destruct Hc as [<-|[]].
    left. reflexivity.
  - rewrite cwr_cons in Hc. apply in_app_or in Hc. destruct Hc as [Hc|Hc].
    + apply in_map_iff in Hc. destruct Hc as [c0 [<- Hc0]].
      destruct (IH c0 Hc0) as [i [c' [-> Hc']]].
      exists (S i), c'. split; [reflexivity | exact Hc'].
    + exists 0%nat, c. split; [reflexivity | exact Hc].
Qed.


Lemma cwr_canonical (pool : list Z) :
  NoDup pool ->
  forall r s c d,
    In c (combinations_with_replacement pool r) ->
    In d (combinations_with_replacement pool s) ->
    Permutation c d -> c = d.
Proof.
  induction 1 as [|x p Hnotin Hnd IH]; intros r s c d Hc Hd Hperm.
  - destruct (cwr_spec _ _ _ Hc) as [_ Hic].
    destruct (cwr_spec _ _ _ Hd) as [_ Hid].
    destruct c as [|y c]; [|destruct (Hic y (or_introl eq_refl))].
    destruct d as [|y d]; [|destruct (Hid y (or_introl eq_refl))].
    reflexivity.
  - destruct (cwr_split _ _ _ _ Hc) as [i [c' [-> Hc']]].
    destruct (cwr_split _ _ _ _ Hd) as [j [d' [-> Hd']]].
    assert (Hxc : ~ In x c').
    { intros H. apply Hnotin. apply (cwr_spec _ _ _ Hc'), H. }
    assert (Hxd : ~ In x d').
    { intros H. apply Hnotin. apply (cwr_spec _ _ _ Hd'), H. }
    assert (Hij : i = j).
    { pose proof (occurrences_permutation x _ _ Hperm) as E.
      rewrite !occurrences_app, !occurrences_repeat in E.
      rewrite (occurrences_absent _ _ Hxc), (occurrences_absent _ _ Hxd) in E.
      lia. }
    subst j. f_equal.
    apply Permutation_app_inv_l in Hperm.
    apply (IH _ _ _ _ Hc' Hd' Hperm).
Qed.

Lemma generated_canonical (desired_cuts : dict) (c d : list Z) :
  NoDup (keys desired_cuts) ->
  In c (generated desired_cuts) -> In d (generated desired_cuts) ->
  Permutation c d -> c = d.
Proof.
  intros Hnd Hc Hd. apply generated_spec in Hc, Hd.
  destruct Hc as [r [_ [_ Hc]]]. destruct Hd as [s [_ [_ Hd]]].
  apply (cwr_canonical _ (available_lengths_nodup _ Hnd) r s); assumption.
Qed.


(** X5. For a dictionary (unique keys), no combination is returned twice,
    not even with its pieces in another order: the entries of any returned
    result are pairwise different multisets; with positive lengths a result
    is returned for every raw length. *)
Theorem find_all_cuts_distinct (raw_length : Z) (desired_cuts : dict) :
  NoDup (keys desired_cuts) ->
  (forall results,
      find_all_cuts raw_length desired_cuts = Ok results ->
      NoDup (map combination results) /\
      forall a b, In a results -> In b results ->
                  Permutation (combination a) (combination b) -> a = b) /\
  ((forall k, In k (keys desired_cuts) -> 0 < k) ->
   exists results, find_all_cuts raw_length desired_cuts = Ok results).
Proof.
  intros Hnd. split.
  - intros results E. split.
    + rewrite (find_all_cuts_value _ _ _ E).
      apply distinct_combinations, Hnd.
    + intros a b Ha Hb Hperm.
      destruct (results_are_entries _ _ _ _ E Ha) as [c [-> [Hc _]]].
      destruct (results_are_entries _ _ _ _ E Hb) as [d [-> [Hd _]]].
      cbn [entry combination] in Hperm.
      rewrite (generated_canonical _ _ _ Hnd Hc Hd Hperm). reflexivity.
  - intros Hpos. eexists. apply find_all_cuts_positive, Hpos.
Qed.

Lemma find_all_cuts_distinct_witness :
  (forall results,
      find_all_cuts 6000 [(1000, 4); (2000, 2)] = Ok results ->
      NoDup (map combination results) /\
      forall a b, In a results -> In b results ->
                  Permutation (combination a) (combination b) -> a = b) /\
  ((forall k, In k (keys [(1000, 4); (2000, 2)]) -> 0 < k) ->
   exists results, find_all_cuts 6000 [(1000, 4); (2000, 2)] = Ok results).
Proof.
  apply (find_all_cuts_distinct 6000 [(1000, 4); (2000, 2)]).
  repeat constructor; simpl; intuition lia.
Defined.

Lemma canonical_images (raw_length : Z) (desired_cuts : dict)
  (combos : list (list Z)) :
  NoDup (keys desired_cuts) ->
  (forall k q, In (k, q) desired_cuts -> 0 <= q) ->
  Forall (feasible raw_length desired_cuts) combos ->
  ForallOrdPairs (fun c d => ~ Permutation c d) combos ->
  exists images,
    length images = length combos /\
    NoDup images /\
    incl images (filter (accepted raw_length desired_cuts)
                        (generated desired_cuts)) /\
    forall c', In c' images -> exists c, In c combos /\ Permutation c c'.
Proof.
  intros Hnd Hnonneg Hfeas Hpairs.
  induction Hpairs as [|c cs Hc Hcs IH].
  - exists []. repeat split; [constructor | intros x [] | intros x []].
  - inversion Hfeas as [|? ? Hfc Hfcs]; subst.
    destruct (IH Hfcs) as [images [Hlen [Hnd' [Hincl Hsrc]]]].
    destruct (feasible_generated _ _ _ Hnd Hnonneg Hfc) as [c' [Hperm Hin]].
    exists (c' :: images). split; [simpl; congruence|]. split; [|split].
    + constructor; [|exact Hnd']. intros Hdup.
      destruct (Hsrc c' Hdup) as [d [Hd Hpd]].
      rewrite Forall_forall in Hc. apply (Hc d Hd).
      apply (Permutation_trans Hperm). symmetry. exact Hpd.
    + intros x [<-|Hx]; [exact Hin | apply Hincl, Hx].
    + intros x [<-|Hx].
      * exists c. split; [left; reflexivity | exact Hperm].
      * destruct (Hsrc x Hx) as [d [Hd Hpd]]. exists d.
        split; [right; exact Hd | exact Hpd].
Qed.

(** X6. For a dictionary of positive lengths with non-negative quantities:
    given any list of feasible multisets, no two of them the same up to
    order, [find_all_cuts] returns at least as many entries as the list
    has, up to the cap of 5; so with five different feasible multisets
    exactly the top 5 come back. *)
Theorem find_all_cuts_fills_top5
  (raw_length : Z) (desired_cuts : dict) (combos : list (list Z)) :
  length_quantity desired_cuts ->
  Forall (feasible raw_length desired_cuts) combos ->
  ForallOrdPairs (fun c d => ~ Permutation c d) combos ->
  exists results,
    find_all_cuts raw_length desired_cuts = Ok results /\
    (Nat.min 5 (length combos) <= length results)%nat /\
    (length results <= 5)%nat.
Proof.
  intros [Hnd [Hpos Hnonneg]] Hfeas Hpairs. eexists. split.
  - apply find_all_cuts_positive, Hpos.
  - destruct (canonical_images _ _ _ Hnd Hnonneg Hfeas Hpairs)
      as [images [Hlen [Hnd' [Hincl _]]]].
    pose proof (NoDup_incl_length Hnd' Hincl) as Hle.
    rewrite length_firstn, (Permutation_length (list_sort_perm _)), length_map.
    lia.
Qed.

Lemma find_all_cuts_fills_top5_witness :
  exists results,
    find_all_cuts 6000 [(1000, 4); (2000, 2)] = Ok results /\
    (Nat.min 5 (length [[1000]; [2000; 1000]; [1000; 1000; 1000]])
     <= length results)%nat /\
    (length results <= 5)%nat.
Proof.
  apply (find_all_cuts_fills_top5 6000 [(1000, 4); (2000, 2)]
           [[1000]; [2000; 1000]; [1000; 1000; 1000]]).
  - split; [|split].
    + repeat constructor; simpl; intuition lia.
    + intros k [<-|[<-|[]]]; simpl; lia.
    + intros k q [H|[H|[]]]; injection H as <- <-; lia.
  - repeat constructor; try discriminate; try (vm_compute; discriminate);
      intros k Hk; simpl in Hk;
      repeat (destruct Hk as [<-|Hk]; [eexists; split;
                                       [reflexivity | vm_compute; discriminate]|]);
      destruct Hk.
  - repeat first [ apply FOP_nil | apply FOP_cons
                 | apply Forall_nil | apply Forall_cons ];
      intros Hp; apply Permutation_length in Hp; discriminate.
Defined.

(** * More properties of [suggest_optimal_quantities] *)

Lemma consider_skip (raw_length : Z) (combo : list Z) (b : best) :
  raw_length < sum combo -> consider raw_length combo b = Ok b.
Proof.
  intros H. unfold consider.
  destruct (sum combo <=? raw_length) eqn:E; [|reflexivity].
  apply Z.leb_le in E. lia.
Qed.

Lemma search_skip (raw_length : Z) (combos : list (list Z)) (b : best) :
  (forall c, In c combos -> raw_length < sum c) ->
  for_each combos (consider raw_length) b = Ok b.
Proof.
  induction combos as [|c combos IH]; intros H; simpl; [reflexivity|].
  rewrite consider_skip by (apply H; left; reflexivity). simpl.
  apply IH. intros d Hd. apply H. right. exact Hd.
Qed.

Lemma suggest_below_1030 (raw_length : Z) :
  raw_length < 1030 -> suggest_optimal_quantities raw_length = Ok all_zero.
Proof.
  intros H. unfold suggest_optimal_quantities.
  rewrite search_candidates, search_skip.
  - reflexivity.
  - intros c Hc. pose proof (candidates_total c Hc). lia.
Qed.

(** The multiset behind the suggestion: empty, or the fitting candidate of
    greatest total length. *)

Lemma pow_50_large : 24000 <= 2 ^ 50.
Proof. apply Z.leb_le. reflexivity. Qed.

Lemma underflow_above_normal : 2 ^ 1022 < underflow_from.
Proof.
  unfold underflow_from.
  assert (H : 2 ^ 1022 <= 2 ^ 1075) by (apply Z.pow_le_mono_r; lia).
  assert (0 < 2 ^ 1022) by (apply Z.pow_pos_nonneg; lia).
  set (a := 2 ^ 1022) in *. set (b := 2 ^ 1075) in *. lia.
Qed.

(** The multiset behind the suggestion: empty, or a fitting candidate; up
    to a raw length of [2^1022] it is the fitting candidate of greatest
    total length. *)
Lemma suggest_total (raw_length : Z) :
  exists w,
    suggest_optimal_quantities raw_length = Ok (quantities_of w) /\
    incl w CUT_LENGTHS /\
    (w = [] /\ (raw_length < 1030 \/ underflow_from <= raw_length) \/
     In w candidates /\ sum w <= raw_length /\
     1030 <= raw_length < underflow_from) /\
    (raw_length <= 2 ^ 1022 ->
     forall c, In c candidates -> sum c <= raw_length -> sum c <= sum w).
Proof.
  destruct (suggest_cases raw_length)
    as [[Hout E]|[Hmid [w [before [after [Hf [Hp [Hb [Ha E]]]]]]]]].
  - exists []. rewrite <- all_zero_quantities. split; [exact E|].
    split; [intros x []|]. split; [left; split; [reflexivity | exact Hout]|].
    intros Hn c Hc Hfit. pose proof (candidates_total c Hc).
    pose proof underflow_above_normal.
    set (B := 2 ^ 1022) in *. lia.
  - exists w. split; [exact E|].
    destruct (winner_candidate _ _ _ _ Hf) as [Hw Hfit].
    split; [apply (candidates_spec w Hw)|]. split; [right; tauto|].
    intros Hn c Hc Hc_fit.
    assert (H : In c (filter (fits raw_length) candidates))
      by (apply fits_candidate; tauto).
    assert (Hle : fle (eff raw_length c) (eff raw_length w)).
    { rewrite Hf in H. apply in_app_or in H. destruct H as [H|[<-|H]].
      - apply flt_fle, Hb, H.
      - apply fle_refl.
      - apply Ha, H. }
    destruct (Z_le_gt_dec (sum c) (sum w)) as [L|L]; [exact L|]. exfalso.
    apply (fle_not_flt _ _ Hle). unfold eff.
    pose proof (candidates_total w Hw).
    pose proof (candidates_total_upper w Hw).
    pose proof pow_50_large.
    set (B := 2 ^ 50) in *.
    apply effv_strict; fold B; lia.
Qed.

(** X7. [suggest_optimal_quantities] raises nothing for any integer raw
    length, zero and negative ones included (the division is reached only
    with a raw length of at least 1030); it always returns a mapping over
    the catalog keys, and below 1030 the all-zero mapping. *)
Theorem suggest_never_raises (raw_length : Z) :
  (exists m, suggest_optimal_quantities raw_length = Ok m /\
             keys m = CUT_LENGTHS) /\
  (raw_length < 1030 ->
   suggest_optimal_quantities raw_length = Ok all_zero).
Proof.
  split; [|apply suggest_below_1030].
  destruct (suggest_total raw_length) as [w [E _]].
  exists (quantities_of w). split; [exact E | apply keys_quantities_of].
Qed.

Lemma suggest_never_raises_witness :
  suggest_optimal_quantities 0 = Ok all_zero.
Proof.
  apply (proj2 (suggest_never_raises 0)). lia.
Defined.

(** X8. Up to a raw length of [2^1022] the quantities
    [suggest_optimal_quantities] returns stand for the greatest total
    length that 2 to 4 catalog pieces reach within the raw length: every
    fitting candidate is at most as long as the suggested pieces together,
    and the suggested pieces fit; when some candidate sums to the raw
    length exactly, so does the suggestion. *)
Theorem suggest_greatest_total (raw_length : Z) (c : list Z) :
  raw_length <= 2 ^ 1022 ->
  In c candidates -> sum c <= raw_length ->
  exists m,
    suggest_optimal_quantities raw_length = Ok m /\
    sum c <= weighted_total m /\
    weighted_total m <= raw_length /\
    (sum c = raw_length -> weighted_total m = raw_length).
Proof.
  intros Hn Hc Hfit.
  destruct (suggest_total raw_length) as [w [E [Hincl [Hw Hmax]]]].
  exists (quantities_of w). split; [exact E|].
  rewrite weighted_total_quantities_of by exact Hincl.
  pose proof (Hmax Hn c Hc Hfit) as Hle.
  pose proof (candidates_total c Hc) as Hc1030.
  assert (Hwfit : sum w <= raw_length).
  { destruct Hw as [[-> _]|[_ [L _]]]; [rewrite sum_nil|]; lia. }
  repeat split; lia.
Qed.

Lemma suggest_greatest_total_witness :
  exists m,
    suggest_optimal_quantities 6000 = Ok m /\
    sum [515; 515] <= weighted_total m /\
    weighted_total m <= 6000 /\
    (sum [515; 515] = 6000 -> weighted_total m = 6000).
Proof.
  apply (suggest_greatest_total 6000 [515; 515]).
  - apply Z.leb_le. vm_compute. reflexivity.
  - apply smallest_candidate.
  - vm_compute. discriminate.
Defined.

(** X9. Up to a raw length of [2^1022] a longer raw length never gets a
    shorter suggestion: the total length of the suggested pieces is
    monotone in the raw length. *)
Theorem suggest_monotone (raw1 raw2 : Z) :
  raw1 <= raw2 -> raw2 <= 2 ^ 1022 ->
  exists m1 m2,
    suggest_optimal_quantities raw1 = Ok m1 /\
    suggest_optimal_quantities raw2 = Ok m2 /\
    weighted_total m1 <= weighted_total m2.
Proof.
  intros Hle Hn.
  destruct (suggest_total raw1) as [w1 [E1 [Hi1 [Hw1 _]]]].
  destruct (suggest_total raw2) as [w2 [E2 [Hi2 [Hw2 Hmax2]]]].
  exists (quantities_of w1), (quantities_of w2).
  split; [exact E1|]. split; [exact E2|].
  rewrite !weighted_total_quantities_of by assumption.
  destruct Hw1 as [[-> _]|[Hc1 [Hfit1 _]]].
  - rewrite sum_nil. destruct Hw2 as [[-> _]|[Hc2 _]].
    + rewrite sum_nil. lia.
    + pose proof (candidates_total w2 Hc2). lia.
  - apply (Hmax2 Hn); [exact Hc1 | lia].
Qed.

Lemma suggest_monotone_witness :
  exists m1 m2,
    suggest_optimal_quantities 3000 = Ok m1 /\
    suggest_optimal_quantities 6000 = Ok m2 /\
    weighted_total m1 <= weighted_total m2.
Proof.
  apply (suggest_monotone 3000 6000).
  - lia.
  - apply Z.leb_le. vm_compute. reflexivity.
Defined.

(** * The suggestion fed back into [find_all_cuts] *)

Lemma sum_map_le_eq {A : Type} (f g : A -> Z) (l : list A) :
  (forall a, In a l -> f a <= g a) ->
  sum (map g l) <= sum (map f l) ->
  forall a, In a l -> f a = g a.
Proof.
  induction l as [|x l IH]; intros Hle Hsum a Ha; [destruct Ha|].
  simpl map in Hsum. rewrite !sum_cons in Hsum.
  assert (Hx : f x <= g x) by (apply Hle; left; reflexivity).
  assert (Hl : sum (map f l) <= sum (map g l)).
  { apply sum_map_le. intros b Hb. apply Hle. right. exact Hb. }
  destruct Ha as [<-|Ha]; [lia|].
  apply IH; [|lia|exact Ha]. intros b Hb. apply Hle. right. exact Hb.
Qed.

Lemma quantities_of_length_quantity (w : list Z) :
  length_quantity (quantities_of w).
Proof.
  split; [|split].
  - rewrite keys_quantities_of. apply CUT_LENGTHS_nodup.
  - rewrite keys_quantities_of. intros k Hk.
    pose proof (CUT_LENGTHS_lower k Hk). lia.
  - intros k q Hi. unfold quantities_of in Hi. apply in_map_iff in Hi.
    destruct Hi as [x [E _]]. injection E as _ <-. apply occurrences_nonneg.
Qed.


Lemma suggestion_is_best_cut (raw_length : Z) (w : list Z) :
  w <> [] -> incl w CUT_LENGTHS -> sum w <= raw_length ->
  exists top rest,
    find_all_cuts raw_length (quantities_of w) = Ok (top :: rest) /\
    total_length top = sum w /\
    forall k, occurrences k (combination top) = occurrences k w.
Proof.
  intros Hne Hincl Hfit.
  pose proof (quantities_of_length_quantity w) as Hlq.
  assert (Hfeas : feasible raw_length (quantities_of w) w).
  { split; [exact Hne|]. split; [exact Hfit|].
    intros k Hk. exists (occurrences k w).
    split; [apply dict_get_quantities_of, Hincl, Hk | lia]. }
  destruct (optimal_head raw_length _ w Hlq Hfeas)
    as [top [rest [E [[Htne [Htfit Htq]] [Htot [Hge _]]]]]].
  exists top, rest. split; [exact E|].
  assert (Htincl : incl (combination top) CUT_LENGTHS).
  { intros k Hk. destruct (Htq k Hk) as [q [Hget _]].
    apply dict_get_some_in in Hget. rewrite <- (keys_quantities_of w).
    change k with (fst (k, q)). apply in_map, Hget. }
  assert (Hpoint : forall k, In k CUT_LENGTHS ->
                     k * occurrences k (combination top)
                     <= k * occurrences k w).
  { intros k Hk. pose proof (CUT_LENGTHS_lower k Hk).
    apply Z.mul_le_mono_nonneg_l; [lia|].
    destruct (in_dec Z.eq_dec k (combination top)) as [Hin|Hout].
    - destruct (Htq k Hin) as [q [Hget Hle]].
      rewrite (dict_get_quantities_of w k Hk) in Hget.
      injection Hget as <-. exact Hle.
    - rewrite (occurrences_absent _ _ Hout). apply occurrences_nonneg. }
  pose proof (weighted_counts (fun k => k) CUT_LENGTHS (combination top)
                CUT_LENGTHS_nodup Htincl) as Stop.
  pose proof (weighted_counts (fun k => k) CUT_LENGTHS w
                CUT_LENGTHS_nodup Hincl) as Sw.
  rewrite map_id in Stop, Sw.
  assert (Heq : forall k, In k CUT_LENGTHS ->
                  k * occurrences k (combination top) = k * occurrences k w).
  { apply sum_map_le_eq; [exact Hpoint|]. rewrite Stop, Sw. lia. }
  split.
  - pose proof (sum_map_le _ _ CUT_LENGTHS Hpoint) as Hle.
    rewrite Stop, Sw in Hle. lia.
  - intros k. destruct (in_dec Z.eq_dec k CUT_LENGTHS) as [Hk|Hk].
    + pose proof (CUT_LENGTHS_lower k Hk). specialize (Heq k Hk). nia.
    + rewrite !occurrences_absent; [reflexivity | |]; intros H; apply Hk; auto.
Qed.

(** X10. For every raw length from 1030 up to, but excluding,
    [24000 * 2^1075] (the raw lengths with a non-zero suggestion), taking
    the mapping that [suggest_optimal_quantities] returns as the desired
    quantities of [find_all_cuts] gives a non-empty result whose first
    entry is the suggestion itself: it uses every suggested piece (each
    catalog length exactly as often as suggested) and its total length is
    the total of the suggestion. *)
Theorem suggestion_is_top_result (raw_length : Z) :
  1030 <= raw_length < 24000 * 2 ^ 1075 ->
  exists m top rest,
    suggest_optimal_quantities raw_length = Ok m /\
    find_all_cuts raw_length m = Ok (top :: rest) /\
    total_length top = weighted_total m /\
    forall k q, In (k, q) m -> occurrences k (combination top) = q.
Proof.
  intros Hraw. fold underflow_from in Hraw.
  destruct (suggest_total raw_length) as [w [E [Hincl [Hw _]]]].
  destruct Hw as [[_ L]|[Hc [Hfit _]]]; [lia|].
  assert (Hne : w <> []).
  { intros ->. pose proof (candidates_total [] Hc) as H.
    rewrite sum_nil in H. lia. }
  destruct (suggestion_is_best_cut raw_length w Hne Hincl Hfit)
    as [top [rest [Ef [Ht Ho]]]].
  exists (quantities_of w), top, rest. split; [exact E|]. split; [exact Ef|].
  split.
  - rewrite weighted_total_quantities_of by exact Hincl. exact Ht.
  - intros k q Hi. unfold quantities_of in Hi. apply in_map_iff in Hi.
    destruct Hi as [x [Ex _]]. injection Ex as <- <-. apply Ho.
Qed.

Lemma suggestion_is_top_result_witness :
  exists m top rest,
    suggest_optimal_quantities 6000 = Ok m /\
    find_all_cuts 6000 m = Ok (top :: rest) /\
    total_length top = weighted_total m /\
    forall k q, In (k, q) m -> occurrences k (combination top) = q.
Proof.
  apply (suggestion_is_top_result 6000).
  split; [lia | apply Z.ltb_lt; vm_compute; reflexivity].
Defined.

(** * The page *)

Lemma read_quantities_grid (number_input : Z -> Z) :
  read_quantities number_input
  = map (fun length => (length, number_input length)) CUT_LENGTHS.
Proof. reflexivity. Qed.

Lemma available_lengths_map (f : Z -> Z) (l : list Z) :
  available_lengths_of (map (fun k => (k, f k)) l)
  = filter (fun k => f k >? 0) l.
Proof.
  unfold available_lengths_of, items.
  induction l as [|k l IH]; simpl; [reflexivity|].
  destruct (f k >? 0); simpl; rewrite IH; reflexivity.
Qed.

Lemma any_positive_available (desired_cuts : dict) :
  any_positive desired_cuts = true <->
  available_lengths_of desired_cuts <> [].
Proof.
  unfold any_positive, available_lengths_of, values, items.
  induction desired_cuts as [|[k q] d IH]; simpl.
  - split; [discriminate | congruence].
  - destruct (q >? 0); simpl; [split; [discriminate | reflexivity]|].
    exact IH.
Qed.

Lemma read_quantities_length_quantity (number_input : Z -> Z) :
  (forall length, In length CUT_LENGTHS -> 0 <= number_input length) ->
  length_quantity (read_quantities number_input).
Proof.
  intros Hni. rewrite read_quantities_grid.
  assert (Hkeys : keys (map (fun length => (length, number_input length))
                            CUT_LENGTHS) = CUT_LENGTHS).
  { unfold keys. rewrite map_map. cbn [fst]. apply map_id. }
  split; [|split].
  - rewrite Hkeys. apply CUT_LENGTHS_nodup.
  - rewrite Hkeys. intros k Hk. pose proof (CUT_LENGTHS_lower k Hk). lia.
  - intros k q Hi. apply in_map_iff in Hi. destruct Hi as [x [E Hx]].
    injection E as <- <-. apply Hni, Hx.
Qed.

(** X11. Whatever the number inputs return, the grid loops of [main] (rows
    of 4 over the catalog) enter every catalog length exactly once, in
    catalog order, with the value of its own input; with non-negative
    inputs the dictionary handed to [find_all_cuts] has unique positive
    keys and non-negative quantities. *)
Theorem read_quantities_covers_catalog (number_input : Z -> Z) :
  (forall length, In length CUT_LENGTHS -> 0 <= number_input length) ->
  keys (read_quantities number_input) = CUT_LENGTHS /\
  (forall length, In length CUT_LENGTHS ->
     dict_get (read_quantities number_input) length
     = Some (number_input length)) /\
  length_quantity (read_quantities number_input).
Proof.
  intros Hni.
  pose proof (read_quantities_length_quantity number_input Hni) as Hlq.
  assert (Hkeys : keys (read_quantities number_input) = CUT_LENGTHS).
  { rewrite read_quantities_grid. unfold keys. rewrite map_map. cbn [fst].
    apply map_id. }
  split; [exact Hkeys|]. split; [|exact Hlq].
  intros k Hk. apply dict_get_unique; [apply Hlq|].
  rewrite read_quantities_grid.
  apply (in_map (fun length => (length, number_input length))), Hk.
Qed.

Lemma read_quantities_covers_catalog_witness :
  keys (read_quantities (fun length => length / 1000)) = CUT_LENGTHS /\
  (forall length, In length CUT_LENGTHS ->
     dict_get (read_quantities (fun length => length / 1000)) length
     = Some (length / 1000)) /\
  length_quantity (read_quantities (fun length => length / 1000)).
Proof.
  apply (read_quantities_covers_catalog (fun length => length / 1000)).
  intros k Hk. pose proof (CUT_LENGTHS_lower k Hk).
  apply Z.div_pos; lia.
Defined.

Lemma page_cases (number_input : Z -> Z) (raw_length : Z) :
  (forall length, In length CUT_LENGTHS -> 0 <= number_input length) ->
  (main_page number_input raw_length = Ok PleaseSelect /\
   forall length, In length CUT_LENGTHS -> number_input length = 0) \/
  (main_page number_input raw_length = Ok NoValidCombinations /\
   (exists length, In length CUT_LENGTHS /\ 0 < number_input length) /\
   forall length, In length CUT_LENGTHS -> 0 < number_input length ->
                  raw_length < length) \/
  (exists best rest,
      main_page number_input raw_length = Ok (Table (best :: rest) best) /\
      find_all_cuts raw_length (read_quantities number_input)
      = Ok (best :: rest) /\
      exists length, In length CUT_LENGTHS /\ 0 < number_input length /\
                     length <= raw_length).
Proof.
  intros Hni.
  pose proof (read_quantities_length_quantity number_input Hni) as Hlq.
  pose proof (empty_result_iff raw_length _ Hlq) as Hempty.
  pose proof (any_positive_available (read_quantities number_input)) as Hany.
  assert (Hav : available_lengths_of (read_quantities number_input)
                = filter (fun k => number_input k >? 0) CUT_LENGTHS).
  { rewrite read_quantities_grid. apply available_lengths_map. }
  rewrite Hav in Hempty, Hany. unfold main_page.
  destruct (any_positive (read_quantities number_input)) eqn:Eany.
  - right.
    assert (Hsome : exists length,
               In length CUT_LENGTHS /\ 0 < number_input length).
    { destruct (filter (fun k => number_input k >? 0) CUT_LENGTHS)
        as [|k l] eqn:Ef; [exfalso; apply (proj1 Hany); reflexivity|].
      assert (Hk : In k (filter (fun k => number_input k >? 0) CUT_LENGTHS)).
      { rewrite Ef. left. reflexivity. }
      apply filter_In in Hk. exists k. split; [tauto | lia]. }
    destruct (returns_for_positive_lengths raw_length
                (read_quantities number_input) (proj1 (proj2 Hlq)))
      as [results [E _]].
    rewrite E. simpl bind. destruct results as [|best rest].
    + left. split; [reflexivity|]. split; [exact Hsome|].
      intros k Hk Hpos. apply (proj1 Hempty E). apply filter_In.
      split; [exact Hk | lia].
    + right. exists best, rest. split; [reflexivity|]. split; [reflexivity|].
      destruct (filter (fun k => number_input k >? 0) CUT_LENGTHS)
        as [|k0 l0] eqn:Ef.
      { exfalso. apply (proj1 Hany); reflexivity. }
      clear Hsome.
      assert (Hex : ~ forall k,
                 In k (filter (fun k => number_input k >? 0) CUT_LENGTHS) ->
                 raw_length < k).
      { rewrite Ef. intros H. apply (proj2 Hempty) in H. congruence. }
      assert (Hfind : exists k,
                 In k (filter (fun k => number_input k >? 0) CUT_LENGTHS) /\
                 k <= raw_length).
      { clear Ef. induction (filter (fun k => number_input k >? 0)
                                    CUT_LENGTHS) as [|k l IH].
        - exfalso. apply Hex. intros k [].
        - destruct (Z_lt_le_dec raw_length k) as [L|L].
          + destruct IH as [k' [Hk' Hle]].
            { intros H. apply Hex. intros x [<-|Hx]; [exact L | apply H, Hx]. }
            exists k'. split; [right; exact Hk' | exact Hle].
          + exists k. split; [left; reflexivity | exact L]. }
      rewrite <- Ef in *. destruct Hfind as [k [Hk Hle]].
      apply filter_In in Hk. exists k. split; [tauto|]. split; [lia | exact Hle].
  - left. split; [reflexivity|].
    intros k Hk. specialize (Hni k Hk).
    destruct (Z.eq_dec (number_input k) 0) as [E0|Hne]; [exact E0|].
    exfalso.
    assert (Habs : false = true).
    { apply Hany. intros Hnil.
      assert (Hin : In k (filter (fun k => number_input k >? 0) CUT_LENGTHS)).
      { apply filter_In. split; [exact Hk | lia]. }
      rewrite Hnil in Hin. destruct Hin. }
    discriminate.
Qed.

(** X12. With non-negative quantity inputs [main] never fails, for any raw
    length, and what it shows is decided as follows: the hint to select
    lengths exactly when every quantity is 0; the warning that no valid
    combination was found exactly when some length is selected and every
    selected length is longer than the raw length; the table exactly when
    some selected length fits, and then the rows are the result of
    [find_all_cuts] on the grid's quantities and the recommended entry is
    its first row. *)
Theorem main_page_outcome (number_input : Z -> Z) (raw_length : Z) :
  (forall length, In length CUT_LENGTHS -> 0 <= number_input length) ->
  exists p,
    main_page number_input raw_length = Ok p /\
    (p = PleaseSelect <->
     forall length, In length CUT_LENGTHS -> number_input length = 0) /\
    (p = NoValidCombinations <->
     (exists length, In length CUT_LENGTHS /\ 0 < number_input length) /\
     forall length, In length CUT_LENGTHS -> 0 < number_input length ->
                    raw_length < length) /\
    ((exists rows best, p = Table rows best) <->
     exists length, In length CUT_LENGTHS /\ 0 < number_input length /\
                    length <= raw_length) /\
    (forall rows best, p = Table rows best ->
       find_all_cuts raw_length (read_quantities number_input) = Ok rows /\
       hd_error rows = Some best).
Proof.
  intros Hni.
  destruct (page_cases number_input raw_length Hni)
    as [[E Hzero]|[[E [[l0 [Hl0 Hp0]] Hbig]]|[best [rest [E [Ef Hfit]]]]]].
  - exists PleaseSelect. split; [exact E|].
    split; [tauto|]. split; [|split].
    + split; [discriminate|]. intros [[l [Hl Hp]] _].
      rewrite (Hzero l Hl) in Hp. lia.
    + split; [intros [rows [b H]]; discriminate|].
      intros [l [Hl [Hp _]]]. rewrite (Hzero l Hl) in Hp. lia.
    + intros rows b H. discriminate.
  - exists NoValidCombinations. split; [exact E|]. split; [|split; [|split]].
    + split; [discriminate|]. intros Hzero. rewrite (Hzero l0 Hl0) in Hp0. lia.
    + split; [intros _; split; [exists l0; tauto | exact Hbig] | reflexivity].
    + split; [intros [rows [b H]]; discriminate|].
      intros [l [Hl [Hp Hle]]]. specialize (Hbig l Hl Hp). lia.
    + intros rows b H. discriminate.
  - destruct Hfit as [l [Hl [Hp Hle]]].
    exists (Table (best :: rest) best). split; [exact E|].
    split; [|split; [|split]].
    + split; [discriminate|]. intros Hzero. rewrite (Hzero l Hl) in Hp. lia.
    + split; [discriminate|]. intros [_ Hbig]. specialize (Hbig l Hl Hp). lia.
    + split; [intros _; exists l; tauto | intros _; eauto].
    + intros rows b H. injection H as <- <-. split; [exact Ef | reflexivity].
Qed.

Lemma main_page_outcome_witness :
  exists p,
    main_page (fun length => length / 3000) 6000 = Ok p /\
    (p = PleaseSelect <->
     forall length, In length CUT_LENGTHS -> length / 3000 = 0) /\
    (p = NoValidCombinations <->
     (exists length, In length CUT_LENGTHS /\ 0 < length / 3000) /\
     forall length, In length CUT_LENGTHS -> 0 < length / 3000 ->
                    6000 < length) /\
    ((exists rows best, p = Table rows best) <->
     exists length, In length CUT_LENGTHS /\ 0 < length / 3000 /\
                    length <= 6000) /\
    (forall rows best, p = Table rows best ->
       find_all_cuts 6000 (read_quantities (fun length => length / 3000))
       = Ok rows /\
       hd_error rows = Some best).
Proof.
  apply (main_page_outcome (fun length => length / 3000) 6000).
  intros k Hk. pose proof (CUT_LENGTHS_lower k Hk).
  apply Z.div_pos; lia.
Defined.

Lemma read_back (m : dict) :
  NoDup (keys m) -> keys m = CUT_LENGTHS ->
  read_quantities (after_suggest m) = m.
Proof.
  intros Hnd Hkeys. rewrite read_quantities_grid, <- Hkeys.
  symmetry. apply dict_ext; [exact Hnd|].
  intros k Hk. unfold after_suggest.
  destruct (dict_get_key m k Hk) as [v ->]. reflexivity.
Qed.


(** X13. The suggest button and the grid fit together: the mapping
    [suggest_optimal_quantities] returns, stored under the input keys and
    read back by the grid loops, is the same mapping; for a raw length
    below 1030, or from [24000 * 2^1075] on, the suggestion is all-zero and
    the page still asks to select lengths; for every raw length in between,
    which covers the page's own input range from 1030 to 10000, it shows a
    table whose recommended entry has the total length of the
    suggestion. *)
Theorem suggest_button_round_trip (raw_length : Z) :
  exists m,
    suggest_optimal_quantities raw_length = Ok m /\
    read_quantities (after_suggest m) = m /\
    (raw_length < 1030 \/ 24000 * 2 ^ 1075 <= raw_length ->
     main_page (after_suggest m) raw_length = Ok PleaseSelect) /\
    (1030 <= raw_length < 24000 * 2 ^ 1075 ->
     exists best rest,
       main_page (after_suggest m) raw_length
       = Ok (Table (best :: rest) best) /\
       total_length best = weighted_total m).
Proof.
  fold underflow_from.
  destruct (suggest_total raw_length) as [w [E [Hincl [Hw _]]]].
  exists (quantities_of w). split; [exact E|].
  assert (Hread : read_quantities (after_suggest (quantities_of w))
                  = quantities_of w).
  { apply read_back; [|apply keys_quantities_of].
    rewrite keys_quantities_of. apply CUT_LENGTHS_nodup. }
  split; [exact Hread|]. unfold main_page. rewrite Hread. split.
  - intros L. destruct Hw as [[-> _]|[_ [_ Hmid]]]; [reflexivity | lia].
  - intros L. destruct Hw as [[_ L']|[Hc [Hfit _]]]; [lia|].
    assert (Hne : w <> []).
    { intros ->. pose proof (candidates_total [] Hc) as H.
      rewrite sum_nil in H. lia. }
    destruct (suggestion_is_best_cut raw_length w Hne Hincl Hfit)
      as [best [rest [Ef [Ht _]]]].
    exists best, rest.
    destruct (any_positive (quantities_of w)) eqn:Eany.
    + rewrite Ef. simpl bind. split; [reflexivity|].
      rewrite weighted_total_quantities_of by exact Hincl. exact Ht.
    + exfalso.
      assert (Hav : available_lengths_of (quantities_of w) = []).
      { destruct (available_lengths_of (quantities_of w)) eqn:Ea;
          [reflexivity|].
        assert (H : any_positive (quantities_of w) = true).
        { apply any_positive_available. rewrite Ea. discriminate. }
        congruence. }
      unfold find_all_cuts in Ef. rewrite Hav in Ef. discriminate.
Qed.

(** * Zero quantities *)

Lemma available_lengths_drop_zero (d : dict) :
  available_lengths_of (filter (fun item => negb (snd item =? 0)) d)
  = available_lengths_of d.
Proof.
  unfold available_lengths_of, items.
  induction d as [|[k q] d IH]; simpl; [reflexivity|].
  destruct (Z.eqb_spec q 0) as [->|Hq]; simpl.
  - exact IH.
  - destruct (q >? 0); simpl; rewrite IH; reflexivity.
Qed.

Lemma sum_values_drop_zero (d : dict) :
  sum (values (filter (fun item => negb (snd item =? 0)) d))
  = sum (values d).
Proof.
  unfold values. induction d as [|[k q] d IH]; simpl; [reflexivity|].
  destruct (Z.eqb_spec q 0) as [->|Hq]; simpl.
  - rewrite sum_cons, IH. lia.
  - rewrite !sum_cons, IH. reflexivity.
Qed.

Lemma dict_get_drop_zero (d : dict) (k : Z) :
  NoDup (keys d) ->
  In k (available_lengths_of d) ->
  dict_get (filter (fun item => negb (snd item =? 0)) d) k = dict_get d k.
Proof.
  intros Hnd Hk.
  destruct (available_lengths_positive d k Hk) as [q [Hin Hq]].
  rewrite (dict_get_unique d k q Hnd Hin).
  apply dict_get_unique.
  - unfold keys. clear Hin Hk. induction d as [|[a b] d IH]; simpl;
      [constructor|].
    inversion Hnd as [|? ? Hnotin Hnd']; subst.
    destruct (negb (b =? 0)); simpl; [|apply IH, Hnd'].
    constructor; [|apply IH, Hnd'].
    intros H. apply Hnotin. apply in_map_iff in H.
    destruct H as [item [E Hi]]. apply filter_In in Hi.
    rewrite <- E. apply in_map, Hi.
  - apply filter_In. split; [exact Hin|]. cbn [snd].
    apply negb_true_iff, Z.eqb_neq. lia.
Qed.

Lemma forallb_agree {A : Type} (f g : A -> bool) (l : list A) :
  (forall a, In a l -> f a = g a) -> forallb f l = forallb g l.
Proof.
  induction l as [|a l IH]; intros H; simpl; [reflexivity|].
  rewrite (H a (or_introl eq_refl)), IH; [reflexivity|].
  intros b Hb. apply H. right. exact Hb.
Qed.

Lemma within_quantities_drop_zero (d : dict) (combo : list Z) :
  NoDup (keys d) ->
  incl combo (available_lengths_of d) ->
  within_quantities (filter (fun item => negb (snd item =? 0)) d) combo
  = within_quantities d combo.
Proof.
  intros Hnd Hincl. unfold within_quantities.
  apply forallb_agree. intros [k n] Hi. cbn [fst snd].
  apply Counter_items in Hi.
  rewrite dict_get_drop_zero; [reflexivity | exact Hnd | apply Hincl, Hi].
Qed.

Lemma for_each_ext {A S : Type} (f g : A -> S -> exc S) (xs : list A) :
  (forall x s, In x xs -> f x s = g x s) ->
  forall s, for_each xs f s = for_each xs g s.
Proof.
  induction xs as [|x xs IH]; intros H s; simpl; [reflexivity|].
  rewrite (H x s (or_introl eq_refl)).
  destruct (g x s) as [s'|e]; simpl; [|reflexivity].
  apply IH. intros y t Hy. apply H. right. exact Hy.
Qed.

(** The loop body does the same with and without the zero-quantity
    entries. *)
Lemma try_combo_drop_zero (raw_length : Z) (desired_cuts : dict)
  (size : nat) (combo : list Z) (results : list cut) :
  NoDup (keys desired_cuts) ->
  In combo
     (combinations_with_replacement (available_lengths_of desired_cuts) size)
  ->
  try_combo raw_length
    (filter (fun item => negb (snd item =? 0)) desired_cuts) combo results
  = try_combo raw_length desired_cuts combo results.
Proof.
  intros Hnd Hc. unfold try_combo.
  destruct (sum combo <=? raw_length); [|reflexivity].
  rewrite (check_quantities_within desired_cuts size combo Hc).
  rewrite (check_quantities_within _ size combo)
    by (rewrite available_lengths_drop_zero; exact Hc).
  rewrite within_quantities_drop_zero; [reflexivity | exact Hnd |].
  apply (proj2 (cwr_spec _ _ _ Hc)).
Qed.

(** X14. Entries with quantity 0 are as good as absent: for a non-zero raw
    length and a dictionary (unique keys), [find_all_cuts] returns the
    same result with and without the zero-quantity entries. *)
Theorem find_all_cuts_ignores_zero_quantities
  (raw_length : Z) (desired_cuts : dict) :
  raw_length <> 0 ->
  NoDup (keys desired_cuts) ->
  find_all_cuts raw_length
    (filter (fun item => negb (snd item =? 0)) desired_cuts)
  = find_all_cuts raw_length desired_cuts.
Proof.
  intros Hraw Hnd. unfold find_all_cuts. cbv zeta.
  rewrite available_lengths_drop_zero, sum_values_drop_zero.
  destruct (available_lengths_of desired_cuts) as [|a l] eqn:Ea;
    [reflexivity|].
  rewrite <- Ea. f_equal.
  apply for_each_ext. intros size results _.
  apply for_each_ext. intros combo results' Hc.
  apply (try_combo_drop_zero _ _ size); assumption.
Qed.


Lemma find_all_cuts_ignores_zero_quantities_witness :
  find_all_cuts 6000
    (filter (fun item => negb (snd item =? 0))
            [(515, 0); (3000, 2); (1025, 0)])
  = find_all_cuts 6000 [(515, 0); (3000, 2); (1025, 0)].
Proof.
  apply (find_all_cuts_ignores_zero_quantities 6000
           [(515, 0); (3000, 2); (1025, 0)]).
  - lia.
  - repeat constructor; simpl; intuition lia.
Defined.
